(** * Splendor rules engine: a shallow embedding of [src/game] and its
    specification.

    The Python classes [Card], [Noble], [Player], [Board], [Action] and
    [Game] become modules of the same name.  Mutable objects are passed
    explicitly: a method that mutates [self] returns the new value.  Python
    integers are [Z]; list indices and lengths are [nat].

    The pseudo-random generator of the source ([random.shuffle] at set-up,
    [random.choice] in the discard loop and in [play_round]) is made
    explicit: set-up takes the shuffling functions, and the two users of
    [random.choice] take the list of numbers drawn. *)

From Stdlib Require Import ZArith String Lia DecimalString.
From stdpp Require Import base numbers list strings.

Local Open Scope string_scope.
Local Open Scope list_scope.
Local Open Scope Z_scope.

(** ** Gem colours ([card.py], [GemColor]) *)

Inductive GemColor : Set := WHITE | BLUE | GREEN | RED | BLACK | GOLD.

#[global] Instance GemColor_eq_dec : EqDecision GemColor.
Proof. solve_decision. Defined.

(** [GemColor.value] *)
Definition GemColor_value (c : GemColor) : string :=
  match c with
  | WHITE => "white" | BLUE => "blue" | GREEN => "green"
  | RED => "red" | BLACK => "black" | GOLD => "gold"
  end.

(** The five colours every loop of the source enumerates as
    [[WHITE, BLUE, GREEN, RED, BLACK]]. *)
Definition basic_colors : list GemColor := [WHITE; BLUE; GREEN; RED; BLACK].

(** Iteration order of a dict created with all six keys. *)
Definition all_colors : list GemColor := [WHITE; BLUE; GREEN; RED; BLACK; GOLD].

(** ** Token tables

    [Player.gems] and [Board.gems] are dicts created with all six colours
    as keys; no code path adds or deletes a key.  They are tables
    [GemColor -> Z]; [d.get(c, 0)] and [d[c]] are both [d c]. *)

Definition Gems : Type := GemColor -> Z.

Definition gems_set (g : Gems) (c : GemColor) (v : Z) : Gems :=
  fun c' => if decide (c' = c) then v else g c'.

(** [sum(d.values())] *)
Definition gems_total (g : Gems) : Z :=
  fold_right (fun c acc => g c + acc) 0 all_colors.

(** ** Small dicts keyed by colour

    Card costs, noble requirements, the payment computed by
    [get_actual_cost] and the request handed to [take_gems] are dicts that
    hold only some colours and are iterated in insertion order: association
    lists, with Python's rule that assigning to a present key keeps its
    position. *)

Definition Dict : Type := list (GemColor * Z).

Fixpoint dict_get (d : Dict) (k : GemColor) (default : Z) : Z :=
  match d with
  | [] => default
  | (k', v) :: r => if decide (k = k') then v else dict_get r k default
  end.

Fixpoint dict_set (d : Dict) (k : GemColor) (v : Z) : Dict :=
  match d with
  | [] => [(k, v)]
  | (k', v') :: r =>
      if decide (k = k') then (k, v) :: r else (k', v') :: dict_set r k v
  end.

Definition dict_keys (d : Dict) : list GemColor := map fst d.

(** [sum(f(x) for x in l)] *)
Definition sum_with {A} (f : A -> Z) (l : list A) : Z :=
  fold_right (fun x acc => f x + acc) 0 l.

(** ** Cards ([card.py]) *)

Module Card.

Record t : Type := mk {
  level : Z;
  points : Z;
  gem_color : GemColor;
  cost : Dict;
  card_id : string
}.

#[global] Instance eq_dec : EqDecision t.
Proof. solve_decision. Defined.

(** What a dict literal over the five basic colours guarantees for
    [cost]: distinct keys, none of them Gold. *)
Definition cost_wf (c : t) : Prop :=
  NoDup (dict_keys (cost c)) /\ GOLD ∉ dict_keys (cost c).

Definition level1_cards : list t := [
  mk 1 0 WHITE [(BLUE, 1); (GREEN, 1); (RED, 1); (BLACK, 1)] "L1_W1";
  mk 1 0 WHITE [(BLUE, 1); (GREEN, 2); (RED, 1); (BLACK, 1)] "L1_W2";
  mk 1 0 WHITE [(BLUE, 2); (GREEN, 2); (BLACK, 1)] "L1_W3";
  mk 1 1 WHITE [(BLUE, 4)] "L1_W4";
  mk 1 0 BLUE [(WHITE, 1); (GREEN, 1); (RED, 1); (BLACK, 1)] "L1_B1";
  mk 1 0 BLUE [(WHITE, 1); (GREEN, 1); (RED, 2); (BLACK, 1)] "L1_B2";
  mk 1 0 BLUE [(WHITE, 1); (RED, 2); (BLACK, 2)] "L1_B3";
  mk 1 1 BLUE [(RED, 4)] "L1_B4";
  mk 1 0 GREEN [(WHITE, 1); (BLUE, 1); (RED, 1); (BLACK, 1)] "L1_G1";
  mk 1 0 GREEN [(WHITE, 1); (BLUE, 1); (RED, 1); (BLACK, 2)] "L1_G2";
  mk 1 0 GREEN [(WHITE, 2); (BLUE, 1); (BLACK, 2)] "L1_G3";
  mk 1 1 GREEN [(BLACK, 4)] "L1_G4";
  mk 1 0 RED [(WHITE, 1); (BLUE, 1); (GREEN, 1); (BLACK, 1)] "L1_R1";
  mk 1 0 RED [(WHITE, 2); (BLUE, 1); (GREEN, 1); (BLACK, 1)] "L1_R2";
  mk 1 0 RED [(WHITE, 2); (BLUE, 2); (GREEN, 1)] "L1_R3";
  mk 1 1 RED [(WHITE, 4)] "L1_R4";
  mk 1 0 BLACK [(WHITE, 1); (BLUE, 1); (GREEN, 1); (RED, 1)] "L1_K1";
  mk 1 0 BLACK [(WHITE, 1); (BLUE, 2); (GREEN, 1); (RED, 1)] "L1_K2";
  mk 1 0 BLACK [(WHITE, 1); (BLUE, 2); (GREEN, 2)] "L1_K3";
  mk 1 1 BLACK [(GREEN, 4)] "L1_K4"
].

Definition level2_cards : list t := [
  mk 2 1 WHITE [(BLUE, 3); (GREEN, 2); (RED, 2)] "L2_W1";
  mk 2 1 WHITE [(BLUE, 3); (GREEN, 3); (BLACK, 2)] "L2_W2";
  mk 2 2 WHITE [(BLUE, 5)] "L2_W3";
  mk 2 1 BLUE [(WHITE, 2); (GREEN, 2); (RED, 3)] "L2_B1";
  mk 2 1 BLUE [(WHITE, 2); (RED, 3); (BLACK, 3)] "L2_B2";
  mk 2 2 BLUE [(WHITE, 5)] "L2_B3";
  mk 2 1 GREEN [(WHITE, 3); (BLUE, 2); (BLACK, 2)] "L2_G1";
  mk 2 1 GREEN [(WHITE, 3); (RED, 2); (BLACK, 3)] "L2_G2";
  mk 2 2 GREEN [(BLUE, 5)] "L2_G3";
  mk 2 1 RED [(WHITE, 2); (GREEN, 3); (BLACK, 2)] "L2_R1";
  mk 2 1 RED [(BLUE, 2); (GREEN, 3); (BLACK, 3)] "L2_R2";
  mk 2 2 RED [(BLACK, 5)] "L2_R3";
  mk 2 1 BLACK [(WHITE, 2); (BLUE, 2); (RED, 3)] "L2_K1";
  mk 2 1 BLACK [(WHITE, 3); (GREEN, 2); (RED, 3)] "L2_K2";
  mk 2 2 BLACK [(RED, 5)] "L2_K3"
].

Definition level3_cards : list t := [
  mk 3 3 WHITE [(BLUE, 3); (GREEN, 3); (RED, 3); (BLACK, 5)] "L3_W1";
  mk 3 4 WHITE [(RED, 7)] "L3_W2";
  mk 3 3 BLUE [(WHITE, 3); (GREEN, 3); (RED, 5); (BLACK, 3)] "L3_B1";
  mk 3 4 BLUE [(BLACK, 7)] "L3_B2";
  mk 3 3 GREEN [(WHITE, 5); (BLUE, 3); (RED, 3); (BLACK, 3)] "L3_G1";
  mk 3 4 GREEN [(WHITE, 7)] "L3_G2";
  mk 3 3 RED [(WHITE, 3); (BLUE, 5); (GREEN, 3); (BLACK, 3)] "L3_R1";
  mk 3 4 RED [(GREEN, 7)] "L3_R2";
  mk 3 3 BLACK [(WHITE, 3); (BLUE, 3); (GREEN, 5); (RED, 3)] "L3_K1";
  mk 3 4 BLACK [(BLUE, 7)] "L3_K2"
].

(** [create_standard_cards()] *)
Definition create_standard_cards : list t :=
  level1_cards ++ level2_cards ++ level3_cards.

End Card.

(** ** Nobles ([noble.py]) *)

Module Noble.

Record t : Type := mk {
  points : Z;
  requirements : Dict;
  noble_id : string
}.

#[global] Instance eq_dec : EqDecision t.
Proof. solve_decision. Defined.

(** [create_standard_nobles()] *)
Definition create_standard_nobles : list t := [
  mk 3 [(WHITE, 4); (RED, 4)] "N1";
  mk 3 [(WHITE, 3); (BLUE, 3); (RED, 3)] "N2";
  mk 3 [(BLUE, 4); (GREEN, 4)] "N3";
  mk 3 [(BLACK, 4); (RED, 4)] "N4";
  mk 3 [(WHITE, 3); (BLUE, 3); (BLACK, 3)] "N5";
  mk 3 [(GREEN, 4); (BLACK, 4)] "N6";
  mk 3 [(WHITE, 3); (GREEN, 3); (BLACK, 3)] "N7";
  mk 3 [(BLUE, 3); (GREEN, 3); (RED, 3)] "N8";
  mk 3 [(WHITE, 4); (BLUE, 4)] "N9";
  mk 3 [(GREEN, 3); (RED, 3); (BLACK, 3)] "N10"
].

End Noble.

(** ** Players ([player.py]) *)

Module Player.

Record t : Type := mk {
  player_id : string;
  name : string;
  gems : Gems;
  cards : list Card.t;
  reserved_cards : list Card.t;
  nobles : list Noble.t
}.

(** [Player(player_id, name)]: the dataclass defaults. *)
Definition new (player_id name : string) : t :=
  mk player_id name (fun _ => 0) [] [] [].

Definition set_gems (p : t) (g : Gems) : t :=
  mk (player_id p) (name p) g (cards p) (reserved_cards p) (nobles p).
Definition set_cards (p : t) (cs : list Card.t) : t :=
  mk (player_id p) (name p) (gems p) cs (reserved_cards p) (nobles p).
Definition set_reserved_cards (p : t) (cs : list Card.t) : t :=
  mk (player_id p) (name p) (gems p) (cards p) cs (nobles p).
Definition set_nobles (p : t) (ns : list Noble.t) : t :=
  mk (player_id p) (name p) (gems p) (cards p) (reserved_cards p) ns.

Definition get_gem_count (p : t) (color : GemColor) : Z := gems p color.

Definition get_total_gems (p : t) : Z := gems_total (gems p).

(** [sum(1 for card in self.cards if card.gem_color == color)] *)
Definition get_card_discount (p : t) (color : GemColor) : Z :=
  sum_with (fun _ => 1) (filter (fun card => Card.gem_color card = color) (cards p)).

(** [discounts = {color: 0 ...}; for card in self.cards:
    discounts[card.gem_color] = discounts.get(card.gem_color, 0) + 1].
    Read only through [discounts.get(color, 0)], so a table. *)
Definition get_card_discounts (p : t) : Gems :=
  fold_left
    (fun discounts card =>
       gems_set discounts (Card.gem_color card)
                (discounts (Card.gem_color card) + 1))
    (cards p) (fun _ => 0).

(** One iteration of the loop of [can_afford_card]. *)
Definition afford_step (p : t) (discounts : Gems)
    (gold_needed : Z) (item : GemColor * Z) : Z :=
  let '(color, cost) := item in
  let available := gems p color + discounts color in
  if available <? cost then gold_needed + (cost - available)
  else gold_needed.

Definition can_afford_card (p : t) (card : Card.t) : bool :=
  let discounts := get_card_discounts p in
  let gold_needed := fold_left (afford_step p discounts) (Card.cost card) 0 in
  gold_needed <=? gems p GOLD.

(** One iteration of the loop of [get_actual_cost]. *)
Definition cost_step (p : t) (discounts : Gems)
    (actual_cost : Dict) (item : GemColor * Z) : Dict :=
  let '(color, cost) := item in
  let discount := discounts color in
  let remaining_cost := Z.max 0 (cost - discount) in
  if 0 <? remaining_cost then
    let actual_cost := dict_set actual_cost color
                         (Z.min remaining_cost (gems p color)) in
    let remaining_cost := remaining_cost - dict_get actual_cost color 0 in
    if (0 <? remaining_cost) && (0 <? gems p GOLD) then
      let gold_needed := Z.min remaining_cost (gems p GOLD) in
      if 0 <? gold_needed then
        dict_set actual_cost GOLD (dict_get actual_cost GOLD 0 + gold_needed)
      else actual_cost
    else actual_cost
  else actual_cost.

Definition get_actual_cost (p : t) (card : Card.t) : Dict :=
  let discounts := get_card_discounts p in
  fold_left (cost_step p discounts) (Card.cost card) [].

(** The value of the local [gold_needed] in the iteration of
    [get_actual_cost] for [(color, cost)]: the Gold applied to that
    colour (0 when the inner branch is not taken). *)
Definition gold_applied (p : t) (item : GemColor * Z) : Z :=
  let '(color, cost) := item in
  let remaining_cost := Z.max 0 (cost - get_card_discounts p color) in
  if 0 <? remaining_cost then
    let remaining_cost := remaining_cost - Z.min remaining_cost (gems p color) in
    if (0 <? remaining_cost) && (0 <? gems p GOLD) then
      Z.min remaining_cost (gems p GOLD)
    else 0
  else 0.

Definition get_score (p : t) : Z :=
  let card_points := sum_with Card.points (cards p) in
  let noble_points := sum_with Noble.points (nobles p) in
  card_points + noble_points.

(** The loop returns [False] at the first unmet requirement. *)
Definition can_be_visited_by_noble (p : t) (noble : Noble.t) : bool :=
  let discounts := get_card_discounts p in
  forallb (fun '(color, requirement) => negb (discounts color <? requirement))
          (Noble.requirements noble).

End Player.

(** ** Python list primitives

    [l.pop(i)] at an index [i] found by [enumerate] returns the element the
    loop is looking at and leaves stdpp's [delete i l]. *)

(** [l.pop()]: the last element and the list without it; [None] stands for
    the empty list, on which every call site of the source tests first. *)
Fixpoint list_pop {A} (l : list A) : option (list A * A) :=
  match l with
  | [] => None
  | x :: r =>
      match list_pop r with
      | None => Some ([], x)
      | Some (r', y) => Some (x :: r', y)
      end
  end.

(** [random.choice(l)] when the generator yields [r]. *)
Definition random_choice {A} (r : nat) (l : list A) : option A :=
  l !! (r mod length l)%nat.

(** [itertools.combinations(l, k)], in the order itertools emits them. *)
Fixpoint combinations {A} (l : list A) (k : nat) : list (list A) :=
  match k with
  | O => [[]]
  | S k' =>
      match l with
      | [] => []
      | x :: r => map (cons x) (combinations r k') ++ combinations r k
      end
  end.

(** ** Board ([board.py]) *)

(** The keys [1, 2, 3] of [card_decks] and [displayed_cards].  Both dicts
    are created with exactly these keys and keep them, so they are tables
    over [Level]; an integer coming from an action is looked up with
    [level_of_Z], [None] being the default of [dict.get]. *)
Inductive Level : Set := L1 | L2 | L3.

#[global] Instance Level_eq_dec : EqDecision Level.
Proof. solve_decision. Defined.

Definition level_value (l : Level) : Z :=
  match l with L1 => 1 | L2 => 2 | L3 => 3 end.

Definition level_of_Z (z : Z) : option Level :=
  match z with 1 => Some L1 | 2 => Some L2 | 3 => Some L3 | _ => None end.

Definition levels : list Level := [L1; L2; L3].

Definition Piles : Type := Level -> list Card.t.

Definition piles_set (d : Piles) (l : Level) (v : list Card.t) : Piles :=
  fun l' => if decide (l' = l) then v else d l'.

(** The outcome of the calls to [random.shuffle] in [Board.__init__]. *)
Record Shuffler : Type := {
  shuffle_cards : Level -> list Card.t -> list Card.t;
  shuffle_nobles : list Noble.t -> list Noble.t
}.

Module Board.

Record t : Type := mk {
  gems : Gems;
  card_decks : Piles;
  displayed_cards : Piles;
  nobles : list Noble.t
}.

Definition set_gems (b : t) (g : Gems) : t :=
  mk g (card_decks b) (displayed_cards b) (nobles b).
Definition set_card_decks (b : t) (d : Piles) : t :=
  mk (gems b) d (displayed_cards b) (nobles b).
Definition set_displayed_cards (b : t) (d : Piles) : t :=
  mk (gems b) (card_decks b) d (nobles b).
Definition set_nobles (b : t) (ns : list Noble.t) : t :=
  mk (gems b) (card_decks b) (displayed_cards b) ns.

Definition _initialize_gems (num_players : nat) : Gems :=
  let base_gems :=
    match num_players with
    | 2%nat => 4 | 3%nat => 5 | 4%nat => 7 | _ => 4
    end in
  fun color => if decide (color = GOLD) then 5 else base_gems.

Definition draw_card (b : t) (level : Level) : option Card.t * t :=
  match list_pop (card_decks b level) with
  | None => (None, b)
  | Some (deck, card) =>
      (Some card, set_card_decks b (piles_set (card_decks b) level deck))
  end.

(** [while len(displayed[level]) < 4 and decks[level]:
      displayed[level].append(self.draw_card(level))].
    Every iteration lengthens the display, so four iterations are the
    most the loop can make; [fill_level_exit] shows the result meets the
    exit condition. *)
Fixpoint fill_level (fuel : nat) (b : t) (level : Level) : t :=
  match fuel with
  | O => b
  | S fuel' =>
      if bool_decide (length (displayed_cards b level) < 4)%nat
         && negb (bool_decide (card_decks b level = []))
      then
        match draw_card b level with
        | (Some card, b') =>
            fill_level fuel'
              (set_displayed_cards b'
                 (piles_set (displayed_cards b') level
                            (displayed_cards b' level ++ [card])))
              level
        | (None, b') => b'
        end
      else b
  end.

Definition replenish_displayed_cards (b : t) : t :=
  fold_left (fun b level => fill_level 4 b level) levels b.

#[global] Arguments fill_level : simpl never.
#[global] Arguments replenish_displayed_cards : simpl never.

(** [Board(num_players)].  The deal is
    [for _ in range(4): if deck: displayed.append(deck.pop())]. *)
Definition deal_step (b : t) (level : Level) : t :=
  match list_pop (card_decks b level) with
  | None => b
  | Some (deck, card) =>
      mk (gems b) (piles_set (card_decks b) level deck)
         (piles_set (displayed_cards b) level (displayed_cards b level ++ [card]))
         (nobles b)
  end.

Definition init (num_players : nat) (rng : Shuffler) : t :=
  let all_cards := Card.create_standard_cards in
  let decks : Piles := fun level =>
    shuffle_cards rng level
      (filter (fun card => Card.level card = level_value level) all_cards) in
  let b0 := mk (_initialize_gems num_players) decks (fun _ => []) [] in
  let b1 :=
    fold_left
      (fun b level => Nat.iter 4 (fun b => deal_step b level) b)
      levels b0 in
  let all_nobles := shuffle_nobles rng Noble.create_standard_nobles in
  set_nobles b1 (take (num_players + 1) all_nobles).

(** Returns the card found, if any, and the board afterwards. *)
Definition remove_displayed_card (b : t) (level : Level) (card_id : string)
    : option Card.t * t :=
  match list_find (fun card => Card.card_id card = card_id)
                  (displayed_cards b level) with
  | Some (i, card) =>
      let b' := set_displayed_cards b
                  (piles_set (displayed_cards b) level
                             (delete i (displayed_cards b level))) in
      (Some card, replenish_displayed_cards b')
  | None => (None, b)
  end.

Definition take_gems (b : t) (gems_to_take : Dict) : bool * t :=
  if existsb (fun '(color, count) => gems b color <? count) gems_to_take
  then (false, b)
  else
    (true,
     fold_left
       (fun b '(color, count) =>
          set_gems b (gems_set (gems b) color (gems b color - count)))
       gems_to_take b).

Definition return_gems (b : t) (gems_to_return : Dict) : t :=
  fold_left
    (fun b '(color, count) =>
       set_gems b (gems_set (gems b) color (gems b color + count)))
    gems_to_return b.

Definition remove_noble (b : t) (noble_id : string) : option Noble.t * t :=
  match list_find (fun noble => Noble.noble_id noble = noble_id) (nobles b) with
  | Some (i, noble) => (Some noble, set_nobles b (delete i (nobles b)))
  | None => (None, b)
  end.

End Board.

(** ** Actions ([game.py], [ActionType] and [Action]) *)

Module Action.

Inductive ActionType : Set :=
| TAKE_DIFFERENT_GEMS
| TAKE_SAME_GEMS
| RESERVE_CARD
| BUY_CARD
| BUY_RESERVED_CARD.

#[global] Instance ActionType_eq_dec : EqDecision ActionType.
Proof. solve_decision. Defined.

Definition ActionType_value (ty : ActionType) : string :=
  match ty with
  | TAKE_DIFFERENT_GEMS => "take_different_gems"
  | TAKE_SAME_GEMS => "take_same_gems"
  | RESERVE_CARD => "reserve_card"
  | BUY_CARD => "buy_card"
  | BUY_RESERVED_CARD => "buy_reserved_card"
  end.

(** [Action(action_type, **kwargs)].  The keyword arguments the engine
    reads, each absent ([None]) or present with the type the engine
    expects. *)
Record t : Type := mk {
  action_type : ActionType;
  colors : option (list GemColor);
  color : option GemColor;
  level : option Z;
  card_id : option string;
  from_deck : option bool
}.

Definition string_of_Z (z : Z) : string := NilZero.string_of_int (Z.to_int z).

(** [Action.__str__] *)
Definition str (a : t) : string :=
  match action_type a with
  | TAKE_DIFFERENT_GEMS =>
      "拿取不同颜色的宝石: "
      ++ String.concat ", " (map GemColor_value (default [] (colors a)))
  | TAKE_SAME_GEMS =>
      "拿取相同颜色的宝石: "
      ++ match color a with Some c => GemColor_value c | None => "Unknown" end
  | RESERVE_CARD =>
      "预留"
      ++ match level a with Some l => string_of_Z l | None => "Unknown" end
      ++ "级卡牌: " ++ default "Unknown" (card_id a)
  | BUY_CARD => "购买卡牌: " ++ default "Unknown" (card_id a)
  | BUY_RESERVED_CARD => "购买预留卡牌: " ++ default "Unknown" (card_id a)
  end.

(** A value of the [params] dict after [to_dict] replaced enum members
    by their [value]. *)
Inductive ParamValue : Type :=
| PStr (s : string)
| PStrs (l : list string)
| PInt (z : Z)
| PBool (b : bool).

Record Data : Type := mkData {
  data_action_type : string;
  data_params : list (string * ParamValue);
  data_description : string
}.

Definition opt_param {A} (key : string) (f : A -> ParamValue) (v : option A)
    : list (string * ParamValue) :=
  match v with Some x => [(key, f x)] | None => [] end.

(** [Action.to_dict] *)
Definition to_dict (a : t) : Data :=
  mkData
    (ActionType_value (action_type a))
    (opt_param "colors" (fun cs => PStrs (map GemColor_value cs)) (colors a)
     ++ opt_param "color" (fun c => PStr (GemColor_value c)) (color a)
     ++ opt_param "level" PInt (level a)
     ++ opt_param "card_id" PStr (card_id a)
     ++ opt_param "from_deck" PBool (from_deck a))
    (str a).

(** The five shapes [get_valid_actions] builds. *)
Definition take_different_gems (cs : list GemColor) : t :=
  mk TAKE_DIFFERENT_GEMS (Some cs) None None None None.
Definition take_same_gems (c : GemColor) : t :=
  mk TAKE_SAME_GEMS None (Some c) None None None.
Definition reserve_card (l : Z) (id : string) : t :=
  mk RESERVE_CARD None None (Some l) (Some id) None.
Definition reserve_from_deck (l : Z) : t :=
  mk RESERVE_CARD None None (Some l) None (Some true).
Definition buy_card (l : Z) (id : string) : t :=
  mk BUY_CARD None None (Some l) (Some id) None.
Definition buy_reserved_card (id : string) : t :=
  mk BUY_RESERVED_CARD None None None (Some id) None.

End Action.

(** ** The engine ([game.py], [Game])

    A method that can raise returns an [option], [None] being the raised
    exception: [IndexError] when [players[current_player_index]] does not
    exist, [ZeroDivisionError] on [% num_players] with no player, and
    [AttributeError] on reading [last_player_index] before it was ever
    assigned. *)

Module Game.

Record HistoryRecord : Type := mkRecord {
  h_round : Z;
  h_player : string;
  h_action : string;
  h_action_data : Action.Data
}.

(** [num_players] is assigned [len(players)] once and the list never
    changes length: it is the derived [num_players] below.
    [last_player_index] does not exist until the last round is
    triggered. *)
Record t : Type := mk {
  players : list Player.t;
  board : Board.t;
  current_player_index : nat;
  round_number : Z;
  game_over : bool;
  winner : option (list Player.t);
  last_round : bool;
  last_player_index : option nat;
  history : list HistoryRecord
}.

Definition num_players (g : t) : nat := length (players g).

Definition set_players (g : t) (ps : list Player.t) : t :=
  mk ps (board g) (current_player_index g) (round_number g) (game_over g)
     (winner g) (last_round g) (last_player_index g) (history g).
Definition set_board (g : t) (b : Board.t) : t :=
  mk (players g) b (current_player_index g) (round_number g) (game_over g)
     (winner g) (last_round g) (last_player_index g) (history g).
Definition set_current_player_index (g : t) (i : nat) : t :=
  mk (players g) (board g) i (round_number g) (game_over g)
     (winner g) (last_round g) (last_player_index g) (history g).
Definition set_round_number (g : t) (r : Z) : t :=
  mk (players g) (board g) (current_player_index g) r (game_over g)
     (winner g) (last_round g) (last_player_index g) (history g).
Definition set_game_over (g : t) (b : bool) : t :=
  mk (players g) (board g) (current_player_index g) (round_number g) b
     (winner g) (last_round g) (last_player_index g) (history g).
Definition set_winner (g : t) (w : option (list Player.t)) : t :=
  mk (players g) (board g) (current_player_index g) (round_number g)
     (game_over g) w (last_round g) (last_player_index g) (history g).
Definition set_last_round (g : t) (b : bool) (i : option nat) : t :=
  mk (players g) (board g) (current_player_index g) (round_number g)
     (game_over g) (winner g) b i (history g).
Definition set_history (g : t) (h : list HistoryRecord) : t :=
  mk (players g) (board g) (current_player_index g) (round_number g)
     (game_over g) (winner g) (last_round g) (last_player_index g) h.

(** The current player object is an element of [players]; mutating it
    is writing it back at its index. *)
Definition store (g : t) (player : Player.t) (b : Board.t) : t :=
  set_board (set_players g (<[current_player_index g := player]> (players g))) b.

(** [Game(players, seed)] *)
Definition init (players : list Player.t) (rng : Shuffler) : t :=
  mk players (Board.init (length players) rng) 0 1 false None false None [].

Definition get_current_player (g : t) : option Player.t :=
  players g !! current_player_index g.

Definition next_player (g : t) : option t :=
  if decide (num_players g = 0%nat) then None
  else
    let i := ((current_player_index g + 1) mod num_players g)%nat in
    let g := set_current_player_index g i in
    Some (if decide (i = 0%nat) then set_round_number g (round_number g + 1)
          else g).

(** *** Legal actions *)

Definition _get_different_gems_actions (g : t) : list Action.t :=
  let available_colors :=
    filter (fun color => 0 < Board.gems (board g) color) basic_colors in
  if bool_decide (length available_colors <= 3)%nat then
    [Action.take_different_gems available_colors]
  else
    map Action.take_different_gems (combinations available_colors 3).

Definition _get_same_gems_actions (g : t) : list Action.t :=
  map Action.take_same_gems
      (filter (fun color => 4 <= Board.gems (board g) color) basic_colors).

Definition _get_reserve_card_actions (g : t) (player : Player.t)
    : list Action.t :=
  if bool_decide (3 <= length (Player.reserved_cards player))%nat then []
  else
    flat_map
      (fun level =>
         map (fun card =>
                Action.reserve_card (level_value level) (Card.card_id card))
             (Board.displayed_cards (board g) level))
      levels
    ++ flat_map
         (fun level =>
            match Board.card_decks (board g) level with
            | [] => []
            | _ :: _ => [Action.reserve_from_deck (level_value level)]
            end)
         levels.

Definition _get_buy_card_actions (g : t) (player : Player.t)
    : list Action.t :=
  flat_map
    (fun level =>
       flat_map
         (fun card =>
            if Player.can_afford_card player card
            then [Action.buy_card (level_value level) (Card.card_id card)]
            else [])
         (Board.displayed_cards (board g) level))
    levels.

Definition _get_buy_reserved_card_actions (player : Player.t)
    : list Action.t :=
  flat_map
    (fun card =>
       if Player.can_afford_card player card
       then [Action.buy_reserved_card (Card.card_id card)]
       else [])
    (Player.reserved_cards player).

Definition get_valid_actions (g : t) : option (list Action.t) :=
  match get_current_player g with
  | None => None
  | Some player =>
      Some (_get_different_gems_actions g
            ++ _get_same_gems_actions g
            ++ _get_reserve_card_actions g player
            ++ _get_buy_card_actions g player
            ++ _get_buy_reserved_card_actions player)
  end.

(** *** Discard down to ten

    [total_gems] is a local counter that the loop decrements once per
    iteration, so the loop body runs at most [total_gems - 10] times:
    that number is the recursion argument.  [rnd] holds the numbers
    [random.choice] draws (0 once the list is used up). *)
Fixpoint discard_loop (iterations : nat) (rnd : list nat)
    (player : Player.t) (b : Board.t) : Player.t * Board.t :=
  match iterations with
  | O => (player, b)
  | S iterations' =>
      let available_colors :=
        filter (fun color => 0 < Player.gems player color) all_colors in
      match random_choice (hd 0%nat rnd) available_colors with
      | None => (player, b)
      | Some color_to_discard =>
          let player :=
            Player.set_gems player
              (gems_set (Player.gems player) color_to_discard
                        (Player.gems player color_to_discard - 1)) in
          let b :=
            Board.set_gems b
              (gems_set (Board.gems b) color_to_discard
                        (Board.gems b color_to_discard + 1)) in
          discard_loop iterations' (tl rnd) player b
      end
  end.

Definition _check_and_discard_gems (rnd : list nat)
    (player : Player.t) (b : Board.t) : Player.t * Board.t :=
  let total_gems := Player.get_total_gems player in
  discard_loop (Z.to_nat (total_gems - 10)) rnd player b.

(** *** Nobles *)

Definition _check_nobles_visit (player : Player.t) (b : Board.t)
    : Player.t * Board.t :=
  let visiting_nobles :=
    filter (fun noble => Player.can_be_visited_by_noble player noble = true)
           (Board.nobles b) in
  match visiting_nobles with
  | [] => (player, b)
  | noble :: _ =>
      let b := snd (Board.remove_noble b (Noble.noble_id noble)) in
      (Player.set_nobles player (Player.nobles player ++ [noble]), b)
  end.

(** *** End of game *)

(** State of the first loop of [_determine_winner]; [min_cards] is
    [None] while it still holds [float('inf')]. *)
Record Scan : Type := mkScan {
  max_score : Z;
  min_cards : option nat;
  potential_winners : list Player.t
}.

Definition scan_step (s : Scan) (player : Player.t) : Scan :=
  let score := Player.get_score player in
  let n := length (Player.cards player) in
  if max_score s <? score then mkScan score (Some n) [player]
  else if score =? max_score s then
    mkScan (max_score s)
           (Some (match min_cards s with
                  | None => n
                  | Some m => Nat.min m n
                  end))
           (potential_winners s ++ [player])
  else s.

Definition final_winners (ps : list Player.t) : list Player.t :=
  let s := fold_left scan_step ps (mkScan (-1) None []) in
  filter (fun player =>
            Player.get_score player = max_score s
            /\ Some (length (Player.cards player)) = min_cards s)
         (potential_winners s).

Definition _determine_winner (g : t) : t :=
  set_winner g (Some (final_winners (players g))).

(** The [for] loop of [_check_game_end], which stops at the first
    player that triggers the last round. *)
Fixpoint trigger_scan (ps : list Player.t) (g : t) : t :=
  match ps with
  | [] => g
  | player :: ps' =>
      if (15 <=? Player.get_score player) && negb (last_round g)
      then set_last_round g true (Some (current_player_index g))
      else trigger_scan ps' g
  end.

Definition _check_game_end (g : t) : option t :=
  let g := trigger_scan (players g) g in
  if last_round g then
    if decide (num_players g = 0%nat) then None
    else
      match last_player_index g with
      | None => None
      | Some last =>
          if decide (((current_player_index g + 1) mod num_players g)%nat = last)
          then Some (_determine_winner (set_game_over g true))
          else Some g
      end
  else Some g.

(** *** Executing an action *)

(** The first loop of [_execute_take_different_gems]: [None] is its
    [return False]. *)
Fixpoint collect_gems (b : Board.t) (colors : list GemColor)
    (gems_to_take : Dict) : option Dict :=
  match colors with
  | [] => Some gems_to_take
  | color :: colors' =>
      if Board.gems b color <=? 0 then None
      else collect_gems b colors' (dict_set gems_to_take color 1)
  end.

Definition add_gems (player : Player.t) (gems_to_take : Dict) : Player.t :=
  fold_left
    (fun player '(color, count) =>
       Player.set_gems player
         (gems_set (Player.gems player) color (Player.gems player color + count)))
    gems_to_take player.

Definition _execute_take_different_gems (rnd : list nat) (g : t)
    (player : Player.t) (a : Action.t) : bool * t :=
  let colors := default [] (Action.colors a) in
  if bool_decide (colors = []) || bool_decide (3 < length colors)%nat
  then (false, g)
  else
    match collect_gems (board g) colors [] with
    | None => (false, g)
    | Some gems_to_take =>
        let '(ok, b) := Board.take_gems (board g) gems_to_take in
        if negb ok then (false, set_board g b)
        else
          let player := add_gems player gems_to_take in
          let '(player, b) := _check_and_discard_gems rnd player b in
          (true, store g player b)
    end.

Definition _execute_take_same_gems (rnd : list nat) (g : t)
    (player : Player.t) (a : Action.t) : bool * t :=
  match Action.color a with
  | None => (false, g)
  | Some color =>
      if Board.gems (board g) color <? 4 then (false, g)
      else
        let gems_to_take := [(color, 2)] in
        let '(ok, b) := Board.take_gems (board g) gems_to_take in
        if negb ok then (false, set_board g b)
        else
          let player :=
            Player.set_gems player
              (gems_set (Player.gems player) color
                        (Player.gems player color + 2)) in
          let '(player, b) := _check_and_discard_gems rnd player b in
          (true, store g player b)
  end.

(** The card taken by [_execute_reserve_card], if any, and the board
    without it.  An absent or unknown [level] makes
    [dict.get(level, [])] empty; an absent [card_id] equals no card's
    id. *)
Definition reserve_source (b : Board.t) (a : Action.t)
    : option Card.t * Board.t :=
  let level := Action.level a ≫= level_of_Z in
  let from_deck := default false (Action.from_deck a) in
  match level with
  | None => (None, b)
  | Some level =>
      if from_deck then
        match list_pop (Board.card_decks b level) with
        | Some (deck, card) =>
            (Some card,
             Board.set_card_decks b (piles_set (Board.card_decks b) level deck))
        | None => (None, b)
        end
      else
        match list_find (fun c => Some (Card.card_id c) = Action.card_id a)
                        (Board.displayed_cards b level) with
        | Some (i, card) =>
            (Some card,
             Board.set_displayed_cards b
               (piles_set (Board.displayed_cards b) level
                          (delete i (Board.displayed_cards b level))))
        | None => (None, b)
        end
  end.

Definition _execute_reserve_card (rnd : list nat) (g : t)
    (player : Player.t) (a : Action.t) : bool * t :=
  if bool_decide (3 <= length (Player.reserved_cards player))%nat
  then (false, g)
  else
    match reserve_source (board g) a with
    | (None, b) => (false, set_board g b)
    | (Some card, b) =>
        let player :=
          Player.set_reserved_cards player
            (Player.reserved_cards player ++ [card]) in
        let b := Board.replenish_displayed_cards b in
        if 0 <? Board.gems b GOLD then
          let b := Board.set_gems b
                     (gems_set (Board.gems b) GOLD (Board.gems b GOLD - 1)) in
          let player :=
            Player.set_gems player
              (gems_set (Player.gems player) GOLD
                        (Player.gems player GOLD + 1)) in
          let '(player, b) := _check_and_discard_gems rnd player b in
          (true, store g player b)
        else (true, store g player b)
    end.

(** [for color, count in actual_cost.items():
      player.gems[color] -= count
      self.board.gems[color] = self.board.gems.get(color, 0) + count] *)
Definition pay (actual_cost : Dict) (player : Player.t) (b : Board.t)
    : Player.t * Board.t :=
  fold_left
    (fun '(player, b) '(color, count) =>
       (Player.set_gems player
          (gems_set (Player.gems player) color (Player.gems player color - count)),
        Board.set_gems b
          (gems_set (Board.gems b) color (Board.gems b color + count))))
    actual_cost (player, b).

Definition _execute_buy_card (g : t) (player : Player.t) (a : Action.t)
    : option (bool * t) :=
  match Action.level a ≫= level_of_Z, Action.card_id a with
  | Some level, Some card_id =>
      match list_find (fun c => Card.card_id c = card_id)
                      (Board.displayed_cards (board g) level) with
      | None => Some (false, g)
      | Some (_, card) =>
          if negb (Player.can_afford_card player card) then Some (false, g)
          else
            let actual_cost := Player.get_actual_cost player card in
            let '(player, b) := pay actual_cost player (board g) in
            let b := snd (Board.remove_displayed_card b level card_id) in
            let player :=
              Player.set_cards player (Player.cards player ++ [card]) in
            let '(player, b) := _check_nobles_visit player b in
            match _check_game_end (store g player b) with
            | Some g' => Some (true, g')
            | None => None
            end
      end
  | _, _ => Some (false, g)
  end.

Definition _execute_buy_reserved_card (g : t) (player : Player.t)
    (a : Action.t) : option (bool * t) :=
  match Action.card_id a with
  | None => Some (false, g)
  | Some card_id =>
      match list_find (fun c => Card.card_id c = card_id)
                      (Player.reserved_cards player) with
      | None => Some (false, g)
      | Some (card_index, card) =>
          if negb (Player.can_afford_card player card) then Some (false, g)
          else
            let actual_cost := Player.get_actual_cost player card in
            let '(player, b) := pay actual_cost player (board g) in
            let player :=
              Player.set_reserved_cards player
                (delete card_index (Player.reserved_cards player)) in
            let player :=
              Player.set_cards player (Player.cards player ++ [card]) in
            let '(player, b) := _check_nobles_visit player b in
            match _check_game_end (store g player b) with
            | Some g' => Some (true, g')
            | None => None
            end
      end
  end.

Definition execute_action (rnd : list nat) (g : t) (a : Action.t)
    : option (bool * t) :=
  match get_current_player g with
  | None => None
  | Some player =>
      let g :=
        set_history g
          (history g
           ++ [mkRecord (round_number g) (Player.player_id player)
                        (Action.str a) (Action.to_dict a)]) in
      match Action.action_type a with
      | Action.TAKE_DIFFERENT_GEMS =>
          Some (_execute_take_different_gems rnd g player a)
      | Action.TAKE_SAME_GEMS =>
          Some (_execute_take_same_gems rnd g player a)
      | Action.RESERVE_CARD =>
          Some (_execute_reserve_card rnd g player a)
      | Action.BUY_CARD => _execute_buy_card g player a
      | Action.BUY_RESERVED_CARD => _execute_buy_reserved_card g player a
      end
  end.

(** [play_round]: the head of [rnd] picks the action, the rest feeds the
    discard loop. *)
Definition play_round (rnd : list nat) (g : t) : option (bool * t) :=
  if game_over g then Some (false, g)
  else
    match get_valid_actions g with
    | None => None
    | Some valid_actions =>
        match random_choice (hd 0%nat rnd) valid_actions with
        | None =>
            match next_player g with
            | Some g' => Some (true, g')
            | None => None
            end
        | Some action =>
            match execute_action (tl rnd) g action with
            | None => None
            | Some (true, g') =>
                match next_player g' with
                | Some g'' => Some (true, g'')
                | None => None
                end
            | Some (false, g') => Some (false, g')
            end
        end
    end.

End Game.

(** * Auxiliary definitions for the properties *)

(** What one cost entry adds to [gold_needed] in [can_afford_card]. *)
Definition shortfall (p : Player.t) (item : GemColor * Z) : Z :=
  let '(color, cost) := item in
  Z.max 0 (cost - (Player.gems p color + Player.get_card_discounts p color)).

(** Entries other than Gold stay within [0 .. held]; the Gold entry stays
    non-negative. *)
Definition entries_ok (p : Player.t) (d : Dict) : Prop :=
  forall c v, (c, v) ∈ d -> 0 <= v /\ (c ≠ GOLD -> v <= Player.gems p c).

(** ** Sample values *)

Definition one_gold_player : Player.t :=
  Player.mk "p1" "P1" (gems_set (fun _ => 0) GOLD 1) [] [] [].

Definition three_blue_one_gold_player : Player.t :=
  Player.mk "p1" "P1" (gems_set (gems_set (fun _ => 0) GOLD 1) BLUE 3) [] [] [].


Definition card_L1_W4 : Card.t := Card.mk 1 1 WHITE [(BLUE, 4)] "L1_W4".

(** ** Replenishment, stated on the lists

    [refill_count displayed deck] cards go from the top (the end) of the
    deck to the end of the display, top card first. *)
Definition refill_count (displayed deck : list Card.t) : nat :=
  (4 - length displayed) `min` length deck.

Definition refill_displayed (displayed deck : list Card.t) : list Card.t :=
  displayed
  ++ reverse (drop (length deck - refill_count displayed deck) deck).

Definition refill_deck (displayed deck : list Card.t) : list Card.t :=
  take (length deck - refill_count displayed deck) deck.

(** ** Winners, as the rules word them *)

(** [p] has the highest score of [ps]. *)
Definition is_top (ps : list Player.t) (p : Player.t) : Prop :=
  Forall (fun q => Player.get_score q <= Player.get_score p) ps.

(** [p] has the highest score and, among the players with that score, the
    fewest owned cards. *)
Definition is_winner (ps : list Player.t) (p : Player.t) : Prop :=
  is_top ps p
  /\ Forall (fun q => is_top ps q ->
                      (length (Player.cards p) <= length (Player.cards q))%nat) ps.

#[global] Instance is_top_dec ps p : Decision (is_top ps p).
Proof. unfold is_top. apply _. Defined.

#[global] Instance is_winner_dec ps p : Decision (is_winner ps p).
Proof. unfold is_winner. apply _. Defined.

(** A player owning [n] copies of a card worth [pts] points. *)
Definition player_with_cards (id : string) (pts : Z) (n : nat) : Player.t :=
  Player.mk id id (fun _ => 0)
            (replicate n (Card.mk 1 pts WHITE [] "X")) [] [].

(** The shuffle that leaves every list in catalogue order, and the
    two-player game it deals. *)
Definition identity_shuffler : Shuffler :=
  {| shuffle_cards := fun _ cards => cards; shuffle_nobles := fun nobles => nobles |}.

Definition sample_game : Game.t :=
  Game.init [Player.new "a" "A"; Player.new "b" "B"] identity_shuffler.

Definition card_L1_K3 : Card.t :=
  Card.mk 1 0 BLACK [(WHITE, 1); (BLUE, 2); (GREEN, 2)] "L1_K3".

(** What the first loop of [_determine_winner] has computed after a
    non-empty list of players whose scores are not negative. *)
Definition scanned (ps : list Player.t) (s : Game.Scan) : Prop :=
  Forall (fun q => Player.get_score q <= Game.max_score s) ps
  /\ (exists p, p ∈ ps /\ Player.get_score p = Game.max_score s)
  /\ Game.potential_winners s
     = filter (fun p => Player.get_score p = Game.max_score s) ps
  /\ exists m, Game.min_cards s = Some m
       /\ Forall (fun q => Player.get_score q = Game.max_score s ->
                           (m <= length (Player.cards q))%nat) ps
       /\ exists p, p ∈ ps /\ Player.get_score p = Game.max_score s
                    /\ length (Player.cards p) = m.

(** ** Where tokens and cards are *)

(** Tokens of one colour in the pool and in all hands. *)
Definition tokens_in_game (g : Game.t) (color : GemColor) : Z :=
  Board.gems (Game.board g) color
  + sum_with (fun p => Player.gems p color) (Game.players g).

(** The cards a player holds, reserved or owned. *)
Definition hand (p : Player.t) : list Card.t :=
  Player.reserved_cards p ++ Player.cards p.

(** The cards of one level still on the board. *)
Definition zone (b : Board.t) (level : Level) : list Card.t :=
  Board.card_decks b level ++ Board.displayed_cards b level.

Definition table (b : Board.t) : list Card.t :=
  zone b L1 ++ zone b L2 ++ zone b L3.

Definition cards_in_game (g : Game.t) : list Card.t :=
  concat (map hand (Game.players g)) ++ table (Game.board g).

(** Decks and displays hold cards of their own level only. *)
Definition levels_ok (b : Board.t) : Prop :=
  forall level,
    Forall (fun card => Card.level card = level_value level) (zone b level).

(** A hand of tokens as it is between turns. *)
Definition hand_ok (p : Player.t) : Prop :=
  (forall color, 0 <= Player.gems p color) /\ Player.get_total_gems p <= 10.

(** The places a card can be. *)
Inductive Location : Set :=
| InDeck (level : Level)
| OnDisplay (level : Level)
| ReservedBy (seat : nat)
| OwnedBy (seat : nat).

Definition cards_at (g : Game.t) (loc : Location) : list Card.t :=
  match loc with
  | InDeck level => Board.card_decks (Game.board g) level
  | OnDisplay level => Board.displayed_cards (Game.board g) level
  | ReservedBy seat =>
      from_option Player.reserved_cards [] (Game.players g !! seat)
  | OwnedBy seat => from_option Player.cards [] (Game.players g !! seat)
  end.

Definition locations (g : Game.t) : list Location :=
  map InDeck levels ++ map OnDisplay levels
  ++ map ReservedBy (seq 0 (Game.num_players g))
  ++ map OwnedBy (seq 0 (Game.num_players g)).

(** Every place where [card] is, once per copy found there. *)
Definition where_is (g : Game.t) (card : Card.t) : list Location :=
  flat_map
    (fun loc => map (fun _ => loc) (filter (fun c => c = card) (cards_at g loc)))
    (locations g).

(** ** Reachable states *)

(** A shuffle rearranges its list. *)
Definition valid_shuffler (rng : Shuffler) : Prop :=
  (forall level cards, shuffle_cards rng level cards ≡ₚ cards)
  /\ (forall nobles, shuffle_nobles rng nobles ≡ₚ nobles).

(** The engine changes state through [execute_action] and through
    [next_player], which its drivers call between actions. *)
Inductive step : Game.t -> Game.t -> Prop :=
| step_execute_action rnd g a ok g' :
    Game.execute_action rnd g a = Some (ok, g') -> step g g'
| step_next_player g g' :
    Game.next_player g = Some g' -> step g g'.

(** A fresh game seats players built by [Player(player_id, name)]. *)
Inductive reachable : Game.t -> Prop :=
| reachable_init (seats : list (string * string)) rng :
    valid_shuffler rng ->
    reachable (Game.init (map (fun s => Player.new s.1 s.2) seats) rng)
| reachable_step g g' : reachable g -> step g g' -> reachable g'.

(** What one turn may do to the acting player and the board: tokens and
    cards only move between the two. *)
Definition moves (p : Player.t) (b : Board.t) (p' : Player.t) (b' : Board.t)
    : Prop :=
  (forall color,
      Player.gems p' color + Board.gems b' color
      = Player.gems p color + Board.gems b color)
  /\ hand p' ++ table b' ≡ₚ hand p ++ table b
  /\ (levels_ok b -> levels_ok b').

(** What a turn keeps true of the acting player and the board: at most
    three reserved cards, a pool without negative counts, nobles worth
    points that are not negative. *)
Definition keeps (p : Player.t) (b : Board.t) (p' : Player.t) (b' : Board.t)
    : Prop :=
  ((length (Player.reserved_cards p) <= 3)%nat ->
   (length (Player.reserved_cards p') <= 3)%nat)
  /\ (hand_ok p -> Forall Card.cost_wf (hand p ++ table b) ->
      (forall color, 0 <= Board.gems b color) ->
      forall color, 0 <= Board.gems b' color)
  /\ (Forall (fun noble => 0 <= Noble.points noble)
             (Board.nobles b ++ Player.nobles p) ->
      Forall (fun noble => 0 <= Noble.points noble)
             (Board.nobles b' ++ Player.nobles p')).

(** The state after a call of [execute_action] by player [p], history
    aside. *)
Definition turn_result (g : Game.t) (p : Player.t) (ok : bool) (g' : Game.t)
    : Prop :=
  exists p' b',
    Game.players g' = <[Game.current_player_index g := p']> (Game.players g)
    /\ Game.board g' = b'
    /\ Game.current_player_index g' = Game.current_player_index g
    /\ Game.round_number g' = Game.round_number g
    /\ Game.history g' = Game.history g
    /\ moves p (Game.board g) p' b'
    /\ (Forall Card.cost_wf (hand p ++ table (Game.board g)) ->
        hand_ok p -> hand_ok p')
    /\ (ok = false -> p' = p /\ b' = Game.board g)
    /\ keeps p (Game.board g) p' b'.

(** The engine can run: the current seat is taken, and
    [last_player_index] exists once [last_round] is set. *)
Definition engine_ready (g : Game.t) : Prop :=
  is_Some (Game.get_current_player g)
  /\ (Game.last_round g = true -> is_Some (Game.last_player_index g)).

Record invariant (g : Game.t) : Prop := {
  inv_tokens :
    forall color,
      tokens_in_game g color = Board._initialize_gems (Game.num_players g) color;
  inv_cards : cards_in_game g ≡ₚ Card.create_standard_cards;
  inv_levels : levels_ok (Game.board g);
  inv_hands : Forall hand_ok (Game.players g);
  inv_seat :
    Game.players g ≠ [] ->
    (Game.current_player_index g < Game.num_players g)%nat;
  inv_last_round :
    Game.last_round g = true -> is_Some (Game.last_player_index g);
  inv_reserved :
    Forall (fun p => (length (Player.reserved_cards p) <= 3)%nat) (Game.players g);
  inv_pool : forall color, 0 <= Board.gems (Game.board g) color;
  inv_nobles :
    Forall (fun noble => 0 <= Noble.points noble) (Board.nobles (Game.board g))
    /\ Forall (fun p => Forall (fun noble => 0 <= Noble.points noble)
                               (Player.nobles p))
              (Game.players g)
}.

(** The amount a dict moves for one colour. *)
Definition dict_sum (d : Dict) (color : GemColor) : Z :=
  sum_with (fun item : GemColor * Z => if decide (item.1 = color) then item.2 else 0) d.

(** The copies of [card] in a list. *)
Definition copies (card : Card.t) (l : list Card.t) : nat :=
  length (filter (fun c => c = card) l).

(** The first seat of [sample_game]. *)
Definition sample_player : Player.t := Player.new "a" "A".

(** A player holding two tokens of every colour: twelve in all. *)
Definition twelve_token_player : Player.t :=
  Player.set_gems sample_player (fun _ => 2).

(** [n] calls of [next_player] in a row. *)
Fixpoint next_player_times (n : nat) (g : Game.t) : option Game.t :=
  match n with
  | O => Some g
  | S n' => Game.next_player g ≫= next_player_times n'
  end.

(** A player owning four blue and four green cards, which is what the
    noble [N3] asks for. *)
Definition noble_ready_player : Player.t :=
  Player.set_cards sample_player
    (replicate 4 (Card.mk 1 0 BLUE [] "b") ++ replicate 4 (Card.mk 1 0 GREEN [] "g")).

(** A card that costs one blue token. *)
Definition one_blue_card : Card.t := Card.mk 1 0 WHITE [(BLUE, 1)] "c".

(** [sample_game] with its first seat owning three cards worth five points
    each. *)
Definition fifteen_point_game : Game.t :=
  Game.set_players sample_game [player_with_cards "a" 5 3; Player.new "b" "B"].

(** The card a reserve action asks for: the top (last) card of the deck of
    its level when [from_deck] is set, else the first displayed card of
    that level that has its [card_id]. *)
Definition reserve_target (b : Board.t) (a : Action.t) : option Card.t :=
  match Action.level a ≫= level_of_Z with
  | None => None
  | Some level =>
      if default false (Action.from_deck a) then last (Board.card_decks b level)
      else
        snd <$> list_find (fun c => Some (Card.card_id c) = Action.card_id a)
                          (Board.displayed_cards b level)
  end.

(* END-DEFS *)

(** * Properties *)

(** ** Token tables and small dicts *)

Lemma gems_set_eq (g : Gems) c v : gems_set g c v c = v.
Proof. unfold gems_set. by rewrite decide_True. Qed.

Lemma gems_set_ne (g : Gems) c c' v : c' ≠ c -> gems_set g c v c' = g c'.
Proof. intros. unfold gems_set. by rewrite decide_False. Qed.

Lemma gems_total_unfold (g : Gems) :
  gems_total g = g WHITE + g BLUE + g GREEN + g RED + g BLACK + g GOLD.
Proof. unfold gems_total; simpl; lia. Qed.

Lemma gems_total_set (g : Gems) c v :
  gems_total (gems_set g c v) = gems_total g - g c + v.
Proof.
  rewrite !gems_total_unfold. unfold gems_set.
  destruct c; repeat case_decide; try congruence; lia.
Qed.

Lemma dict_get_set_eq d k v def : dict_get (dict_set d k v) k def = v.
Proof.
  induction d as [|[k' v'] d IH]; simpl.
  - by rewrite decide_True.
  - destruct (decide (k = k')) as [->|Hne]; simpl.
    + by rewrite decide_True.
    + by rewrite decide_False.
Qed.

Lemma dict_get_set_ne d k k' v def :
  k' ≠ k -> dict_get (dict_set d k v) k' def = dict_get d k' def.
Proof.
  intros Hne. induction d as [|[k0 v0] d IH]; simpl.
  - by rewrite decide_False.
  - destruct (decide (k = k0)) as [->|Hk]; simpl.
    + by rewrite !decide_False.
    + destruct (decide (k' = k0)); [done|apply IH].
Qed.

Lemma dict_set_elem d k v k' v' :
  (k', v') ∈ dict_set d k v -> (k', v') = (k, v) \/ (k', v') ∈ d.
Proof.
  induction d as [|[k0 v0] d IH]; simpl.
  - intros ->%list_elem_of_singleton. by left.
  - destruct (decide (k = k0)) as [->|Hk].
    + intros [->|H]%elem_of_cons; [by left|right; by constructor].
    + intros [->|H]%elem_of_cons; [right; by constructor|].
      destruct (IH H) as [->|?]; [by left|right; by constructor].
Qed.

Lemma dict_set_keys_elem d k v k' :
  k' ∈ dict_keys (dict_set d k v) <-> k' = k \/ k' ∈ dict_keys d.
Proof.
  unfold dict_keys. induction d as [|[k0 v0] d IH]; simpl.
  - rewrite list_elem_of_singleton. split; [by left|].
    intros [?|H]; [done|]. by apply elem_of_nil in H.
  - destruct (decide (k = k0)) as [->|Hk]; simpl; rewrite !elem_of_cons.
    + tauto.
    + rewrite IH. tauto.
Qed.

Lemma dict_set_NoDup d k v :
  NoDup (dict_keys d) -> NoDup (dict_keys (dict_set d k v)).
Proof.
  unfold dict_keys. induction d as [|[k0 v0] d IH]; simpl; intros Hnd.
  - apply NoDup_singleton.
  - apply NoDup_cons in Hnd as [Hk0 Hnd].
    destruct (decide (k = k0)) as [->|Hk]; simpl.
    + by apply NoDup_cons.
    + apply NoDup_cons. split; [|by apply IH].
      intros [?|?]%dict_set_keys_elem; [congruence|done].
Qed.

Lemma dict_get_elem d k v def :
  NoDup (dict_keys d) -> (k, v) ∈ d -> dict_get d k def = v.
Proof.
  unfold dict_keys. induction d as [|[k0 v0] d IH]; simpl; intros Hnd Hin.
  - by apply elem_of_nil in Hin.
  - apply NoDup_cons in Hnd as [Hk0 Hnd].
    apply elem_of_cons in Hin as [Heq|Hin].
    + inversion Heq; subst. by rewrite decide_True.
    + rewrite decide_False; [by apply IH|].
      intros ->. apply Hk0. apply list_elem_of_fmap. by exists (k0, v).
Qed.

(** ** Affordability and payment ([Player.can_afford_card],
    [Player.get_actual_cost]) *)

Section Payment.
Import Player.

Lemma sum_with_cons {A} (f : A -> Z) x l :
  sum_with f (x :: l) = f x + sum_with f l.
Proof. reflexivity. Qed.

Lemma sum_with_nonneg {A} (f : A -> Z) l :
  (forall x, 0 <= f x) -> 0 <= sum_with f l.
Proof. intros Hf. induction l; simpl; [lia|]. specialize (Hf a). lia. Qed.

Lemma sum_with_elem {A} (f : A -> Z) l x :
  (forall y, 0 <= f y) -> x ∈ l -> f x <= sum_with f l.
Proof.
  intros Hf. induction l as [|y l IH]; intros Hin.
  - by apply elem_of_nil in Hin.
  - simpl. pose proof (sum_with_nonneg f l Hf). pose proof (Hf y).
    apply elem_of_cons in Hin as [->|Hin]; [lia|]. specialize (IH Hin). lia.
Qed.

Lemma shortfall_nonneg p item : 0 <= shortfall p item.
Proof. destruct item. unfold shortfall. lia. Qed.

Lemma afford_fold p items acc :
  fold_left (afford_step p (get_card_discounts p)) items acc
  = acc + sum_with (shortfall p) items.
Proof.
  revert acc. induction items as [|[color cost] items IH]; intros acc; simpl.
  - lia.
  - rewrite IH. destruct (Z.ltb_spec (gems p color + get_card_discounts p color) cost); lia.
Qed.

Lemma can_afford_card_spec p card :
  can_afford_card p card = true
  <-> sum_with (shortfall p) (Card.cost card) <= gems p GOLD.
Proof.
  unfold can_afford_card. rewrite afford_fold, Z.leb_le. lia.
Qed.

Lemma gold_applied_nonneg p item : 0 <= gold_applied p item.
Proof.
  destruct item as [color cost]. unfold gold_applied.
  destruct (Z.ltb_spec 0 (Z.max 0 (cost - get_card_discounts p color))); [|lia].
  destruct (_ && _) eqn:Hcond; [|lia].
  apply andb_true_iff in Hcond as [?%Z.ltb_lt ?%Z.ltb_lt]. lia.
Qed.

Lemma gold_applied_le_shortfall p item :
  0 <= gems p item.1 -> gold_applied p item <= shortfall p item.
Proof.
  destruct item as [color cost]. simpl. intros Hg. unfold gold_applied, shortfall.
  destruct (Z.ltb_spec 0 (Z.max 0 (cost - get_card_discounts p color))); [|lia].
  destruct (_ && _) eqn:Hcond; [|lia].
  apply andb_true_iff in Hcond as [?%Z.ltb_lt ?%Z.ltb_lt]. lia.
Qed.

Lemma gold_applied_shortfall p item :
  0 <= gems p item.1 -> shortfall p item <= gems p GOLD ->
  gold_applied p item = shortfall p item.
Proof.
  destruct item as [color cost]. simpl. intros Hg Hs.
  unfold gold_applied, shortfall in *.
  destruct (Z.ltb_spec 0 (Z.max 0 (cost - get_card_discounts p color))); [|lia].
  destruct (Z.ltb_spec 0
    (Z.max 0 (cost - get_card_discounts p color)
     - Z.min (Z.max 0 (cost - get_card_discounts p color)) (gems p color)));
    destruct (Z.ltb_spec 0 (gems p GOLD)); simpl; lia.
Qed.

(** One iteration of [get_actual_cost], entry by entry. *)
Lemma cost_step_gold p acc color cost :
  color ≠ GOLD ->
  dict_get (cost_step p (get_card_discounts p) acc (color, cost)) GOLD 0
  = dict_get acc GOLD 0 + gold_applied p (color, cost).
Proof.
  intros Hc. unfold cost_step, gold_applied.
  destruct (Z.ltb_spec 0 (Z.max 0 (cost - get_card_discounts p color))); [|lia].
  rewrite dict_get_set_eq.
  destruct (_ && _) eqn:Hcond.
  - apply andb_true_iff in Hcond as [?%Z.ltb_lt ?%Z.ltb_lt].
    destruct (Z.ltb_spec 0
      (Z.min (Z.max 0 (cost - get_card_discounts p color)
              - Z.min (Z.max 0 (cost - get_card_discounts p color)) (gems p color))
             (gems p GOLD))); [|lia].
    rewrite dict_get_set_eq, dict_get_set_ne by done. lia.
  - rewrite dict_get_set_ne by done. lia.
Qed.

Lemma cost_step_other p acc color cost c :
  c ≠ color -> c ≠ GOLD ->
  dict_get (cost_step p (get_card_discounts p) acc (color, cost)) c 0
  = dict_get acc c 0.
Proof.
  intros Hc Hg. unfold cost_step.
  repeat case_match; rewrite ?dict_get_set_ne by done; done.
Qed.

Lemma cost_step_own p acc color cost :
  color ≠ GOLD -> 0 < cost - get_card_discounts p color ->
  dict_get (cost_step p (get_card_discounts p) acc (color, cost)) color 0
  = Z.min (cost - get_card_discounts p color) (gems p color).
Proof.
  intros Hc Hpos. unfold cost_step.
  replace (Z.max 0 (cost - get_card_discounts p color))
    with (cost - get_card_discounts p color) by lia.
  destruct (Z.ltb_spec 0 (cost - get_card_discounts p color)); [|lia].
  repeat case_match; rewrite ?dict_get_set_ne by done;
    by rewrite dict_get_set_eq.
Qed.

Lemma cost_step_NoDup p acc item :
  NoDup (dict_keys acc) ->
  NoDup (dict_keys (cost_step p (get_card_discounts p) acc item)).
Proof.
  destruct item as [color cost]. intros Hnd. unfold cost_step.
  repeat case_match; auto using dict_set_NoDup.
Qed.

Lemma cost_step_entries p acc item :
  (forall c, 0 <= gems p c) -> item.1 ≠ GOLD ->
  entries_ok p acc ->
  entries_ok p (cost_step p (get_card_discounts p) acc item).
Proof.
  destruct item as [color cost]. simpl. intros Hg Hc Hacc. unfold cost_step.
  destruct (Z.ltb_spec 0 (Z.max 0 (cost - get_card_discounts p color))); [|done].
  rewrite dict_get_set_eq.
  assert (entries_ok p (dict_set acc color
            (Z.min (Z.max 0 (cost - get_card_discounts p color)) (gems p color))))
    as Hacc1.
  { intros c v [Heq|Hin]%dict_set_elem; [|by apply Hacc].
    inversion Heq; subst. specialize (Hg color). lia. }
  destruct (_ && _) eqn:Hcond; [|done].
  apply andb_true_iff in Hcond as [?%Z.ltb_lt ?%Z.ltb_lt].
  case_match; [|done].
  intros c v [Heq|Hin]%dict_set_elem; [|by apply Hacc1].
  inversion Heq; subst. split; [|done].
  assert (0 <= dict_get (dict_set acc color
            (Z.min (Z.max 0 (cost - get_card_discounts p color)) (gems p color)))
            GOLD 0); [|lia].
  rewrite dict_get_set_ne by done.
  clear -Hacc. induction acc as [|[k w] acc IH]; simpl; [lia|].
  case_decide; subst.
  - apply (Hacc GOLD w). by left.
  - apply IH. intros c v Hin. apply Hacc. by right.
Qed.

Lemma cost_fold_entries p items acc :
  (forall c, 0 <= gems p c) -> GOLD ∉ dict_keys items ->
  entries_ok p acc ->
  entries_ok p (fold_left (cost_step p (get_card_discounts p)) items acc).
Proof.
  intros Hg. revert acc.
  induction items as [|item items IH]; intros acc Hgold Hacc; cbn [fold_left]; [done|].
  unfold dict_keys in Hgold. simpl in Hgold. apply not_elem_of_cons in Hgold as [? ?].
  apply IH; [done|]. by apply cost_step_entries.
Qed.

Lemma cost_fold_NoDup p items acc :
  NoDup (dict_keys acc) ->
  NoDup (dict_keys (fold_left (cost_step p (get_card_discounts p)) items acc)).
Proof.
  revert acc. induction items as [|item items IH]; intros acc Hnd; cbn [fold_left]; [done|].
  apply IH. by apply cost_step_NoDup.
Qed.

Lemma cost_fold_gold p items acc :
  GOLD ∉ dict_keys items ->
  dict_get (fold_left (cost_step p (get_card_discounts p)) items acc) GOLD 0
  = dict_get acc GOLD 0 + sum_with (gold_applied p) items.
Proof.
  revert acc. induction items as [|[color cost] items IH]; intros acc Hgold.
  - simpl. lia.
  - unfold dict_keys in Hgold. simpl in Hgold.
    apply not_elem_of_cons in Hgold as [? ?].
    cbn [fold_left]. rewrite sum_with_cons.
    rewrite IH by done. rewrite cost_step_gold by done. lia.
Qed.

Lemma cost_fold_other p items acc c :
  c ∉ dict_keys items -> c ≠ GOLD ->
  dict_get (fold_left (cost_step p (get_card_discounts p)) items acc) c 0
  = dict_get acc c 0.
Proof.
  revert acc. induction items as [|[color cost] items IH]; intros acc Hc Hg.
  - done.
  - unfold dict_keys in Hc. simpl in Hc. apply not_elem_of_cons in Hc as [? ?].
    cbn [fold_left]. rewrite IH by done. by apply cost_step_other.
Qed.

Lemma cost_fold_own p items acc color cost :
  NoDup (dict_keys items) -> GOLD ∉ dict_keys items ->
  (color, cost) ∈ items -> 0 < cost - get_card_discounts p color ->
  dict_get (fold_left (cost_step p (get_card_discounts p)) items acc) color 0
  = Z.min (cost - get_card_discounts p color) (gems p color).
Proof.
  revert acc. induction items as [|[k w] items IH]; intros acc Hnd Hgold Hin Hpos.
  - by apply elem_of_nil in Hin.
  - unfold dict_keys in Hnd, Hgold. simpl in Hnd, Hgold.
    apply NoDup_cons in Hnd as [Hk Hnd].
    apply not_elem_of_cons in Hgold as [HkG Hgold].
    cbn [fold_left].
    apply elem_of_cons in Hin as [Heq|Hin].
    + inversion Heq; subst.
      rewrite cost_fold_other by done. by apply cost_step_own.
    + by apply IH.
Qed.

End Payment.

Section ActualCost.
Import Player.

Lemma sum_with_le {A} (f h : A -> Z) l :
  (forall x, x ∈ l -> f x <= h x) -> sum_with f l <= sum_with h l.
Proof.
  induction l as [|x l IH]; intros Hle; simpl; [lia|].
  assert (f x <= h x) by (apply Hle; by left).
  assert (sum_with f l <= sum_with h l); [|unfold sum_with in *; lia].
  apply IH. intros y Hy. apply Hle. by right.
Qed.





End ActualCost.

(** ** Python list primitives *)

Lemma list_pop_None {A} (l : list A) : list_pop l = None <-> l = [].
Proof.
  destruct l as [|x l]; simpl; [done|].
  split; [|done]. destruct (list_pop l) as [[? ?]|]; done.
Qed.

Lemma list_pop_snoc {A} (l : list A) x : list_pop (l ++ [x]) = Some (l, x).
Proof.
  induction l as [|y l IH]; simpl; [done|]. by rewrite IH.
Qed.

Lemma list_pop_Some {A} (l l' : list A) x :
  list_pop l = Some (l', x) <-> l = l' ++ [x].
Proof.
  split; [|intros ->; apply list_pop_snoc].
  destruct l as [|y l0 _] using rev_ind; [done|].
  rewrite list_pop_snoc. by intros [= -> ->].
Qed.

Lemma random_choice_None {A} r (l : list A) : random_choice r l = None <-> l = [].
Proof.
  unfold random_choice. destruct l as [|x l]; [done|].
  split; [|done]. intros Hnone%lookup_ge_None.
  pose proof (Nat.mod_upper_bound r (length (x :: l))). simpl in *. lia.
Qed.

Lemma random_choice_elem {A} r (l : list A) x :
  random_choice r l = Some x -> x ∈ l.
Proof. unfold random_choice. apply list_elem_of_lookup_2. Qed.

Lemma piles_set_eq (d : Piles) l v : piles_set d l v l = v.
Proof. unfold piles_set. by rewrite decide_True. Qed.

Lemma piles_set_ne (d : Piles) l l' v : l' ≠ l -> piles_set d l v l' = d l'.
Proof. intros. unfold piles_set. by rewrite decide_False. Qed.

(** ** Replenishing the display ([Board.replenish_displayed_cards]) *)

Section Replenish.
Import Board.

Lemma refill_full displayed deck :
  (4 <= length displayed)%nat ->
  refill_displayed displayed deck = displayed /\ refill_deck displayed deck = deck.
Proof.
  intros Hlen. unfold refill_displayed, refill_deck, refill_count.
  replace (4 - length displayed)%nat with 0%nat by lia. simpl.
  rewrite Nat.sub_0_r, drop_all, take_ge by lia. simpl. by rewrite app_nil_r.
Qed.

Lemma refill_empty displayed :
  refill_displayed displayed [] = displayed /\ refill_deck displayed [] = [].
Proof.
  unfold refill_displayed, refill_deck, refill_count.
  cbn [length]. rewrite Nat.min_0_r. simpl. by rewrite app_nil_r.
Qed.

Lemma refill_step displayed deck card :
  (length displayed < 4)%nat ->
  refill_displayed displayed (deck ++ [card])
  = refill_displayed (displayed ++ [card]) deck
  /\ refill_deck displayed (deck ++ [card]) = refill_deck (displayed ++ [card]) deck.
Proof.
  intros Hlen. unfold refill_displayed, refill_deck, refill_count.
  rewrite !length_app. simpl.
  set (k := ((4 - (length displayed + 1)) `min` length deck)%nat).
  replace ((4 - length displayed) `min` (length deck + 1))%nat with (S k) by lia.
  replace (length deck + 1 - S k)%nat with (length deck - k)%nat by lia.
  split.
  - rewrite drop_app_le by lia. rewrite reverse_app. simpl.
    by rewrite <- app_assoc.
  - rewrite take_app_le by lia. done.
Qed.

(** [fill_level] with at least [4 - len(displayed)] iterations available
    carries out the refill of its level and touches nothing else. *)
Lemma fill_level_spec fuel b level :
  (4 - length (displayed_cards b level) <= fuel)%nat ->
  displayed_cards (fill_level fuel b level) level
  = refill_displayed (displayed_cards b level) (card_decks b level)
  /\ card_decks (fill_level fuel b level) level
     = refill_deck (displayed_cards b level) (card_decks b level)
  /\ (forall l, l ≠ level ->
        displayed_cards (fill_level fuel b level) l = displayed_cards b l
        /\ card_decks (fill_level fuel b level) l = card_decks b l)
  /\ gems (fill_level fuel b level) = gems b
  /\ nobles (fill_level fuel b level) = nobles b.
Proof.
  revert b. induction fuel as [|fuel IH]; intros b Hfuel.
  - change (fill_level 0 b level) with b.
    destruct (refill_full (displayed_cards b level) (card_decks b level))
      as [-> ->]; [lia|done].
  - change (fill_level (S fuel) b level) with
      (if bool_decide (length (displayed_cards b level) < 4)%nat
          && negb (bool_decide (card_decks b level = []))
       then
         match draw_card b level with
         | (Some card, b') =>
             fill_level fuel
               (set_displayed_cards b'
                  (piles_set (displayed_cards b') level
                             (displayed_cards b' level ++ [card])))
               level
         | (None, b') => b'
         end
       else b). case_bool_decide as Hlen; simpl.
    + case_bool_decide as Hdeck; simpl.
      * rewrite Hdeck. by destruct (refill_empty (displayed_cards b level)) as [-> ->].
      * unfold draw_card.
        destruct (list_pop (card_decks b level)) as [[deck card]|] eqn:Hpop.
        -- apply list_pop_Some in Hpop.
           match goal with |- context [fill_level fuel ?b1 level] =>
             specialize (IH b1) end.
           simpl in IH. rewrite !piles_set_eq in IH.
           destruct IH as (IH1 & IH2 & IH3 & IH4 & IH5).
           { rewrite length_app. simpl. lia. }
           simpl. rewrite IH1, IH2, IH4, IH5, Hpop.
           destruct (refill_step (displayed_cards b level) deck card Hlen) as [-> ->].
           repeat split; try done.
           ++ rewrite (proj1 (IH3 l H)). by rewrite piles_set_ne.
           ++ rewrite (proj2 (IH3 l H)). by rewrite piles_set_ne.
        -- by apply list_pop_None in Hpop.
    + destruct (refill_full (displayed_cards b level) (card_decks b level))
        as [-> ->]; [lia|done].
Qed.

(** The loop meets its exit condition: four iterations were enough. *)
Lemma fill_level_exit b level :
  (4 <= length (displayed_cards (fill_level 4 b level) level))%nat
  \/ card_decks (fill_level 4 b level) level = [].
Proof.
  destruct (fill_level_spec 4 b level) as (-> & -> & _); [lia|].
  unfold refill_displayed, refill_deck, refill_count.
  rewrite length_app, length_reverse, length_drop.
  destruct (decide (4 - length (displayed_cards b level)
                    <= length (card_decks b level))%nat).
  - left. lia.
  - right. apply nil_length_inv. rewrite length_take. lia.
Qed.

Lemma replenish_displayed_cards_spec b :
  (forall level,
      displayed_cards (replenish_displayed_cards b) level
      = refill_displayed (displayed_cards b level) (card_decks b level)
      /\ card_decks (replenish_displayed_cards b) level
         = refill_deck (displayed_cards b level) (card_decks b level))
  /\ gems (replenish_displayed_cards b) = gems b
  /\ nobles (replenish_displayed_cards b) = nobles b.
Proof.
  unfold replenish_displayed_cards, levels. cbn [fold_left].
  pose proof (fill_level_spec 4 b L1) as (A1 & A2 & A3 & A4 & A5); [lia|].
  pose proof (fill_level_spec 4 (fill_level 4 b L1) L2) as (B1 & B2 & B3 & B4 & B5); [lia|].
  pose proof (fill_level_spec 4 (fill_level 4 (fill_level 4 b L1) L2) L3)
    as (C1 & C2 & C3 & C4 & C5); [lia|].
  split; [|split; congruence].
  intros [].
  - destruct (C3 L1) as [-> ->]; [done|]. destruct (B3 L1) as [-> ->]; [done|].
    by rewrite A1, A2.
  - destruct (C3 L2) as [-> ->]; [done|]. rewrite B1, B2.
    destruct (A3 L2) as [-> ->]; done.
  - rewrite C1, C2. destruct (B3 L3) as [-> ->]; [done|].
    destruct (A3 L3) as [-> ->]; done.
Qed.

Lemma refill_perm displayed deck :
  refill_displayed displayed deck ++ refill_deck displayed deck
  ≡ₚ displayed ++ deck.
Proof.
  unfold refill_displayed, refill_deck.
  rewrite <- app_assoc. apply Permutation_app_head.
  rewrite reverse_Permutation, Permutation_app_comm.
  by rewrite take_drop.
Qed.

End Replenish.

(** ** Removing a displayed card ([Board.remove_displayed_card]) *)

(** C10.  If no card displayed at [level] has the id, the call returns
    [None] and the very same board (no replenishment).  If the first card
    with that id sits at index [i], the call returns that card; the display
    of the level is what is left after deleting index [i], refilled from the
    top of that level's deck; the deck has lost exactly the cards drawn; the
    board it returns is [replenish_displayed_cards] of the board without the
    card; tokens and nobles are untouched. *)
Theorem remove_displayed_card_spec (b : Board.t) (level : Level) (card_id : string) :
  ((forall card, card ∈ Board.displayed_cards b level ->
                 Card.card_id card ≠ card_id) ->
   Board.remove_displayed_card b level card_id = (None, b))
  /\ (forall i card,
        Board.displayed_cards b level !! i = Some card ->
        Card.card_id card = card_id ->
        (forall j c, Board.displayed_cards b level !! j = Some c ->
                     Card.card_id c = card_id -> (i <= j)%nat) ->
        let rest := delete i (Board.displayed_cards b level) in
        let deck := Board.card_decks b level in
        exists b',
          Board.remove_displayed_card b level card_id = (Some card, b')
          /\ b' = Board.replenish_displayed_cards
                    (Board.set_displayed_cards b
                       (piles_set (Board.displayed_cards b) level rest))
          /\ Board.displayed_cards b' level = refill_displayed rest deck
          /\ Board.card_decks b' level = refill_deck rest deck
          /\ Board.gems b' = Board.gems b
          /\ Board.nobles b' = Board.nobles b).
Proof.
  split.
  - intros Habsent. unfold Board.remove_displayed_card.
    destruct (list_find _ _) as [[i card]|] eqn:Hfind; [|done].
    apply list_find_Some in Hfind as (Hi & Hid & _).
    exfalso. eapply Habsent; [|exact Hid]. by eapply list_elem_of_lookup_2.
  - intros i card Hi Hid Hfirst rest deck. unfold Board.remove_displayed_card.
    assert (list_find (fun c => Card.card_id c = card_id)
                      (Board.displayed_cards b level) = Some (i, card)) as ->.
    { apply list_find_Some. split; [done|]. split; [done|].
      intros j c Hj Hlt Hc. specialize (Hfirst j c Hj Hc). lia. }
    eexists. split; [reflexivity|]. split; [reflexivity|].
    match goal with |- context [Board.replenish_displayed_cards ?b1] =>
      destruct (replenish_displayed_cards_spec b1) as (Hl & Hg & Hn);
      destruct (Hl level) as [Hd Hk] end.
    cbn [Board.displayed_cards Board.card_decks Board.gems Board.nobles
       Board.set_displayed_cards] in Hd, Hk, Hg, Hn.
  rewrite piles_set_eq in Hd, Hk.
    by rewrite Hd, Hk, Hg, Hn.
Qed.

Lemma remove_displayed_card_spec_witness :
  Board.remove_displayed_card (Game.board sample_game) L1 "L9_X9"
  = (None, Game.board sample_game)
  /\ exists b',
       Board.remove_displayed_card (Game.board sample_game) L1 "L1_K3"
       = (Some card_L1_K3, b')
       /\ map Card.card_id (Board.displayed_cards b' L1)
          = ["L1_K4"; "L1_K2"; "L1_K1"; "L1_R4"]
       /\ length (Board.card_decks b' L1) = 15%nat.
Proof.
  destruct (remove_displayed_card_spec (Game.board sample_game) L1 "L9_X9")
    as [Habsent _].
  destruct (remove_displayed_card_spec (Game.board sample_game) L1 "L1_K3")
    as [_ Hfound].
  split.
  - apply Habsent. intros card Hin.
    vm_compute in Hin.
    repeat (apply elem_of_cons in Hin as [->|Hin]; [by vm_compute|]).
    by apply elem_of_nil in Hin.
  - destruct (Hfound 1%nat card_L1_K3) as (b' & Hcall & _ & Hd & Hk & _).
    + reflexivity.
    + reflexivity.
    + intros [|j] c Hj Hc; [|lia].
      vm_compute in Hj. injection Hj as <-. by vm_compute in Hc.
    + exists b'. split; [exact Hcall|]. rewrite Hd, Hk. split; reflexivity.
Defined.

(** ** Winner determination ([Game._determine_winner]) *)

Section Winner.
Import Game.

Local Abbreviation score := Player.get_score.
Local Abbreviation ncards := (fun p : Player.t => length (Player.cards p)).

Lemma filter_ext_elem {A} (P Q : A -> Prop)
    `{forall x, Decision (P x)} `{forall x, Decision (Q x)} (l : list A) :
  (forall x, x ∈ l -> P x <-> Q x) -> filter P l = filter Q l.
Proof.
  induction l as [|x l IH]; intros Hext; [done|].
  rewrite !filter_cons.
  rewrite IH by (intros y Hy; apply Hext; by right).
  destruct (decide (P x)) as [HP|HP], (decide (Q x)) as [HQ|HQ]; try done.
  - exfalso. apply HQ, (Hext x); [by left|done].
  - exfalso. apply HP, (Hext x); [by left|done].
Qed.

Lemma filter_none {A} (P : A -> Prop) `{forall x, Decision (P x)} (l : list A) :
  Forall (fun x => ~ P x) l -> filter P l = [].
Proof.
  induction 1 as [|x l Hx _ IH]; [done|].
  by rewrite filter_cons, decide_False.
Qed.

Lemma scan_step_first p :
  0 <= score p -> scanned [p] (scan_step (mkScan (-1) None []) p).
Proof.
  intros Hp. unfold scan_step. simpl.
  destruct (Z.ltb_spec (-1) (score p)); [|lia]. unfold scanned. simpl.
  split; [by apply Forall_singleton|].
  split; [exists p; split; [by left|done]|].
  split; [by rewrite filter_cons, decide_True, filter_nil|].
  exists (ncards p). split; [done|]. split; [by apply Forall_singleton|].
  exists p. split; [by left|done].
Qed.

Lemma scan_step_next ps s p :
  scanned ps s -> scanned (ps ++ [p]) (scan_step s p).
Proof.
  intros (Hmax & (p0 & Hp0 & Hs0) & Hpot & m & Hmin & Hm & p1 & Hp1 & Hs1 & Hn1).
  unfold scan_step.
  destruct (Z.ltb_spec (max_score s) (score p)) as [Hlt|Hle].
  - unfold scanned. simpl.
    split.
    { apply Forall_app. split; [|by apply Forall_singleton].
      eapply Forall_impl; [exact Hmax|]. simpl. intros; lia. }
    split. { exists p. split; [apply elem_of_app; right; by left|done]. }
    split.
    { rewrite filter_app, filter_cons, decide_True, filter_nil by done.
      replace (filter (fun p2 => score p2 = score p) ps) with (@nil Player.t); [done|].
      symmetry. apply filter_none.
      eapply Forall_impl; [exact Hmax|]. simpl. intros; lia. }
    exists (ncards p). split; [done|]. split.
    { apply Forall_app. split; [|by apply Forall_singleton].
      eapply Forall_impl; [exact Hmax|]. simpl. intros; lia. }
    exists p. split; [apply elem_of_app; right; by left|done].
  - destruct (Z.eqb_spec (score p) (max_score s)) as [Heq|Hne].
    + unfold scanned. simpl. rewrite Hmin.
      split.
      { apply Forall_app. split; [done|]. apply Forall_singleton. lia. }
      split. { exists p0. split; [apply elem_of_app; by left|done]. }
      split. { by rewrite filter_app, filter_cons, decide_True, filter_nil, Hpot. }
      exists (m `min` ncards p)%nat. split; [done|]. split.
      { apply Forall_app. split; [|apply Forall_singleton; lia].
        eapply Forall_impl; [exact Hm|]. simpl. intros q Hq Hsq.
        specialize (Hq Hsq). lia. }
      destruct (decide (m <= ncards p)%nat).
      * exists p1. split; [apply elem_of_app; by left|]. split; [done|]. lia.
      * exists p. split; [apply elem_of_app; right; by left|]. split; [done|]. lia.
    + unfold scanned.
      split.
      { apply Forall_app. split; [done|]. apply Forall_singleton. lia. }
      split. { exists p0. split; [apply elem_of_app; by left|done]. }
      split. { by rewrite filter_app, filter_cons, decide_False, filter_nil, app_nil_r. }
      exists m. split; [done|]. split.
      { apply Forall_app. split; [done|]. apply Forall_singleton. lia. }
      exists p1. split; [apply elem_of_app; by left|done].
Qed.

Lemma scan_scanned ps :
  ps ≠ [] -> Forall (fun p => 0 <= score p) ps ->
  scanned ps (fold_left scan_step ps (mkScan (-1) None [])).
Proof.
  induction ps as [|p ps IH] using rev_ind; [done|].
  intros _ [Hps Hp]%Forall_app. rewrite Forall_singleton in Hp.
  rewrite fold_left_app. cbn [fold_left].
  destruct ps as [|p' ps'].
  - simpl. by apply scan_step_first.
  - by apply scan_step_next, IH.
Qed.

Lemma scanned_winner ps s p :
  scanned ps s -> p ∈ ps ->
  (score p = max_score s /\ Some (ncards p) = min_cards s) <-> is_winner ps p.
Proof.
  intros (Hmax & (p0 & Hp0 & Hs0) & _ & m & Hmin & Hm & p1 & Hp1 & Hs1 & Hn1) Hp.
  rewrite Forall_forall in Hmax, Hm.
  assert (forall q, q ∈ ps -> is_top ps q <-> score q = max_score s) as Htop.
  { intros q Hq. unfold is_top. rewrite Forall_forall. split.
    - intros Hq'. specialize (Hq' p0 Hp0). specialize (Hmax q Hq). lia.
    - intros Heq r Hr. specialize (Hmax r Hr). lia. }
  unfold is_winner. rewrite (Htop p Hp), Hmin, Forall_forall. split.
  - intros [Hs [= Hn]]. split; [done|].
    intros q Hq Hqtop%Htop; [|done]. specialize (Hm q Hq Hqtop). lia.
  - intros [Hs Hfew]. split; [done|]. f_equal.
    specialize (Hm p Hp Hs).
    assert (ncards p <= ncards p1)%nat by (apply Hfew; [done|by apply Htop]).
    lia.
Qed.

Lemma final_winners_filter ps :
  Forall (fun p => 0 <= score p) ps ->
  final_winners ps = filter (is_winner ps) ps.
Proof.
  intros Hps. destruct (decide (ps = [])) as [->|Hne]; [done|].
  pose proof (scan_scanned ps Hne Hps) as Hsc.
  unfold final_winners.
  set (s := fold_left scan_step ps (mkScan (-1) None [])) in *.
  rewrite (proj1 (proj2 (proj2 Hsc))).
  rewrite list_filter_filter.
  apply filter_ext_elem. intros p Hp.
  rewrite <- (scanned_winner ps s p Hsc Hp). tauto.
Qed.

(** C5.  With scores that are not negative, the winners computed by
    [_determine_winner] are, in seating order, exactly the players that
    have the highest score and, among the players with the highest score,
    the fewest owned cards.  For two players with the same score, the one
    with fewer cards wins alone whichever seat it has, and with the same
    number of cards both win. *)
Theorem determine_winner_spec (g : Game.t) :
  Forall (fun p => 0 <= score p) (players g) ->
  winner (_determine_winner g) = Some (filter (is_winner (players g)) (players g))
  /\ (forall p, p ∈ filter (is_winner (players g)) (players g) <->
        p ∈ players g
        /\ (forall q, q ∈ players g -> score q <= score p)
        /\ (forall q, q ∈ players g -> score q = score p ->
              (ncards p <= ncards q)%nat))
  /\ (forall a b, players g = [a; b] -> score a = score b ->
        ((ncards a < ncards b)%nat -> winner (_determine_winner g) = Some [a])
        /\ ((ncards b < ncards a)%nat -> winner (_determine_winner g) = Some [b])
        /\ ((ncards a = ncards b)%nat -> winner (_determine_winner g) = Some [a; b])).
Proof.
  intros Hps.
  assert (winner (_determine_winner g)
          = Some (filter (is_winner (players g)) (players g))) as Hw.
  { unfold _determine_winner. simpl. by rewrite final_winners_filter. }
  split; [done|]. split.
  - intros p. rewrite list_elem_of_filter. unfold is_winner, is_top.
    rewrite !Forall_forall. split.
    + intros [[Htop Hfew] Hin]. split; [done|]. split; [done|].
      intros q Hq Heq. apply Hfew; [done|].
      apply Forall_forall. intros r Hr. rewrite Heq. by apply Htop.
    + intros (Hin & Htop & Hfew). split; [|done]. split; [done|].
      intros q Hq Hqtop. apply Hfew; [done|].
      rewrite Forall_forall in Hqtop.
      specialize (Hqtop p Hin). specialize (Htop q Hq). lia.
  - intros a b Hab Heq. rewrite Hw, Hab.
    assert (is_top [a; b] a) as Ha.
    { unfold is_top. repeat constructor; lia. }
    assert (is_top [a; b] b) as Hb.
    { unfold is_top. repeat constructor; lia. }
    rewrite !filter_cons, filter_nil.
    split; [|split]; intros Hn.
    + rewrite decide_True, decide_False; [done| |].
      * intros [_ Hfew]. apply Forall_cons in Hfew as [Hfew _].
        specialize (Hfew Ha). lia.
      * split; [done|]. repeat constructor; lia.
    + rewrite decide_False, decide_True; [done| |].
      * split; [done|]. repeat constructor; lia.
      * intros [_ Hfew]. apply Forall_cons in Hfew as [_ Hfew].
        apply Forall_cons in Hfew as [Hfew _]. specialize (Hfew Hb). lia.
    + rewrite !decide_True; [done| |]; (split; [done|]; repeat constructor; lia).
Qed.

Lemma determine_winner_spec_witness :
  let a := player_with_cards "a" 5 3 in
  let b := player_with_cards "b" 3 5 in
  let c := player_with_cards "c" 1 2 in
  let g := Game.set_players sample_game [a; b; c] in
  Forall (fun p => 0 <= score p) (players g)
  /\ winner (_determine_winner g) = Some [a]
  /\ winner (_determine_winner g)
     = Some (filter (is_winner (players g)) (players g)).
Proof.
  intros a b c g.
  assert (Forall (fun p => 0 <= score p) (players g)) as Hps.
  { repeat constructor; by vm_compute. }
  split; [exact Hps|]. split; [reflexivity|].
  exact (proj1 (determine_winner_spec g Hps)).
Defined.

End Winner.

(** ** Moving tokens *)

Lemma Player_set_gems_id p : Player.set_gems p (Player.gems p) = p.
Proof. by destruct p. Qed.

Lemma Board_set_gems_id b : Board.set_gems b (Board.gems b) = b.
Proof. by destruct b. Qed.

Lemma dict_sum_cons k v d color :
  dict_sum ((k, v) :: d) color
  = (if decide (k = color) then v else 0) + dict_sum d color.
Proof. reflexivity. Qed.

Lemma dict_sum_get d color :
  NoDup (dict_keys d) -> dict_sum d color = dict_get d color 0.
Proof.
  unfold dict_keys. induction d as [|[k v] d IH]; [done|].
  intros [Hk Hnd]%NoDup_cons. rewrite dict_sum_cons. simpl.
  destruct (decide (k = color)) as [->|Hne].
  - rewrite decide_True by done.
    assert (dict_sum d color = 0) as ->; [|lia].
    clear -Hk. induction d as [|[k' v'] d IH]; [done|].
    simpl in Hk. apply not_elem_of_cons in Hk as [? ?].
    rewrite dict_sum_cons, decide_False by done. rewrite IH by done. lia.
  - rewrite decide_False by done. rewrite IH by done. lia.
Qed.

Lemma dict_sum_nonneg d color :
  (forall k v, (k, v) ∈ d -> 0 <= v) -> 0 <= dict_sum d color.
Proof.
  intros Hd. induction d as [|[k v] d IH]; [done|].
  rewrite dict_sum_cons.
  assert (0 <= v) by (apply (Hd k); by left).
  assert (0 <= dict_sum d color) by (apply IH; intros k' v' ?; apply (Hd k'); by right).
  case_decide; lia.
Qed.

Lemma dict_get_cases d color :
  dict_get d color 0 = 0 \/ (color, dict_get d color 0) ∈ d.
Proof.
  induction d as [|[k v] d IH]; simpl; [by left|].
  case_decide; subst.
  - right. by left.
  - destruct IH as [?|?]; [by left|right; by right].
Qed.

Lemma take_gems_spec b d ok b' :
  Board.take_gems b d = (ok, b') ->
  exists bg,
    b' = Board.set_gems b bg
    /\ (forall color,
          bg color = Board.gems b color - (if ok then dict_sum d color else 0)).
Proof.
  unfold Board.take_gems. destruct (existsb _ _).
  - intros [= <- <-]. exists (Board.gems b).
    split; [by rewrite Board_set_gems_id|]. intros; lia.
  - intros [= <- <-]. clear.
    revert b. induction d as [|[k v] d IH]; intros b.
    + exists (Board.gems b). split; [by rewrite Board_set_gems_id|].
      intros. unfold dict_sum. simpl. lia.
    + cbn [fold_left]. destruct (IH (Board.set_gems b
        (gems_set (Board.gems b) k (Board.gems b k - v)))) as (bg & -> & Hbg).
      exists bg. split; [done|]. intros color. rewrite Hbg, dict_sum_cons. simpl.
      unfold gems_set. destruct (decide (color = k)) as [->|?].
      * rewrite decide_True by done. lia.
      * rewrite decide_False by done. lia.
Qed.

Lemma add_gems_spec p d :
  exists pg,
    Game.add_gems p d = Player.set_gems p pg
    /\ (forall color, pg color = Player.gems p color + dict_sum d color).
Proof.
  unfold Game.add_gems. revert p. induction d as [|[k v] d IH]; intros p.
  - exists (Player.gems p). split; [by rewrite Player_set_gems_id|].
    intros. unfold dict_sum. simpl. lia.
  - cbn [fold_left]. destruct (IH (Player.set_gems p
      (gems_set (Player.gems p) k (Player.gems p k + v)))) as (pg & -> & Hpg).
    exists pg. split; [done|]. intros color. rewrite Hpg, dict_sum_cons. simpl.
    unfold gems_set. destruct (decide (color = k)) as [->|?].
    + rewrite decide_True by done. lia.
    + rewrite decide_False by done. lia.
Qed.

Lemma pay_spec d p b :
  exists pg bg,
    Game.pay d p b = (Player.set_gems p pg, Board.set_gems b bg)
    /\ (forall color, pg color = Player.gems p color - dict_sum d color)
    /\ (forall color, bg color = Board.gems b color + dict_sum d color).
Proof.
  unfold Game.pay. revert p b. induction d as [|[k v] d IH]; intros p b.
  - exists (Player.gems p), (Board.gems b).
    rewrite Player_set_gems_id, Board_set_gems_id. split; [done|].
    unfold dict_sum. simpl. split; intros; lia.
  - cbn [fold_left].
    destruct (IH (Player.set_gems p (gems_set (Player.gems p) k (Player.gems p k - v)))
                 (Board.set_gems b (gems_set (Board.gems b) k (Board.gems b k + v))))
      as (pg & bg & -> & Hpg & Hbg).
    exists pg, bg. split; [done|].
    split; intros color; rewrite ?Hpg, ?Hbg, dict_sum_cons; simpl;
      unfold gems_set; destruct (decide (color = k)) as [->|?];
      rewrite ?decide_True, ?decide_False by done; lia.
Qed.

(** ** The discard loop ([Game._check_and_discard_gems]) *)

Lemma available_colors_nonempty (g : Gems) :
  (forall color, 0 <= g color) -> 0 < gems_total g ->
  filter (fun color => 0 < g color) all_colors ≠ [].
Proof.
  intros Hg Htot Hnil. rewrite gems_total_unfold in Htot.
  assert (forall color, ~ 0 < g color) as Hno.
  { intros color Hpos.
    assert (color ∈ filter (fun color => 0 < g color) all_colors) as Hin.
    { apply list_elem_of_filter. split; [done|].
      destruct color; unfold all_colors; repeat (first [by left | right]). }
    rewrite Hnil in Hin. by apply elem_of_nil in Hin. }
  pose proof (Hno WHITE). pose proof (Hno BLUE). pose proof (Hno GREEN).
  pose proof (Hno RED). pose proof (Hno BLACK). pose proof (Hno GOLD). lia.
Qed.

Lemma discard_loop_spec n rnd p b :
  exists pg bg,
    Game.discard_loop n rnd p b = (Player.set_gems p pg, Board.set_gems b bg)
    /\ (forall color,
          pg color + bg color = Player.gems p color + Board.gems b color)
    /\ ((forall color, 0 <= Player.gems p color) ->
        (forall color, 0 <= pg color)
        /\ (Z.of_nat n <= Player.get_total_gems p ->
            gems_total pg = Player.get_total_gems p - Z.of_nat n))
    /\ (forall color, pg color <= Player.gems p color).
Proof.
  revert rnd p b. induction n as [|n IH]; intros rnd p b.
  - exists (Player.gems p), (Board.gems b).
    rewrite Player_set_gems_id, Board_set_gems_id. simpl.
    split; [done|]. split; [done|]. split; [|intros; lia].
    intros Hg. split; [done|]. unfold Player.get_total_gems. lia.
  - cbn [Game.discard_loop].
    destruct (random_choice _ _) as [color|] eqn:Hchoice.
    + apply random_choice_elem, list_elem_of_filter in Hchoice as [Hpos _].
      match goal with |- context [Game.discard_loop n _ ?p1 ?b1] =>
        destruct (IH (tl rnd) p1 b1) as (pg & bg & -> & Hsum & Hok & Hle) end.
      exists pg, bg. split; [done|]. simpl in Hsum, Hok, Hle. split; [|split].
      * intros c. rewrite Hsum. unfold gems_set.
        destruct (decide (c = color)) as [->|]; lia.
      * intros Hg. destruct Hok as [Hnn Htot].
        { intros c. unfold gems_set. specialize (Hg c).
          destruct (decide (c = color)); subst; lia. }
        split; [done|]. intros Hn.
        unfold Player.get_total_gems in *. simpl in Htot.
        rewrite gems_total_set in Htot. lia.
      * intros c. specialize (Hle c). unfold gems_set in Hle.
        destruct (decide (c = color)) as [->|]; lia.
    + apply random_choice_None in Hchoice.
      exists (Player.gems p), (Board.gems b).
      rewrite Player_set_gems_id, Board_set_gems_id.
      split; [done|]. split; [done|]. split; [|intros; lia].
      intros Hg. split; [done|]. intros Hn.
      exfalso. revert Hchoice. apply available_colors_nonempty; [done|].
      unfold Player.get_total_gems in Hn. lia.
Qed.

Lemma check_and_discard_gems_spec rnd p b :
  exists pg bg,
    Game._check_and_discard_gems rnd p b
    = (Player.set_gems p pg, Board.set_gems b bg)
    /\ (forall color,
          pg color + bg color = Player.gems p color + Board.gems b color)
    /\ ((forall color, 0 <= Player.gems p color) ->
        (forall color, 0 <= pg color)
        /\ gems_total pg = Z.min (Player.get_total_gems p) 10)
    /\ (forall color, pg color <= Player.gems p color).
Proof.
  unfold Game._check_and_discard_gems.
  destruct (discard_loop_spec (Z.to_nat (Player.get_total_gems p - 10)) rnd p b)
    as (pg & bg & -> & Hsum & Hok & Hle).
  exists pg, bg. split; [done|]. split; [done|]. split; [|done].
  intros Hg. destruct (Hok Hg) as [Hnn Htot]. split; [done|].
  destruct (Z_le_gt_dec (Player.get_total_gems p) 10) as [Hle'|Hgt].
  - replace (Z.to_nat (Player.get_total_gems p - 10)) with 0%nat in * by lia.
    rewrite Htot; [lia|].
    assert (0 <= Player.get_total_gems p); [|lia].
    unfold Player.get_total_gems. rewrite gems_total_unfold.
    pose proof (Hg WHITE). pose proof (Hg BLUE). pose proof (Hg GREEN).
    pose proof (Hg RED). pose proof (Hg BLACK). pose proof (Hg GOLD). lia.
  - rewrite Htot; lia.
Qed.

(** Reduce record projections applied to the setters of the model, and
    nothing else. *)
Ltac fields :=
  cbn [Player.player_id Player.name Player.gems Player.cards
       Player.reserved_cards Player.nobles
       Player.set_gems Player.set_cards Player.set_reserved_cards
       Player.set_nobles
       Board.gems Board.card_decks Board.displayed_cards Board.nobles
       Board.set_gems Board.set_card_decks Board.set_displayed_cards
       Board.set_nobles
       Game.players Game.board Game.current_player_index Game.round_number
       Game.game_over Game.winner Game.last_round Game.last_player_index
       Game.history Game.num_players
       Game.set_players Game.set_board Game.set_current_player_index
       Game.set_round_number Game.set_game_over Game.set_winner
       Game.set_last_round Game.set_history Game.store Game._determine_winner
       fst snd negb] in *.

(** ** One turn: what moves between the player and the board *)

Lemma moves_refl p b : moves p b p b.
Proof. by repeat split. Qed.

Lemma moves_trans p1 b1 p2 b2 p3 b3 :
  moves p1 b1 p2 b2 -> moves p2 b2 p3 b3 -> moves p1 b1 p3 b3.
Proof.
  intros (Hg1 & Hc1 & Hl1) (Hg2 & Hc2 & Hl2). split; [|split].
  - intros color. by rewrite Hg2, Hg1.
  - by rewrite Hc2, Hc1.
  - auto.
Qed.

Lemma moves_gems p b pg bg :
  (forall color, pg color + bg color = Player.gems p color + Board.gems b color) ->
  moves p b (Player.set_gems p pg) (Board.set_gems b bg).
Proof. intros Hsum. by repeat split. Qed.

Lemma moves_nobles p b ns bn :
  moves p b (Player.set_nobles p ns) (Board.set_nobles b bn).
Proof. by repeat split. Qed.

Lemma levels_ok_zones b b' :
  (forall level, zone b' level ≡ₚ zone b level) -> levels_ok b -> levels_ok b'.
Proof. intros Hz Hok level. rewrite (Hz level). apply Hok. Qed.

Lemma table_zones b b' :
  (forall level, zone b' level ≡ₚ zone b level) -> table b' ≡ₚ table b.
Proof. intros Hz. unfold table. by rewrite !Hz. Qed.

Lemma moves_replenish p b : moves p b p (Board.replenish_displayed_cards b).
Proof.
  destruct (replenish_displayed_cards_spec b) as (Hl & Hg & _).
  assert (forall level, zone (Board.replenish_displayed_cards b) level ≡ₚ zone b level)
    as Hz.
  { intros level. unfold zone. destruct (Hl level) as [-> ->].
    rewrite (Permutation_app_comm (refill_deck _ _)), refill_perm.
    apply Permutation_app_comm. }
  split; [|split].
  - intros color. by rewrite Hg.
  - by rewrite (table_zones _ _ Hz).
  - by apply levels_ok_zones.
Qed.

(** Taking [card] out of the zone of one level. *)
Lemma zone_remove b b' level card :
  zone b level ≡ₚ card :: zone b' level ->
  (forall l, l ≠ level -> zone b' l = zone b l) ->
  table b ≡ₚ card :: table b' /\ (levels_ok b -> levels_ok b').
Proof.
  intros Hz Hother. split.
  - unfold table. destruct level.
    + rewrite Hz, (Hother L2), (Hother L3) by done. done.
    + rewrite Hz, (Hother L1), (Hother L3) by done. solve_Permutation.
    + rewrite Hz, (Hother L1), (Hother L2) by done. solve_Permutation.
  - intros Hok l. destruct (decide (l = level)) as [->|Hne].
    + specialize (Hok level). rewrite Hz in Hok. by apply Forall_cons in Hok as [_ ?].
    + rewrite Hother by done. apply Hok.
Qed.

Lemma gems_total_le (g h : Gems) :
  (forall color, g color <= h color) -> gems_total g <= gems_total h.
Proof.
  intros Hle. rewrite !gems_total_unfold.
  pose proof (Hle WHITE). pose proof (Hle BLUE). pose proof (Hle GREEN).
  pose proof (Hle RED). pose proof (Hle BLACK). pose proof (Hle GOLD). lia.
Qed.

(** *** Frames: what the helpers of the engine leave alone *)

Lemma Game_set_board_id g : Game.set_board g (Game.board g) = g.
Proof. by destruct g. Qed.

Lemma trigger_scan_frame ps g :
  Game.players (Game.trigger_scan ps g) = Game.players g
  /\ Game.board (Game.trigger_scan ps g) = Game.board g
  /\ Game.current_player_index (Game.trigger_scan ps g) = Game.current_player_index g
  /\ Game.round_number (Game.trigger_scan ps g) = Game.round_number g
  /\ Game.history (Game.trigger_scan ps g) = Game.history g
  /\ Game.game_over (Game.trigger_scan ps g) = Game.game_over g
  /\ Game.winner (Game.trigger_scan ps g) = Game.winner g.
Proof.
  induction ps as [|p ps IH]; simpl; [done|].
  destruct (_ && _); [done|apply IH].
Qed.

Lemma trigger_scan_last_round ps g :
  (Game.last_round g = true -> is_Some (Game.last_player_index g)) ->
  Game.last_round (Game.trigger_scan ps g) = true ->
  is_Some (Game.last_player_index (Game.trigger_scan ps g)).
Proof.
  intros Hg. induction ps as [|p ps IH]; simpl; [done|].
  destruct (_ && _); [|done]. simpl. intros _. by eexists.
Qed.

Lemma check_game_end_frame g g' :
  Game._check_game_end g = Some g' ->
  Game.players g' = Game.players g
  /\ Game.board g' = Game.board g
  /\ Game.current_player_index g' = Game.current_player_index g
  /\ Game.round_number g' = Game.round_number g
  /\ Game.history g' = Game.history g.
Proof.
  unfold Game._check_game_end.
  destruct (trigger_scan_frame (Game.players g) g) as (Hp & Hb & Hc & Hr & Hh & _).
  destruct (Game.last_round (Game.trigger_scan _ _)).
  - case_decide; [done|].
    destruct (Game.last_player_index (Game.trigger_scan _ _)); [|done].
    case_decide; intros [= <-]; simpl; done.
  - by intros [= <-].
Qed.

Lemma check_game_end_last_round g g' :
  (Game.last_round g = true -> is_Some (Game.last_player_index g)) ->
  Game._check_game_end g = Some g' ->
  Game.last_round g' = true -> is_Some (Game.last_player_index g').
Proof.
  intros Hg. unfold Game._check_game_end.
  pose proof (trigger_scan_last_round (Game.players g) g Hg) as Hs.
  destruct (Game.last_round (Game.trigger_scan _ _)) eqn:Hlr.
  - case_decide; [done|].
    destruct (Game.last_player_index (Game.trigger_scan _ _)) eqn:Hlpi; [|done].
    case_decide; intros [= <-] _; simpl; rewrite ?Hlpi; by eexists.
  - intros [= <-] Htrue. congruence.
Qed.

(** [_check_game_end] raises only when the seat count is 0 or the index of
    the trigger was never written. *)
Lemma check_game_end_Some g :
  Game.players g ≠ [] ->
  (Game.last_round g = true -> is_Some (Game.last_player_index g)) ->
  is_Some (Game._check_game_end g).
Proof.
  intros Hps Hg. unfold Game._check_game_end.
  pose proof (trigger_scan_last_round (Game.players g) g Hg) as Hs.
  destruct (trigger_scan_frame (Game.players g) g) as (Hp & _).
  destruct (Game.last_round (Game.trigger_scan _ _)); [|by eexists].
  rewrite decide_False.
  - destruct (Hs eq_refl) as [i ->]. case_decide; by eexists.
  - unfold Game.num_players. rewrite Hp. by destruct (Game.players g).
Qed.

Lemma check_nobles_visit_spec p b (P : Noble.t -> Prop) :
  exists ns bn,
    Game._check_nobles_visit p b = (Player.set_nobles p ns, Board.set_nobles b bn)
    /\ (Forall P (Board.nobles b ++ Player.nobles p) -> Forall P (bn ++ ns)).
Proof.
  unfold Game._check_nobles_visit.
  destruct (filter _ _) as [|noble rest] eqn:Hvisit.
  - exists (Player.nobles p), (Board.nobles b). by destruct p, b.
  - assert (noble ∈ Board.nobles b) as Hin.
    { assert (noble ∈ noble :: rest) as Hin by (by left).
      rewrite <- Hvisit in Hin. by apply list_elem_of_filter in Hin as [_ ?]. }
    unfold Board.remove_noble. destruct (list_find _ _) as [[i n]|]; simpl.
    + eexists _, _. split; [done|].
      intros [Hb Hp]%Forall_app. rewrite Forall_forall in Hb.
      apply Forall_app. split; [|apply Forall_app; split; [done|]].
      * apply Forall_forall. intros x Hx%list_elem_of_delete_inv. by apply Hb.
      * apply Forall_singleton. by apply Hb.
    + eexists _, (Board.nobles b). split; [by destruct b|].
      intros [Hb Hp]%Forall_app. apply Forall_app. split; [done|].
      apply Forall_app. split; [done|]. rewrite Forall_forall in Hb.
      apply Forall_singleton. by apply Hb.
Qed.

(** *** The five actions *)

Lemma keeps_refl p b : keeps p b p b.
Proof. by repeat split. Qed.

Lemma keeps_gems p b pg bg :
  (hand_ok p -> Forall Card.cost_wf (hand p ++ table b) ->
   (forall color, 0 <= Board.gems b color) -> forall color, 0 <= bg color) ->
  keeps p b (Player.set_gems p pg) (Board.set_gems b bg).
Proof. intros Hpool. split; [done|]. split; [exact Hpool|done]. Qed.

Lemma turn_result_fail g p :
  Game.get_current_player g = Some p -> turn_result g p false g.
Proof.
  intros Hp. exists p, (Game.board g).
  rewrite list_insert_id by done.
  do 5 (split; [done|]). split; [apply moves_refl|].
  split; [done|]. split; [done|]. apply keeps_refl.
Qed.

Lemma turn_result_store g p p' b' :
  moves p (Game.board g) p' b' ->
  (Forall Card.cost_wf (hand p ++ table (Game.board g)) -> hand_ok p -> hand_ok p') ->
  keeps p (Game.board g) p' b' ->
  turn_result g p true (Game.store g p' b').
Proof.
  intros Hm Hok Hk. exists p', b'. do 5 (split; [done|]).
  by do 3 (split; [done|]).
Qed.

Lemma turn_result_end g p g1 g' :
  turn_result g p true g1 -> Game._check_game_end g1 = Some g' ->
  turn_result g p true g'.
Proof.
  intros (p' & b' & Hps & Hb & Hc & Hr & Hh & Hm & Hok & Hf) Hend.
  apply check_game_end_frame in Hend as (Ep & Eb & Ec & Er & Eh).
  exists p', b'. rewrite Ep, Eb, Ec, Er, Eh. by do 7 (split; [done|]).
Qed.

Lemma hand_ok_after_discard p pg total :
  (forall color, 0 <= pg color) /\ gems_total pg = Z.min total 10 ->
  hand_ok (Player.set_gems p pg).
Proof.
  intros [Hnn Htot]. split; [done|].
  unfold Player.get_total_gems. simpl. lia.
Qed.

Lemma collect_gems_values b colors acc d :
  Game.collect_gems b colors acc = Some d ->
  (forall k v, (k, v) ∈ acc -> v = 1 /\ 0 < Board.gems b k) ->
  forall k v, (k, v) ∈ d -> v = 1 /\ 0 < Board.gems b k.
Proof.
  revert acc. induction colors as [|color colors IH]; intros acc; simpl.
  - by intros [= <-].
  - destruct (Z.leb_spec (Board.gems b color) 0); [done|].
    intros Hd Hacc. apply (IH _ Hd).
    intros k v [[= -> ->]|Hin]%dict_set_elem; [done|by apply Hacc].
Qed.

Lemma collect_gems_NoDup b colors acc d :
  Game.collect_gems b colors acc = Some d ->
  NoDup (dict_keys acc) -> NoDup (dict_keys d).
Proof.
  revert acc. induction colors as [|color colors IH]; intros acc; simpl.
  - by intros [= <-].
  - destruct (_ <=? _); [done|]. intros Hd Hacc.
    apply (IH _ Hd). by apply dict_set_NoDup.
Qed.

Lemma collect_gems_None b colors acc :
  Game.collect_gems b colors acc = None
  <-> exists color, color ∈ colors /\ Board.gems b color <= 0.
Proof.
  revert acc. induction colors as [|color colors IH]; intros acc; simpl.
  - split; [done|]. intros (c & Hc & _). by apply elem_of_nil in Hc.
  - destruct (Z.leb_spec (Board.gems b color) 0) as [Hle|Hgt].
    + split; [|done]. intros _. exists color. split; [by left|done].
    + rewrite IH. split.
      * intros (c & Hc & Hle). exists c. split; [by right|done].
      * intros (c & [->|Hc]%elem_of_cons & Hle); [lia|]. by exists c.
Qed.

Lemma take_gems_false b d b' : Board.take_gems b d = (false, b') -> b' = b.
Proof. unfold Board.take_gems. destruct (existsb _ _); by intros [= <-]. Qed.

(** A granted request asked no more than the pool held. *)
Lemma take_gems_true b d b' :
  Board.take_gems b d = (true, b') ->
  forall k v, (k, v) ∈ d -> v <= Board.gems b k.
Proof.
  unfold Board.take_gems. destruct (existsb _ _) eqn:Hex; [done|].
  intros _ k v Hin. destruct (Z_le_gt_dec v (Board.gems b k)); [done|].
  assert (existsb (fun '(color, count) => Board.gems b color <? count) d = true)
    as Hex'; [|congruence].
  apply existsb_exists. exists (k, v). split; [by apply list_elem_of_In|].
  apply Z.ltb_lt. lia.
Qed.

(** A request that asks 1 of colours present in the pool is granted. *)
Lemma take_gems_collected b d :
  (forall k v, (k, v) ∈ d -> v = 1 /\ 0 < Board.gems b k) ->
  (Board.take_gems b d).1 = true.
Proof.
  intros Hd. unfold Board.take_gems.
  destruct (existsb _ _) eqn:Hex; [|done].
  apply existsb_exists in Hex as ([k v] & Hin%list_elem_of_In & Hlt%Z.ltb_lt).
  destruct (Hd k v Hin) as [-> ?]. lia.
Qed.

(** What is left in the pool after a granted request is not negative. *)
Lemma pool_after_take b d b' color :
  Board.take_gems b d = (true, b') -> NoDup (dict_keys d) ->
  0 <= Board.gems b color -> 0 <= Board.gems b color - dict_sum d color.
Proof.
  intros Htake Hnd Hpool. rewrite dict_sum_get by done.
  destruct (dict_get_cases d color) as [->|Hin]; [lia|].
  pose proof (take_gems_true _ _ _ Htake _ _ Hin). lia.
Qed.

Lemma execute_take_different_gems_turn rnd g p a ok g' :
  Game.get_current_player g = Some p ->
  Game._execute_take_different_gems rnd g p a = (ok, g') ->
  turn_result g p ok g'
  /\ Game.game_over g' = Game.game_over g
  /\ Game.last_round g' = Game.last_round g
  /\ Game.last_player_index g' = Game.last_player_index g
  /\ Game.winner g' = Game.winner g.
Proof.
  intros Hp. unfold Game._execute_take_different_gems.
  destruct (_ || _).
  { intros [= <- <-]. split; [by apply turn_result_fail|done]. }
  destruct (Game.collect_gems _ _ _) as [d|] eqn:Hcol.
  2:{ intros [= <- <-]. split; [by apply turn_result_fail|done]. }
  destruct (Board.take_gems _ _) as [ok1 b1] eqn:Htake. destruct ok1; simpl.
  - destruct (take_gems_spec _ _ _ _ Htake) as (bg & -> & Hbg).
    destruct (add_gems_spec p d) as (pg & -> & Hpg).
    destruct (check_and_discard_gems_spec rnd (Player.set_gems p pg)
                (Board.set_gems (Game.board g) bg)) as (pg2 & bg2 & -> & Hsum & Hok & Hle).
    intros [= <- <-]. split; [|done]. simpl in *.
    apply (turn_result_store g p (Player.set_gems p pg2) (Board.set_gems (Game.board g) bg2)).
    + apply moves_gems. intros color. rewrite Hsum, Hpg, Hbg. lia.
    + intros _ [Hnn _]. eapply hand_ok_after_discard. apply Hok.
      intros color. rewrite Hpg.
      assert (0 <= dict_sum d color); [|specialize (Hnn color); lia].
      apply dict_sum_nonneg. intros k v Hin.
      destruct (collect_gems_values _ _ _ _ Hcol) with (k := k) (v := v) as [-> _];
        [|done|lia].
      intros ? ? Hnil. by apply elem_of_nil in Hnil.
    + apply keeps_gems. intros _ _ Hpool color.
      assert (0 <= bg color); [|specialize (Hsum color); specialize (Hle color); lia].
      rewrite Hbg. eapply pool_after_take; [exact Htake| |done].
      eapply collect_gems_NoDup; [exact Hcol|constructor].
  - apply take_gems_false in Htake as ->. rewrite Game_set_board_id.
    intros [= <- <-]. split; [by apply turn_result_fail|done].
Qed.

Lemma execute_take_same_gems_turn rnd g p a ok g' :
  Game.get_current_player g = Some p ->
  Game._execute_take_same_gems rnd g p a = (ok, g') ->
  turn_result g p ok g'
  /\ Game.game_over g' = Game.game_over g
  /\ Game.last_round g' = Game.last_round g
  /\ Game.last_player_index g' = Game.last_player_index g
  /\ Game.winner g' = Game.winner g.
Proof.
  intros Hp. unfold Game._execute_take_same_gems.
  destruct (Action.color a) as [color|].
  2:{ intros [= <- <-]. split; [by apply turn_result_fail|done]. }
  destruct (_ <? _).
  { intros [= <- <-]. split; [by apply turn_result_fail|done]. }
  destruct (Board.take_gems _ _) as [ok1 b1] eqn:Htake. destruct ok1; simpl.
  - destruct (take_gems_spec _ _ _ _ Htake) as (bg & -> & Hbg).
    match goal with |- context [Game._check_and_discard_gems rnd ?p1 ?b1] =>
      destruct (check_and_discard_gems_spec rnd p1 b1)
        as (pg2 & bg2 & -> & Hsum & Hok & Hle) end.
    intros [= <- <-]. split; [|done]. simpl in *.
    apply (turn_result_store g p (Player.set_gems p pg2) (Board.set_gems (Game.board g) bg2)).
    + apply moves_gems. intros c. rewrite Hsum, Hbg. unfold gems_set.
      destruct (decide (c = color)) as [->|];
        rewrite ?decide_True, ?decide_False by done; lia.
    + intros _ [Hnn _]. eapply hand_ok_after_discard. apply Hok.
      intros c. unfold gems_set. pose proof (Hnn c). pose proof (Hnn color).
      destruct (decide (c = color)) as [->|]; lia.
    + apply keeps_gems. intros _ _ Hpool c.
      assert (0 <= bg c); [|specialize (Hsum c); specialize (Hle c); lia].
      pose proof (pool_after_take _ _ _ c Htake) as Hafter.
      rewrite Hbg. unfold dict_sum in *. simpl in *. apply Hafter; [|done].
      apply NoDup_singleton.
  - apply take_gems_false in Htake as ->. rewrite Game_set_board_id.
    intros [= <- <-]. split; [by apply turn_result_fail|done].
Qed.

Lemma reserve_source_None b a b1 :
  Game.reserve_source b a = (None, b1) -> b1 = b.
Proof.
  unfold Game.reserve_source.
  destruct (Action.level a ≫= level_of_Z) as [level|]; [|by intros [= <-]].
  destruct (default false (Action.from_deck a)).
  - destruct (list_pop _) as [[deck card]|]; [done|by intros [= <-]].
  - destruct (list_find _ _) as [[i card]|]; [done|by intros [= <-]].
Qed.

Lemma reserve_source_Some b a card b1 :
  Game.reserve_source b a = (Some card, b1) ->
  Board.gems b1 = Board.gems b
  /\ exists level,
       zone b level ≡ₚ card :: zone b1 level
       /\ (forall l, l ≠ level -> zone b1 l = zone b l).
Proof.
  unfold Game.reserve_source.
  destruct (Action.level a ≫= level_of_Z) as [level|]; [|done].
  destruct (default false (Action.from_deck a)).
  - destruct (list_pop _) as [[deck c]|] eqn:Hpop; [|done].
    intros [= <- <-]. split; [done|]. exists level. unfold zone. simpl.
    apply list_pop_Some in Hpop. rewrite Hpop, piles_set_eq. split.
    + solve_Permutation.
    + intros l Hl. by rewrite piles_set_ne.
  - destruct (list_find _ _) as [[i c]|] eqn:Hfind; [|done].
    intros [= <- <-]. split; [done|]. exists level. unfold zone. simpl.
    apply list_find_Some in Hfind as (Hi & _). rewrite piles_set_eq. split.
    + rewrite (delete_Permutation _ _ _ Hi) at 1. solve_Permutation.
    + intros l Hl. by rewrite piles_set_ne.
Qed.

Lemma reserve_source_nobles b a :
  Board.nobles (Game.reserve_source b a).2 = Board.nobles b.
Proof.
  unfold Game.reserve_source.
  destruct (Action.level a ≫= level_of_Z) as [level|]; [|done].
  destruct (default false (Action.from_deck a)).
  - by destruct (list_pop _) as [[deck c]|].
  - by destruct (list_find _ _) as [[i c]|].
Qed.

Lemma execute_reserve_card_turn rnd g p a ok g' :
  Game.get_current_player g = Some p ->
  Game._execute_reserve_card rnd g p a = (ok, g') ->
  turn_result g p ok g'
  /\ Game.game_over g' = Game.game_over g
  /\ Game.last_round g' = Game.last_round g
  /\ Game.last_player_index g' = Game.last_player_index g
  /\ Game.winner g' = Game.winner g.
Proof.
  intros Hp. unfold Game._execute_reserve_card.
  case_bool_decide as Hfull.
  { intros [= <- <-]. split; [by apply turn_result_fail|done]. }
  pose proof (reserve_source_nobles (Game.board g) a) as Hnob.
  destruct (Game.reserve_source _ _) as [[card|] b1] eqn:Hsrc.
  2:{ apply reserve_source_None in Hsrc as ->. rewrite Game_set_board_id.
      intros [= <- <-]. split; [by apply turn_result_fail|done]. }
  apply reserve_source_Some in Hsrc as (Hg1 & level & Hz & Hother).
  destruct (zone_remove _ _ _ _ Hz Hother) as [Htable Hlevels].
  destruct (replenish_displayed_cards_spec b1) as (_ & Hg2 & Hn2).
  set (p1 := Player.set_reserved_cards p (Player.reserved_cards p ++ [card])).
  set (b2 := Board.replenish_displayed_cards b1) in *.
  assert (moves p (Game.board g) p1 b1) as Hm1.
  { split; [|split; [|done]].
    - intros color. by rewrite Hg1.
    - rewrite Htable. unfold hand, p1. fields. solve_Permutation. }
  assert (moves p (Game.board g) p1 b2) as Hm2.
  { eapply moves_trans; [exact Hm1|apply moves_replenish]. }
  assert (keeps p (Game.board g) p1 b2) as Hk2.
  { split; [|split].
    - intros _. unfold p1. fields. rewrite length_app. cbn [length]. lia.
    - intros _ _ Hpool color. by rewrite Hg2, Hg1.
    - unfold p1. fields. simpl in Hnob. by rewrite Hn2, Hnob. }
  clearbody p1 b2.
  destruct (0 <? _) eqn:Hgold.
  - match goal with |- context [Game._check_and_discard_gems rnd ?p2 ?b3] =>
      destruct (check_and_discard_gems_spec rnd p2 b3)
        as (pg & bg & -> & Hsum & Hok & Hle) end.
    intros Heq; apply pair_equal_spec in Heq as [<- <-]. split; [|done].
    fields.
    apply (turn_result_store g p (Player.set_gems p1 pg) (Board.set_gems b2 bg)).
    + eapply moves_trans; [exact Hm2|].
      apply moves_gems. intros color. rewrite Hsum. unfold gems_set.
      destruct (decide (color = GOLD)) as [->|]; lia.
    + intros Hwf Hhand. eapply hand_ok_after_discard. apply Hok.
      destruct Hm2 as (Hg & _). destruct Hk2 as (_ & _ & _).
      assert (forall c, 0 <= Player.gems p1 c) as Hnn.
      { intros c. specialize (Hg c). rewrite Hg2, Hg1 in Hg.
        destruct Hhand as [Hnn _]. specialize (Hnn c). lia. }
      intros c. unfold gems_set. pose proof (Hnn c). pose proof (Hnn GOLD).
      destruct (decide (c = GOLD)) as [->|]; lia.
    + destruct Hk2 as (Hk1 & Hk2 & Hk3). split; [exact Hk1|]. split; [|exact Hk3].
      intros Hhand Hwf Hpool color. fields.
      specialize (Hk2 Hhand Hwf Hpool). apply Z.ltb_lt in Hgold.
      specialize (Hsum color). specialize (Hle color). unfold gems_set in *.
      pose proof (Hk2 color).
      destruct (decide (color = GOLD)) as [->|]; lia.
  - intros Heq; apply pair_equal_spec in Heq as [<- <-]. split; [|done].
    apply turn_result_store; [done| |done].
    intros _ [Hnn Htot]. destruct Hm2 as (Hg & _).
    assert (forall c, Player.gems p1 c = Player.gems p c) as Heq.
    { intros c. specialize (Hg c). rewrite Hg2, Hg1 in Hg. lia. }
    split.
    + intros c. rewrite Heq. apply Hnn.
    + unfold Player.get_total_gems in *. rewrite gems_total_unfold in *.
      by rewrite !Heq.
Qed.

(** The facts about [get_actual_cost] the engine relies on. *)
Lemma actual_cost_facts p card :
  (forall c, 0 <= Player.gems p c) -> Card.cost_wf card ->
  NoDup (dict_keys (Player.get_actual_cost p card))
  /\ entries_ok p (Player.get_actual_cost p card)
  /\ (Player.can_afford_card p card = true ->
      forall c v, (c, v) ∈ Player.get_actual_cost p card -> v <= Player.gems p c).
Proof.
  intros Hg [Hnd Hgold].
  assert (NoDup (dict_keys (Player.get_actual_cost p card))) as Hnd'.
  { apply cost_fold_NoDup. constructor. }
  assert (entries_ok p (Player.get_actual_cost p card)) as Hok.
  { apply cost_fold_entries; [done|done|].
    intros c v Hin. by apply elem_of_nil in Hin. }
  split; [done|]. split; [done|].
  intros Haff%can_afford_card_spec c v Hin.
  destruct (decide (c = GOLD)) as [->|Hc]; [|by apply Hok].
  rewrite <- (dict_get_elem _ _ _ 0 Hnd' Hin).
  unfold Player.get_actual_cost. rewrite cost_fold_gold by done. simpl.
  etrans; [|exact Haff].
  assert (sum_with (Player.gold_applied p) (Card.cost card)
          <= sum_with (shortfall p) (Card.cost card)); [|lia].
  apply sum_with_le. intros [k w] _. by apply gold_applied_le_shortfall.
Qed.

Lemma actual_cost_range p card color :
  hand_ok p -> Card.cost_wf card -> Player.can_afford_card p card = true ->
  0 <= dict_sum (Player.get_actual_cost p card) color <= Player.gems p color.
Proof.
  intros [Hnn _] Hwf Haff.
  destruct (actual_cost_facts p card Hnn Hwf) as (Hnd & Hent & Hcan).
  rewrite dict_sum_get by done.
  destruct (dict_get_cases (Player.get_actual_cost p card) color) as [->|Hin].
  - specialize (Hnn color). lia.
  - split; [by apply (Hent color)|by apply Hcan].
Qed.

(** Paying the price [get_actual_cost] computed leaves a legal hand. *)
Lemma hand_ok_after_pay p card pg :
  hand_ok p -> Card.cost_wf card -> Player.can_afford_card p card = true ->
  (forall color,
      pg color = Player.gems p color
                 - dict_sum (Player.get_actual_cost p card) color) ->
  (forall color, 0 <= pg color) /\ gems_total pg <= 10.
Proof.
  intros Hok Hwf Haff Hpg.
  pose proof (fun color => actual_cost_range p card color Hok Hwf Haff) as Hrange.
  destruct Hok as [Hnn Htot]. split.
  - intros color. rewrite Hpg. specialize (Hrange color). lia.
  - etrans; [|exact Htot]. apply gems_total_le.
    intros color. rewrite Hpg. specialize (Hrange color). lia.
Qed.

Lemma execute_buy_card_turn g p a ok g' :
  Game.get_current_player g = Some p ->
  Game._execute_buy_card g p a = Some (ok, g') ->
  turn_result g p ok g'.
Proof.
  intros Hp. unfold Game._execute_buy_card.
  destruct (Action.level a ≫= level_of_Z) as [level|];
    [|intros [= <- <-]; by apply turn_result_fail].
  destruct (Action.card_id a) as [card_id|];
    [|intros [= <- <-]; by apply turn_result_fail].
  destruct (list_find _ _) as [[i card]|] eqn:Hfind;
    [|intros [= <- <-]; by apply turn_result_fail].
  destruct (Player.can_afford_card p card) eqn:Haff; cbn [negb];
    [|intros [= <- <-]; by apply turn_result_fail].
  destruct (pay_spec (Player.get_actual_cost p card) p (Game.board g))
    as (pg & bg & -> & Hpg & Hbg).
  unfold Board.remove_displayed_card. fields. rewrite Hfind. fields.
  apply list_find_Some in Hfind as (Hi & _).
  set (p1 := Player.set_cards (Player.set_gems p pg) (Player.cards p ++ [card])).
  set (b1 := Board.set_displayed_cards (Board.set_gems (Game.board g) bg)
               (piles_set (Board.displayed_cards (Game.board g)) level
                  (delete i (Board.displayed_cards (Game.board g) level)))).
  destruct (replenish_displayed_cards_spec b1) as (_ & Hg2 & Hn2).
  assert (moves p (Game.board g) p1 (Board.replenish_displayed_cards b1)) as Hm.
  { apply (moves_trans _ _ p1 b1); [|apply moves_replenish].
    destruct (zone_remove (Board.set_gems (Game.board g) bg) b1 level card)
      as [Htable Hlevels].
    - unfold zone, b1. fields. rewrite piles_set_eq.
      rewrite (delete_Permutation _ _ _ Hi) at 1. solve_Permutation.
    - intros l Hl. unfold zone, b1. fields. by rewrite piles_set_ne.
    - split; [|split; [|done]].
      + intros color. unfold p1, b1. fields. rewrite Hpg, Hbg. lia.
      + change (table (Game.board g)) with (table (Board.set_gems (Game.board g) bg)).
        rewrite Htable. unfold hand, p1. fields. solve_Permutation. }
  assert (card ∈ hand p ++ table (Game.board g)) as Hcard.
  { apply elem_of_app. right. unfold table, zone.
    apply list_elem_of_lookup_2 in Hi.
    destruct level; rewrite !elem_of_app; tauto. }
  assert (Board.gems (Board.replenish_displayed_cards b1) = bg) as Hgems by done.
  assert (Board.nobles (Board.replenish_displayed_cards b1)
          = Board.nobles (Game.board g)) as Hnob by done.
  assert (Player.nobles p1 = Player.nobles p) as Hpn by done.
  assert (Player.gems p1 = pg) as Hpg1 by done.
  assert (Player.reserved_cards p1 = Player.reserved_cards p) as Hres by done.
  clearbody p1 b1. 
  destruct (check_nobles_visit_spec p1 (Board.replenish_displayed_cards b1)
              (fun noble => 0 <= Noble.points noble)) as (ns & bn & -> & Hnobles).
  destruct (Game._check_game_end _) as [g1|] eqn:Hend; [|done].
  intros [= <- <-]. eapply turn_result_end; [|exact Hend].
  apply turn_result_store.
  - eapply moves_trans; [exact Hm|apply moves_nobles].
  - intros Hwf Hok. rewrite Forall_forall in Hwf.
    destruct (hand_ok_after_pay p card pg Hok) as [Hnn Htot]; [by apply Hwf|done|done|].
    split; fields; rewrite ?Hpg1; [done|].
    unfold Player.get_total_gems. fields. by rewrite Hpg1.
  - split; [|split].
    + fields. by rewrite Hres.
    + intros Hok Hwf Hpool color. fields. rewrite Hgems, Hbg.
      rewrite Forall_forall in Hwf.
      pose proof (actual_cost_range p card color Hok (Hwf _ Hcard) Haff).
      specialize (Hpool color). lia.
    + fields. rewrite Hnob, Hpn in Hnobles. exact Hnobles.
Qed.

Lemma execute_buy_reserved_card_turn g p a ok g' :
  Game.get_current_player g = Some p ->
  Game._execute_buy_reserved_card g p a = Some (ok, g') ->
  turn_result g p ok g'.
Proof.
  intros Hp. unfold Game._execute_buy_reserved_card.
  destruct (Action.card_id a) as [card_id|];
    [|intros [= <- <-]; by apply turn_result_fail].
  destruct (list_find _ _) as [[i card]|] eqn:Hfind;
    [|intros [= <- <-]; by apply turn_result_fail].
  destruct (Player.can_afford_card p card) eqn:Haff; cbn [negb];
    [|intros [= <- <-]; by apply turn_result_fail].
  destruct (pay_spec (Player.get_actual_cost p card) p (Game.board g))
    as (pg & bg & -> & Hpg & Hbg).
  fields.
  apply list_find_Some in Hfind as (Hi & _).
  match goal with |- context [Game._check_nobles_visit ?p1 ?b1] =>
    destruct (check_nobles_visit_spec p1 b1 (fun noble => 0 <= Noble.points noble))
      as (ns & bn & -> & Hnobles) end.
  fields.
  destruct (Game._check_game_end _) as [g1|] eqn:Hend; [|done].
  intros [= <- <-]. eapply turn_result_end; [|exact Hend].
  assert (card ∈ hand p ++ table (Game.board g)) as Hcard.
  { apply elem_of_app. left. unfold hand. apply elem_of_app. left.
    by eapply list_elem_of_lookup_2. }
  apply turn_result_store.
  - eapply moves_trans; [|apply moves_nobles].
    split; [|split; [|done]].
    + intros color. fields. rewrite Hpg, Hbg. lia.
    + unfold hand. fields. rewrite (delete_Permutation _ _ _ Hi) at 2.
      change (table (Board.set_gems (Game.board g) bg)) with (table (Game.board g)).
      solve_Permutation.
  - intros Hwf Hok. rewrite Forall_forall in Hwf.
    destruct (hand_ok_after_pay p card pg Hok) as [Hnn Htot];
      [by apply Hwf|done|done|by split].
  - split; [|split].
    + fields. rewrite length_delete by (by eexists). lia.
    + intros Hok Hwf Hpool color. fields. rewrite Hbg.
      rewrite Forall_forall in Hwf.
      pose proof (actual_cost_range p card color Hok (Hwf _ Hcard) Haff).
      specialize (Hpool color). lia.
    + fields. exact Hnobles.
Qed.

Lemma execute_action_turn rnd g a ok g' :
  Game.execute_action rnd g a = Some (ok, g') ->
  exists p,
    Game.get_current_player g = Some p
    /\ turn_result
         (Game.set_history g
            (Game.history g
             ++ [Game.mkRecord (Game.round_number g) (Player.player_id p)
                               (Action.str a) (Action.to_dict a)]))
         p ok g'.
Proof.
  unfold Game.execute_action.
  destruct (Game.get_current_player g) as [p|] eqn:Hp; [|done].
  intros Hexec. exists p. split; [done|].
  match goal with |- turn_result ?g1 _ _ _ =>
    assert (Game.get_current_player g1 = Some p) as Hp1 by done end.
  destruct (Action.action_type a).
  - injection Hexec as Hexec.
    by apply execute_take_different_gems_turn in Hexec as [? _].
  - injection Hexec as Hexec.
    by apply execute_take_same_gems_turn in Hexec as [? _].
  - injection Hexec as Hexec.
    by apply execute_reserve_card_turn in Hexec as [? _].
  - by apply execute_buy_card_turn in Hexec.
  - by apply execute_buy_reserved_card_turn in Hexec.
Qed.

(** ** The invariant of reachable states *)

Lemma sum_with_app {A} (f : A -> Z) l1 l2 :
  sum_with f (l1 ++ l2) = sum_with f l1 + sum_with f l2.
Proof. induction l1 as [|x l1 IH]; simpl; [done|]. rewrite IH. lia. Qed.

Lemma sum_with_insert {A} (f : A -> Z) l i x y :
  l !! i = Some x -> sum_with f (<[i:=y]> l) = sum_with f l - f x + f y.
Proof.
  revert i. induction l as [|z l IH]; intros [|i]; simpl; try done.
  - intros [= ->]. lia.
  - intros Hi. rewrite (IH i Hi). lia.
Qed.

Lemma concat_map_insert {A B} (f : A -> list B) l i x y :
  l !! i = Some x ->
  concat (map f (<[i:=y]> l)) ++ f x ≡ₚ concat (map f l) ++ f y.
Proof.
  revert i. induction l as [|z l IH]; intros [|i]; simpl; try done.
  - intros [= ->]. solve_Permutation.
  - intros Hi. rewrite <- !app_assoc. by rewrite (IH i Hi).
Qed.

Lemma concat_map_lookup {A B} (f : A -> list B) l i x :
  l !! i = Some x -> f x ⊆ concat (map f l).
Proof.
  revert i. induction l as [|z l IH]; intros [|i]; simpl; try done.
  - intros [= ->] b Hb. apply elem_of_app. by left.
  - intros Hi b Hb. apply elem_of_app. right. by apply (IH i Hi).
Qed.

#[global] Instance cost_wf_dec card : Decision (Card.cost_wf card).
Proof. unfold Card.cost_wf. apply _. Defined.

Lemma catalog_cost_wf : Forall Card.cost_wf Card.create_standard_cards.
Proof. apply (bool_decide_unpack _). by vm_compute. Qed.

Lemma catalog_NoDup : NoDup Card.create_standard_cards.
Proof. apply (bool_decide_unpack _). by vm_compute. Qed.

Lemma invariant_turn g g' p p' b' :
  invariant g ->
  Game.players g !! Game.current_player_index g = Some p ->
  Game.players g' = <[Game.current_player_index g := p']> (Game.players g) ->
  Game.board g' = b' ->
  Game.current_player_index g' = Game.current_player_index g ->
  moves p (Game.board g) p' b' ->
  (Forall Card.cost_wf (hand p ++ table (Game.board g)) -> hand_ok p -> hand_ok p') ->
  keeps p (Game.board g) p' b' ->
  (Game.last_round g' = true -> is_Some (Game.last_player_index g')) ->
  invariant g'.
Proof.
  intros [Htok Hcards Hlev Hhands Hseat Hlast Hres Hpool [Hnb Hnp]]
         Hp Hps Hb Hc (Hg & Hperm & Hl) Hok (Hk1 & Hk2 & Hk3) Hlr.
  assert (Game.num_players g' = Game.num_players g) as Hn.
  { unfold Game.num_players. by rewrite Hps, length_insert. }
  assert (cards_in_game g' ≡ₚ cards_in_game g) as Hcg.
  { unfold cards_in_game. rewrite Hps, Hb.
    apply (Permutation_app_inv_l (hand p)).
    transitivity ((concat (map hand (<[Game.current_player_index g:=p']> (Game.players g)))
                   ++ hand p) ++ table b'); [solve_Permutation|].
    rewrite (concat_map_insert hand _ _ _ _ Hp).
    transitivity (concat (map hand (Game.players g)) ++ (hand p' ++ table b'));
      [solve_Permutation|].
    rewrite Hperm. solve_Permutation. }
  assert (p ∈ Game.players g) as Hpin by (by eapply list_elem_of_lookup_2).
  assert (Forall Card.cost_wf (hand p ++ table (Game.board g))) as Hwf.
  { apply Forall_forall. intros card Hin.
    pose proof catalog_cost_wf as Hwf. rewrite Forall_forall in Hwf.
    apply Hwf. rewrite <- Hcards. unfold cards_in_game.
    apply elem_of_app in Hin as [Hin|Hin]; apply elem_of_app; [left|by right].
    by apply (concat_map_lookup hand _ _ _ Hp). }
  assert (hand_ok p) as Hhp.
  { rewrite Forall_forall in Hhands. by apply Hhands. }
  assert (Forall (fun noble => 0 <= Noble.points noble) (b'.(Board.nobles) ++ Player.nobles p'))
    as [Hnb' Hnp']%Forall_app.
  { apply Hk3. apply Forall_app. split; [done|].
    rewrite Forall_forall in Hnp. by apply Hnp. }
  split.
  - intros color. rewrite Hn, <- Htok. unfold tokens_in_game.
    rewrite Hps, Hb, (sum_with_insert _ _ _ _ _ Hp). specialize (Hg color). lia.
  - by rewrite Hcg.
  - rewrite Hb. by apply Hl.
  - rewrite Hps. apply Forall_insert; [done|]. by apply Hok.
  - intros Hne. rewrite Hn, Hc. apply Hseat. intros Hnil.
    rewrite Hnil in Hp. done.
  - done.
  - rewrite Hps. apply Forall_insert; [done|]. apply Hk1.
    rewrite Forall_forall in Hres. by apply Hres.
  - rewrite Hb. by apply Hk2.
  - rewrite Hps, Hb. split; [done|]. by apply Forall_insert.
Qed.

Lemma invariant_execute_action rnd g a ok g' :
  invariant g -> Game.execute_action rnd g a = Some (ok, g') -> invariant g'.
Proof.
  intros Hinv Hexec.
  assert (Game.last_round g' = true -> is_Some (Game.last_player_index g')) as Hlr.
  { revert Hexec. unfold Game.execute_action.
    destruct (Game.get_current_player g) as [p|] eqn:Hp; [|done].
    pose proof (inv_last_round g Hinv) as Hlast.
    destruct (Action.action_type a).
    - intros [= Hexec]. eapply execute_take_different_gems_turn in Hexec
        as (_ & _ & -> & -> & _); done.
    - intros [= Hexec]. eapply execute_take_same_gems_turn in Hexec
        as (_ & _ & -> & -> & _); done.
    - intros [= Hexec]. eapply execute_reserve_card_turn in Hexec
        as (_ & _ & -> & -> & _); done.
    - unfold Game._execute_buy_card.
      repeat (case_match; try (intros [= <- <-]; exact Hlast)); try done.
      intros [= <- <-]. eapply check_game_end_last_round; [|eassumption]. done.
    - unfold Game._execute_buy_reserved_card.
      repeat (case_match; try (intros [= <- <-]; exact Hlast)); try done.
      intros [= <- <-]. eapply check_game_end_last_round; [|eassumption]. done. }
  apply execute_action_turn in Hexec
    as (p & Hp & p' & b' & Hps & Hb & Hc & _ & _ & Hm & Hok & _ & Hk).
  fields. by eapply (invariant_turn g g' p p' b').
Qed.

Lemma invariant_next_player g g' :
  invariant g -> Game.next_player g = Some g' -> invariant g'.
Proof.
  intros [Htok Hcards Hlev Hhands Hseat Hlast Hres Hpool Hnob].
  unfold Game.next_player.
  case_decide as Hn; [done|].
  intros [= <-].
  assert (forall r : Z, invariant
            (Game.mk (Game.players g) (Game.board g)
               ((Game.current_player_index g + 1) `mod` Game.num_players g)
               r (Game.game_over g) (Game.winner g) (Game.last_round g)
               (Game.last_player_index g) (Game.history g))) as Hinv.
  { intros r. split; try done. intros _. simpl.
    by apply Nat.mod_upper_bound. }
  case_decide; apply Hinv.
Qed.

(** *** The fresh game *)

Lemma deal_step_frame b level :
  Board.gems (Board.deal_step b level) = Board.gems b
  /\ Board.nobles (Board.deal_step b level) = Board.nobles b
  /\ forall l, zone (Board.deal_step b level) l ≡ₚ zone b l.
Proof.
  unfold Board.deal_step.
  destruct (list_pop _) as [[deck card]|] eqn:Hpop; [|done].
  apply list_pop_Some in Hpop. repeat split; try done.
  intros l. unfold zone. simpl. destruct (decide (l = level)) as [->|Hne].
  - rewrite !piles_set_eq, Hpop. solve_Permutation.
  - by rewrite !piles_set_ne.
Qed.

Lemma deal_frame n b level :
  Board.gems (Nat.iter n (fun b => Board.deal_step b level) b) = Board.gems b
  /\ forall l, zone (Nat.iter n (fun b => Board.deal_step b level) b) l ≡ₚ zone b l.
Proof.
  induction n as [|n [IHg IHz]]; simpl; [done|].
  destruct (deal_step_frame (Nat.iter n (fun b => Board.deal_step b level) b) level)
    as (Hg & _ & Hz).
  split; [congruence|]. intros l. by rewrite Hz, IHz.
Qed.

Lemma deal_all_frame b0 :
  Board.gems (fold_left (fun b level => Nat.iter 4 (fun b => Board.deal_step b level) b)
                        levels b0) = Board.gems b0
  /\ forall l,
       zone (fold_left (fun b level => Nat.iter 4 (fun b => Board.deal_step b level) b)
                       levels b0) l ≡ₚ zone b0 l.
Proof.
  unfold levels. cbn [fold_left].
  destruct (deal_frame 4 b0 L1) as [G1 Z1].
  destruct (deal_frame 4 (Nat.iter 4 (fun b => Board.deal_step b L1) b0) L2) as [G2 Z2].
  destruct (deal_frame 4 (Nat.iter 4 (fun b => Board.deal_step b L2)
                            (Nat.iter 4 (fun b => Board.deal_step b L1) b0)) L3)
    as [G3 Z3].
  split; [by rewrite G3, G2, G1|]. intros l. by rewrite Z3, Z2, Z1.
Qed.

Lemma board_init_frame n rng :
  valid_shuffler rng ->
  Board.gems (Board.init n rng) = Board._initialize_gems n
  /\ forall l,
       zone (Board.init n rng) l
       ≡ₚ filter (fun card => Card.level card = level_value l)
                 Card.create_standard_cards.
Proof.
  intros [Hsh _]. unfold Board.init. cbv zeta.
  match goal with |- context [fold_left ?f levels ?b0] =>
    destruct (deal_all_frame b0) as [Hg Hz]; revert Hg Hz;
    generalize (fold_left f levels b0) end.
  intros b1 Hg Hz. split.
  - exact Hg.
  - intros l. transitivity (zone b1 l); [done|]. rewrite Hz.
    unfold zone. cbn [Board.card_decks Board.displayed_cards].
    by rewrite app_nil_r, Hsh.
Qed.

Lemma board_init_nobles n rng :
  Board.nobles (Board.init n rng)
  = take (n + 1) (shuffle_nobles rng Noble.create_standard_nobles).
Proof. reflexivity. Qed.

Lemma new_players_hands seats :
  concat (map hand (map (fun s : string * string => Player.new s.1 s.2) seats)) = [].
Proof. induction seats as [|s seats IH]; simpl; done. Qed.

Lemma new_players_tokens seats color :
  sum_with (fun p => Player.gems p color)
           (map (fun s : string * string => Player.new s.1 s.2) seats) = 0.
Proof. induction seats as [|s seats IH]; simpl; [done|]. rewrite IH. done. Qed.

Lemma catalog_by_level :
  filter (fun card => Card.level card = level_value L1) Card.create_standard_cards
  ++ filter (fun card => Card.level card = level_value L2) Card.create_standard_cards
  ++ filter (fun card => Card.level card = level_value L3) Card.create_standard_cards
  = Card.create_standard_cards.
Proof. by vm_compute. Qed.

Lemma invariant_init seats rng :
  valid_shuffler rng ->
  invariant (Game.init (map (fun s => Player.new s.1 s.2) seats) rng).
Proof.
  intros Hrng.
  destruct (board_init_frame (length (map (fun s : string * string => Player.new s.1 s.2) seats))
              rng Hrng) as [Hg Hz].
  unfold Game.init. split.
  - intros color. unfold tokens_in_game, Game.num_players. fields.
    rewrite new_players_tokens, Hg. lia.
  - unfold cards_in_game. fields. rewrite new_players_hands, app_nil_l.
    unfold table. rewrite !Hz. by rewrite catalog_by_level.
  - fields. intros l. rewrite Hz. apply Forall_forall.
    by intros card [? _]%list_elem_of_filter.
  - fields. apply Forall_forall. intros p (s & -> & _)%list_elem_of_fmap.
    split; [done|]. by vm_compute.
  - unfold Game.num_players. fields. intros Hne.
    destruct (map _ seats); [done|cbn [length]; lia].
  - fields. done.
  - fields. apply Forall_forall. intros p (s & -> & _)%list_elem_of_fmap.
    cbn. lia.
  - fields. intros color. rewrite Hg. unfold Board._initialize_gems.
    case_decide; [lia|]. repeat case_match; lia.
  - fields. split.
    + rewrite board_init_nobles. apply Forall_take.
      destruct Hrng as [_ Hsh]. rewrite Hsh.
      repeat constructor; by vm_compute.
    + apply Forall_forall. intros p (s & -> & _)%list_elem_of_fmap. constructor.
Qed.

Lemma reachable_invariant g : reachable g -> invariant g.
Proof.
  induction 1 as [seats rng Hrng|g g' _ IH Hstep].
  - by apply invariant_init.
  - destruct Hstep as [rnd g a ok g' Hexec|g g' Hnext].
    + by eapply invariant_execute_action.
    + by eapply invariant_next_player.
Qed.

(** ** Token conservation *)

(** X1.  In every state reachable from a fresh game by calls of
    [execute_action] (with the discard loop and the noble visit they
    contain) and of [next_player], the tokens of every colour in the pool
    and in the players' hands add up to the supply the board started with
    for that number of players. *)
Theorem token_conservation (g : Game.t) (color : GemColor) :
  reachable g ->
  tokens_in_game g color = Board._initialize_gems (Game.num_players g) color.
Proof. intros Hg. by apply reachable_invariant. Qed.

Lemma token_conservation_witness :
  exists g,
    Game.execute_action [] sample_game (Action.take_same_gems RED) = Some (true, g)
    /\ reachable g
    /\ tokens_in_game g RED = Board._initialize_gems (Game.num_players g) RED.
Proof.
  assert (reachable sample_game) as Hr.
  { apply (reachable_init [("a", "A"); ("b", "B")] identity_shuffler). by split. }
  assert (fst <$> Game.execute_action [] sample_game (Action.take_same_gems RED)
          = Some true) as Hok by (vm_compute; reflexivity).
  destruct (Game.execute_action [] sample_game (Action.take_same_gems RED))
    as [[ok g]|] eqn:Hexec; [|discriminate Hok].
  injection Hok as ->. exists g. split; [reflexivity|].
  assert (reachable g) as Hg.
  { eapply reachable_step; [exact Hr|]. eapply step_execute_action. exact Hexec. }
  split; [exact Hg|]. exact (token_conservation g RED Hg).
Defined.

(** ** Every card is in one place *)

Lemma copies_app card l1 l2 :
  copies card (l1 ++ l2) = (copies card l1 + copies card l2)%nat.
Proof. unfold copies. by rewrite filter_app, length_app. Qed.

Lemma copies_perm card l1 l2 : l1 ≡ₚ l2 -> copies card l1 = copies card l2.
Proof. intros Hperm. unfold copies. by rewrite Hperm. Qed.

Lemma copies_absent card l : card ∉ l -> copies card l = 0%nat.
Proof.
  intros Hnot. unfold copies. rewrite filter_none; [done|].
  apply Forall_forall. intros c Hc ->. done.
Qed.

Lemma copies_NoDup card l : NoDup l -> card ∈ l -> copies card l = 1%nat.
Proof.
  induction 1 as [|c l Hc Hnd IH]; intros Hin; [by apply elem_of_nil in Hin|].
  change (c :: l) with ([c] ++ l). rewrite copies_app.
  destruct (decide (c = card)) as [->|Hne].
  - rewrite (copies_absent card l Hc). unfold copies.
    by rewrite filter_cons, decide_True.
  - apply elem_of_cons in Hin as [->|Hin]; [done|]. rewrite (IH Hin).
    unfold copies. by rewrite filter_cons, decide_False.
Qed.

Lemma copies_positive card l : (0 < copies card l)%nat -> card ∈ l.
Proof.
  intros Hpos. destruct (decide (card ∈ l)) as [|Hnot]; [done|].
  rewrite copies_absent in Hpos by done. lia.
Qed.

Lemma where_length (F : Location -> list Card.t) card locs :
  length (flat_map (fun loc => map (fun _ => loc) (filter (fun c => c = card) (F loc)))
                   locs)
  = copies card (concat (map F locs)).
Proof.
  induction locs as [|loc locs IH]; [done|].
  cbn [flat_map map concat]. rewrite length_app, length_map, copies_app, IH. done.
Qed.

Lemma seats_concat {A B} (f : A -> list B) (l : list A) :
  concat (map (fun i => from_option f [] (l !! i)) (seq 0 (length l)))
  = concat (map f l).
Proof.
  induction l as [|x l IH]; [done|].
  cbn [length seq map concat]. f_equal.
  rewrite <- seq_shift, map_map. exact IH.
Qed.

Lemma hands_split ps :
  concat (map hand ps)
  ≡ₚ concat (map Player.reserved_cards ps) ++ concat (map Player.cards ps).
Proof.
  induction ps as [|p ps IH]; [done|].
  cbn [map concat]. rewrite IH. unfold hand. solve_Permutation.
Qed.

Lemma locations_cards g :
  concat (map (cards_at g) (locations g)) ≡ₚ cards_in_game g.
Proof.
  assert (concat (map (cards_at g) (map ReservedBy (seq 0 (Game.num_players g))))
          = concat (map Player.reserved_cards (Game.players g))) as Hres.
  { rewrite map_map. exact (seats_concat Player.reserved_cards (Game.players g)). }
  assert (concat (map (cards_at g) (map OwnedBy (seq 0 (Game.num_players g))))
          = concat (map Player.cards (Game.players g))) as Hown.
  { rewrite map_map. exact (seats_concat Player.cards (Game.players g)). }
  unfold locations, cards_in_game.
  rewrite !map_app, !concat_app, Hres, Hown, hands_split.
  unfold levels, table, zone. cbn [map concat cards_at]. solve_Permutation.
Qed.

Lemma where_is_length g card :
  length (where_is g card) = copies card (cards_in_game g).
Proof.
  unfold where_is. rewrite where_length. apply copies_perm, locations_cards.
Qed.

Lemma where_is_elem g card loc :
  loc ∈ where_is g card -> card ∈ cards_at g loc.
Proof.
  unfold where_is. rewrite list_elem_of_In, in_flat_map.
  intros (loc' & _ & Hin). apply in_map_iff in Hin as (c & -> & Hc).
  apply list_elem_of_In, list_elem_of_filter in Hc as [-> Hc]. done.
Qed.

(** X2.  In every reachable state a card of the catalogue is in exactly one
    place, once: one deck, one display, one player's reserved list or one
    player's owned list; when that place is a deck or a display, it is the
    one of the card's level.  A card that is not in the catalogue is
    nowhere. *)
Theorem card_in_one_place (g : Game.t) (card : Card.t) :
  reachable g ->
  (card ∈ Card.create_standard_cards ->
   exists loc,
     where_is g card = [loc]
     /\ copies card (cards_at g loc) = 1%nat
     /\ (forall level, loc = InDeck level \/ loc = OnDisplay level ->
                       Card.level card = level_value level))
  /\ (card ∉ Card.create_standard_cards -> where_is g card = []).
Proof.
  intros Hinv%reachable_invariant.
  pose proof (where_is_length g card) as Hlen.
  rewrite (copies_perm _ _ _ (inv_cards g Hinv)) in Hlen.
  split.
  - intros Hin. rewrite (copies_NoDup _ _ catalog_NoDup Hin) in Hlen.
    destruct (where_is g card) as [|loc [|? ?]] eqn:Hw; try done.
    exists loc. split; [done|].
    assert (card ∈ cards_at g loc) as Hat.
    { apply where_is_elem. rewrite Hw. by left. }
    split.
    + unfold where_is in Hw.
      assert (copies card (cards_at g loc) <= 1)%nat as Hle.
      { pose proof (locations_cards g) as Hloc.
        assert (loc ∈ locations g) as Hl.
        { assert (loc ∈ where_is g card) as Hw' by (unfold where_is; rewrite Hw; by left).
          unfold where_is in Hw'. rewrite list_elem_of_In, in_flat_map in Hw'.
          destruct Hw' as (loc' & Hloc' & Hin').
          apply in_map_iff in Hin' as (c & -> & _). by apply list_elem_of_In. }
        apply list_elem_of_split in Hl as (l1 & l2 & Hl).
        pose proof (copies_perm card _ _ Hloc) as Hc.
        rewrite Hl, map_app, concat_app, copies_app in Hc.
        cbn [map concat] in Hc. rewrite copies_app in Hc.
        rewrite (copies_perm _ _ _ (inv_cards g Hinv)) in Hc.
        rewrite (copies_NoDup _ _ catalog_NoDup Hin) in Hc. lia. }
      assert (0 < copies card (cards_at g loc))%nat; [|lia].
      unfold copies. destruct (filter _ _) eqn:Hf; [|simpl; lia].
      exfalso. eapply filter_nil_not_elem_of; [exact Hf| |exact Hat]. done.
    + pose proof (inv_levels g Hinv) as Hlev.
      intros level [->| ->]; simpl in Hat;
        specialize (Hlev level); rewrite Forall_forall in Hlev;
        apply Hlev; unfold zone; apply elem_of_app; [by left|by right].
  - intros Hnot. rewrite (copies_absent _ _ Hnot) in Hlen.
    by apply nil_length_inv.
Qed.

Lemma card_in_one_place_witness :
  reachable sample_game
  /\ card_L1_K3 ∈ Card.create_standard_cards
  /\ where_is sample_game card_L1_K3 = [OnDisplay L1]
  /\ exists loc, where_is sample_game card_L1_K3 = [loc]
                 /\ copies card_L1_K3 (cards_at sample_game loc) = 1%nat.
Proof.
  assert (reachable sample_game) as Hr.
  { apply (reachable_init [("a", "A"); ("b", "B")] identity_shuffler). by split. }
  assert (card_L1_K3 ∈ Card.create_standard_cards) as Hin.
  { apply (bool_decide_unpack _). by vm_compute. }
  split; [exact Hr|]. split; [exact Hin|]. split; [by vm_compute|].
  destruct (proj1 (card_in_one_place sample_game card_L1_K3 Hr) Hin)
    as (loc & Hw & Hc & _).
  exists loc. by split.
Defined.

(** ** Hands, reserves and the pool between turns *)

Lemma sample_game_reachable : reachable sample_game.
Proof.
  apply (reachable_init [("a", "A"); ("b", "B")] identity_shuffler). by split.
Qed.








(** ** What [execute_action] records and what a failure leaves alone *)

Lemma execute_action_Some rnd g a :
  engine_ready g -> is_Some (Game.execute_action rnd g a).
Proof.
  intros [[p Hp] Hlast]. unfold Game.execute_action. rewrite Hp.
  assert (forall h p' b',
             is_Some (Game._check_game_end (Game.store (Game.set_history g h) p' b')))
    as Hend.
  { intros h p' b'. apply check_game_end_Some; fields; [|done].
    intros Hnil. apply (f_equal length) in Hnil.
    rewrite length_insert in Hnil. apply lookup_lt_Some in Hp.
    simpl in Hnil. lia. }
  destruct (Action.action_type a); try by eexists.
  - unfold Game._execute_buy_card.
    repeat (case_match; try by eexists).
    all: match goal with
         | H : Game._check_game_end (Game.store (Game.set_history _ ?h) ?p' ?b') = None |- _ =>
             destruct (Hend h p' b') as [? Hsome]; congruence
         end.
  - unfold Game._execute_buy_reserved_card.
    repeat (case_match; try by eexists).
    all: match goal with
         | H : Game._check_game_end (Game.store (Game.set_history _ ?h) ?p' ?b') = None |- _ =>
             destruct (Hend h p' b') as [? Hsome]; congruence
         end.
Qed.

(** X6.  Whenever the current seat is taken (and [last_player_index] exists
    once [last_round] is set), [execute_action] returns without raising,
    appends exactly one record to the history (the round number, the
    acting player's id, the action's description and its dict form), and
    leaves the current seat and the round number alone; when it returns
    [False] the board and every player are what they were. *)
Theorem execute_action_log (rnd : list nat) (g : Game.t) (a : Action.t) :
  engine_ready g ->
  exists p ok g',
    Game.get_current_player g = Some p
    /\ Game.execute_action rnd g a = Some (ok, g')
    /\ Game.history g'
       = Game.history g
         ++ [Game.mkRecord (Game.round_number g) (Player.player_id p)
                           (Action.str a) (Action.to_dict a)]
    /\ Game.current_player_index g' = Game.current_player_index g
    /\ Game.round_number g' = Game.round_number g
    /\ (ok = false ->
        Game.board g' = Game.board g /\ Game.players g' = Game.players g).
Proof.
  intros Hready. destruct (execute_action_Some rnd g a Hready) as [[ok g'] Hexec].
  destruct (execute_action_turn _ _ _ _ _ Hexec)
    as (p & Hp & p' & b' & Hps & Hb & Hc & Hr & Hh & _ & _ & Hfail & _).
  exists p, ok, g'. fields. do 5 (split; [done|]).
  intros Hok. destruct (Hfail Hok) as [-> ->]. split; [done|].
  rewrite Hps. by apply list_insert_id.
Qed.

Lemma execute_action_log_witness :
  engine_ready sample_game
  /\ exists ok g',
       Game.execute_action [] sample_game (Action.buy_card 1 "L1_K4") = Some (ok, g')
       /\ length (Game.history g') = 1%nat
       /\ ok = false
       /\ Game.board g' = Game.board sample_game.
Proof.
  assert (engine_ready sample_game) as Hready.
  { split; [by eexists|done]. }
  split; [exact Hready|].
  destruct (execute_action_log [] sample_game (Action.buy_card 1 "L1_K4") Hready)
    as (p & ok & g' & _ & Hexec & Hh & _ & _ & Hfail).
  exists ok, g'. split; [exact Hexec|]. split; [by rewrite Hh|].
  assert (ok = false) as ->.
  { assert (fst <$> Game.execute_action [] sample_game (Action.buy_card 1 "L1_K4")
            = Some false) as Hf by (vm_compute; reflexivity).
    rewrite Hexec in Hf. by injection Hf. }
  split; [reflexivity|]. by apply Hfail.
Defined.

(** X7.  Taking gems and reserving never touch the end of the game: after
    [execute_action] on an action of one of these three kinds, whatever it
    returns, [game_over], [last_round], [last_player_index] and [winner] are
    what they were.  [_check_game_end] runs on purchases only. *)
Theorem gem_actions_keep_end_flags (rnd : list nat) (g : Game.t) (a : Action.t)
    (ok : bool) (g' : Game.t) :
  Action.action_type a ≠ Action.BUY_CARD ->
  Action.action_type a ≠ Action.BUY_RESERVED_CARD ->
  Game.execute_action rnd g a = Some (ok, g') ->
  Game.game_over g' = Game.game_over g
  /\ Game.last_round g' = Game.last_round g
  /\ Game.last_player_index g' = Game.last_player_index g
  /\ Game.winner g' = Game.winner g.
Proof.
  intros Hbuy Hbuyr. unfold Game.execute_action.
  destruct (Game.get_current_player g) as [p|] eqn:Hp; [|done].
  destruct (Action.action_type a); try done.
  - intros [= Hexec]. by eapply execute_take_different_gems_turn in Hexec as [_ ?].
  - intros [= Hexec]. by eapply execute_take_same_gems_turn in Hexec as [_ ?].
  - intros [= Hexec]. by eapply execute_reserve_card_turn in Hexec as [_ ?].
Qed.

Lemma gem_actions_keep_end_flags_witness :
  exists g',
    Game.execute_action [] sample_game (Action.reserve_from_deck 3) = Some (true, g')
    /\ Game.game_over g' = Game.game_over sample_game
    /\ Game.last_round g' = Game.last_round sample_game.
Proof.
  assert (fst <$> Game.execute_action [] sample_game (Action.reserve_from_deck 3)
          = Some true) as Hok by (vm_compute; reflexivity).
  destruct (Game.execute_action [] sample_game (Action.reserve_from_deck 3))
    as [[ok g']|] eqn:Hexec; [|discriminate Hok].
  injection Hok as ->. exists g'. split; [reflexivity|].
  destruct (gem_actions_keep_end_flags [] sample_game (Action.reserve_from_deck 3)
              true g') as (Hgo & Hlr & _); [done|done|exact Hexec|].
  by split.
Defined.

(** ** Taking different gems ([Game._execute_take_different_gems]) *)

Lemma collect_gems_get b colors acc d c :
  Game.collect_gems b colors acc = Some d ->
  dict_get d c 0 = if decide (c ∈ colors) then 1 else dict_get acc c 0.
Proof.
  revert acc. induction colors as [|color colors IH]; intros acc;
    cbn [Game.collect_gems].
  - intros [= <-]. rewrite decide_False; [done|]. apply not_elem_of_nil.
  - destruct (_ <=? _); [done|]. intros Hd. rewrite (IH _ Hd).
    destruct (decide (c ∈ colors)) as [Hin|Hnot].
    + rewrite decide_True; [done|by right].
    + destruct (decide (c = color)) as [->|Hne].
      * rewrite dict_get_set_eq, decide_True; [done|by left].
      * rewrite dict_get_set_ne by done. rewrite decide_False; [done|].
        by intros [?|?]%elem_of_cons.
Qed.

Lemma check_and_discard_gems_noop rnd p b :
  Player.get_total_gems p <= 10 -> Game._check_and_discard_gems rnd p b = (p, b).
Proof.
  intros Htot. unfold Game._check_and_discard_gems.
  by replace (Z.to_nat (Player.get_total_gems p - 10)) with 0%nat by lia.
Qed.

Lemma gems_total_add (g h : Gems) :
  gems_total (fun c => g c + h c) = gems_total g + gems_total h.
Proof. rewrite !gems_total_unfold. lia. Qed.

Lemma gems_total_single (x : GemColor) :
  gems_total (fun c => if decide (c = x) then 1 else 0) = 1.
Proof. by destruct x. Qed.

Lemma gems_total_indicator (colors : list GemColor) :
  gems_total (fun c => if decide (c ∈ colors) then 1 else 0)
  <= Z.of_nat (length colors).
Proof.
  induction colors as [|x colors IH].
  - etrans; [apply (gems_total_le _ (fun _ => 0))|by rewrite gems_total_unfold].
    intros c. rewrite decide_False; [done|]. apply not_elem_of_nil.
  - etrans.
    + apply (gems_total_le _ (fun c => (if decide (c = x) then 1 else 0)
                                       + (if decide (c ∈ colors) then 1 else 0))).
      intros c. destruct (decide (c ∈ x :: colors)) as [Hin|Hnot].
      * apply elem_of_cons in Hin as [->|Hin].
        -- rewrite decide_True by done. destruct (decide (x ∈ colors)); lia.
        -- rewrite (decide_True (P := c ∈ colors)) by done.
           destruct (decide (c = x)); lia.
      * destruct (decide (c = x)), (decide (c ∈ colors)); lia.
    + rewrite gems_total_add, gems_total_single. cbn [length]. lia.
Qed.

Lemma execute_take_different_gems_result (rnd : list nat) (g : Game.t) (a : Action.t)
    (p : Player.t) (ok : bool) (g' : Game.t) :
  Game.get_current_player g = Some p ->
  Action.action_type a = Action.TAKE_DIFFERENT_GEMS ->
  Game.execute_action rnd g a = Some (ok, g') ->
  (ok = false <->
   default [] (Action.colors a) = []
   \/ (3 < length (default [] (Action.colors a)))%nat
   \/ exists c, c ∈ default [] (Action.colors a) /\ Board.gems (Game.board g) c <= 0)
  /\ (ok = true -> Player.get_total_gems p <= 7 ->
      exists p',
        Game.get_current_player g' = Some p'
        /\ forall c,
             Player.gems p' c
             = Player.gems p c
               + (if decide (c ∈ default [] (Action.colors a)) then 1 else 0)
             /\ Board.gems (Game.board g') c
                = Board.gems (Game.board g) c
                  - (if decide (c ∈ default [] (Action.colors a)) then 1 else 0)).
Proof.
  intros Hp Hty. unfold Game.execute_action. rewrite Hp, Hty.
  unfold Game._execute_take_different_gems. fields.
  set (colors := default [] (Action.colors a)).
  case_bool_decide as Hnil; cbn [orb].
  { intros [= <- <-]. split; [by split; [left|]|done]. }
  case_bool_decide as Hlen; cbn [orb].
  { intros [= <- <-]. split; [split; [by right; left|done]|done]. }
  destruct (Game.collect_gems _ _ _) as [d|] eqn:Hcol.
  2:{ intros [= <- <-]. apply collect_gems_None in Hcol.
      split; [split; [by right; right|done]|done]. }
  assert (forall k v, (k, v) ∈ d -> v = 1 /\ 0 < Board.gems (Game.board g) k) as Hd.
  { apply (collect_gems_values _ _ _ _ Hcol).
    intros ? ? Hin. by apply elem_of_nil in Hin. }
  pose proof (take_gems_collected _ _ Hd) as Hok.
  destruct (Board.take_gems _ _) as [ok1 b1] eqn:Htake. simpl in Hok. subst ok1.
  cbn [negb].
  destruct (take_gems_spec _ _ _ _ Htake) as (bg & -> & Hbg).
  destruct (add_gems_spec p d) as (pg & -> & Hpg).
  assert (forall c, dict_sum d c = if decide (c ∈ colors) then 1 else 0) as Hsum.
  { intros c. rewrite dict_sum_get.
    - by rewrite (collect_gems_get _ _ _ _ c Hcol).
    - eapply collect_gems_NoDup; [exact Hcol|constructor]. }
  destruct (Game._check_and_discard_gems _ _ _) as [p2 b2] eqn:Hdis.
  intros [= <- <-]. split.
  { split; [done|]. intros [?|[?|(c & Hc & Hle)]]; [done|lia|].
    exfalso. assert (Game.collect_gems (Game.board g) colors [] = None) as Hnone.
    { apply collect_gems_None. by exists c. }
    congruence. }
  intros _ Htot.
  rewrite check_and_discard_gems_noop in Hdis.
  - injection Hdis as <- <-. eexists. split.
    + unfold Game.get_current_player. fields.
      apply list_lookup_insert_eq. by eapply lookup_lt_Some.
    + intros c. fields. by rewrite Hpg, Hbg, !Hsum.
  - unfold Player.get_total_gems in *. fields.
    assert (gems_total pg
            = gems_total (Player.gems p)
              + gems_total (fun c => if decide (c ∈ colors) then 1 else 0)) as ->.
    { rewrite !gems_total_unfold, !Hpg, !Hsum. lia. }
    pose proof (gems_total_indicator colors). lia.
Qed.


(** X8.  [execute_action] on a take-different-gems action fails exactly when
    the colour list is empty, has more than three entries or names a colour
    whose pool is empty; nothing else is checked, so Gold and repeated
    colours are accepted.  When it succeeds for a player holding at most 7
    tokens (no discard can follow), the player has one more token, and the
    pool one fewer, of every colour that occurs in the list, however often
    it occurs. *)
Theorem take_different_gems_outcome (rnd : list nat) (g : Game.t) (a : Action.t)
    (p : Player.t) :
  Game.get_current_player g = Some p ->
  Action.action_type a = Action.TAKE_DIFFERENT_GEMS ->
  exists ok g',
    Game.execute_action rnd g a = Some (ok, g')
    /\ (ok = false <->
        default [] (Action.colors a) = []
        \/ (3 < length (default [] (Action.colors a)))%nat
        \/ exists c, c ∈ default [] (Action.colors a)
                     /\ Board.gems (Game.board g) c <= 0)
    /\ (ok = true -> Player.get_total_gems p <= 7 ->
        exists p',
          Game.get_current_player g' = Some p'
          /\ forall c,
               Player.gems p' c
               = Player.gems p c
                 + (if decide (c ∈ default [] (Action.colors a)) then 1 else 0)
               /\ Board.gems (Game.board g') c
                  = Board.gems (Game.board g) c
                    - (if decide (c ∈ default [] (Action.colors a)) then 1 else 0)).
Proof.
  intros Hp Hty.
  destruct (Game.execute_action rnd g a) as [[ok g']|] eqn:Hexec.
  - exists ok, g'. split; [done|].
    by apply (execute_take_different_gems_result rnd g a p).
  - unfold Game.execute_action in Hexec. by rewrite Hp, Hty in Hexec.
Qed.

Lemma take_different_gems_outcome_witness :
  exists g' p',
    Game.execute_action [] sample_game
      (Action.take_different_gems [GOLD; WHITE; WHITE]) = Some (true, g')
    /\ Game.get_current_player g' = Some p'
    /\ Player.gems p' GOLD = 1 /\ Player.gems p' WHITE = 1
    /\ Board.gems (Game.board g') WHITE = 3.
Proof.
  destruct (take_different_gems_outcome [] sample_game
              (Action.take_different_gems [GOLD; WHITE; WHITE])
              sample_player) as (ok & g' & Hexec & _ & Hgain); [done|done|].
  assert (fst <$> Game.execute_action [] sample_game
                    (Action.take_different_gems [GOLD; WHITE; WHITE])
          = Some true) as Hok by (vm_compute; reflexivity).
  rewrite Hexec in Hok. injection Hok as ->.
  destruct Hgain as (p' & Hp' & Hc); [done|by vm_compute|].
  exists g', p'. split; [exact Hexec|]. split; [exact Hp'|].
  destruct (Hc GOLD) as [-> _]. destruct (Hc WHITE) as [-> ->].
  repeat split; reflexivity.
Defined.

(** ** The legal-action list ([Game.get_valid_actions], [Game.play_round]) *)

Lemma different_gems_actions_head g :
  exists cs rest,
    Game._get_different_gems_actions g = Action.take_different_gems cs :: rest
    /\ (forall c, c ∈ cs -> c ≠ GOLD /\ 0 < Board.gems (Game.board g) c)
    /\ ((forall c, c ≠ GOLD -> Board.gems (Game.board g) c <= 0) -> cs = []).
Proof.
  unfold Game._get_different_gems_actions.
  set (available := filter _ basic_colors).
  assert (forall c, c ∈ available -> c ≠ GOLD /\ 0 < Board.gems (Game.board g) c)
    as Havail.
  { intros c [Hpos Hin]%list_elem_of_filter. split; [|done].
    intros ->. unfold basic_colors in Hin.
    repeat (apply elem_of_cons in Hin as [?|Hin]; [done|]).
    by apply elem_of_nil in Hin. }
  assert ((forall c, c ≠ GOLD -> Board.gems (Game.board g) c <= 0) -> available = [])
    as Hnone.
  { intros Hno. destruct available as [|c ?] eqn:Hav; [done|].
    destruct (Havail c) as [Hc Hpos]; [by left|]. specialize (Hno c Hc). lia. }
  case_bool_decide as Hlen.
  - exists available, []. by split.
  - destruct available as [|c1 [|c2 [|c3 [|c4 rest]]]]; cbn [length] in Hlen;
      try lia.
    exists [c1; c2; c3]. eexists. split; [by cbn|]. split.
    + intros c Hc. apply Havail.
      repeat (apply elem_of_cons in Hc as [->|Hc];
              [repeat (first [by left | right])|]).
      by apply elem_of_nil in Hc.
    + intros Hno. by specialize (Hnone Hno).
Qed.

Lemma valid_actions_nonempty g p :
  Game.get_current_player g = Some p ->
  exists a rest, Game.get_valid_actions g = Some (a :: rest).
Proof.
  intros Hp. unfold Game.get_valid_actions. rewrite Hp.
  destruct (different_gems_actions_head g) as (cs & rest & -> & _).
  by eexists _, _.
Qed.

(** X9.  [get_valid_actions] never returns an empty list: its first entry
    is always a take-different-gems action over colours that are not Gold
    and are present in the pool.  When no such colour is left, that entry
    has the empty colour list, and [execute_action] rejects it. *)
Theorem valid_actions_never_empty (g : Game.t) (p : Player.t) :
  Game.get_current_player g = Some p ->
  exists cs rest,
    Game.get_valid_actions g = Some (Action.take_different_gems cs :: rest)
    /\ (forall c, c ∈ cs -> c ≠ GOLD /\ 0 < Board.gems (Game.board g) c)
    /\ ((forall c, c ≠ GOLD -> Board.gems (Game.board g) c <= 0) ->
        cs = []
        /\ forall rnd,
             (fst <$> Game.execute_action rnd g (Action.take_different_gems cs))
             = Some false).
Proof.
  intros Hp. unfold Game.get_valid_actions. rewrite Hp.
  destruct (different_gems_actions_head g) as (cs & rest & -> & Hcs & Hnone).
  exists cs. eexists. split; [reflexivity|]. split; [done|].
  intros Hno. specialize (Hnone Hno) as ->. split; [done|].
  intros rnd. unfold Game.execute_action. by rewrite Hp.
Qed.

Lemma valid_actions_never_empty_witness :
  exists rest,
    Game.get_valid_actions sample_game
    = Some (Action.take_different_gems [WHITE; BLUE; GREEN] :: rest).
Proof.
  destruct (valid_actions_never_empty sample_game sample_player)
    as (cs & rest & Hvalid & _); [done|].
  assert (Game.get_valid_actions sample_game
          = Some (Action.take_different_gems [WHITE; BLUE; GREEN]
                    :: tl (default [] (Game.get_valid_actions sample_game)))) as Heq
      by (vm_compute; reflexivity).
  eexists. exact Heq.
Defined.

Lemma next_player_history g g' :
  Game.next_player g = Some g' ->
  Game.history g' = Game.history g
  /\ Game.players g' = Game.players g
  /\ Game.board g' = Game.board g
  /\ Game.current_player_index g'
     = ((Game.current_player_index g + 1) mod Game.num_players g)%nat.
Proof.
  unfold Game.next_player. case_decide; [done|].
  intros [= <-]. by case_decide.
Qed.

(** X10.  [play_round] returns whenever the current seat is taken (and
    [last_player_index] exists once [last_round] is set).  While the game
    is not over it always attempts an action from the legal list (the
    branch that skips a player is never taken): it appends one history
    record; it returns [True] and moves to the next seat when the action
    succeeded, and returns [False] with the same seat, board and players
    when it failed.  When the game is over it returns [False] and changes
    nothing. *)
Theorem play_round_attempts_action (rnd : list nat) (g : Game.t) :
  engine_ready g ->
  exists ok g',
    Game.play_round rnd g = Some (ok, g')
    /\ (Game.game_over g = true -> ok = false /\ g' = g)
    /\ (Game.game_over g = false ->
        length (Game.history g') = S (length (Game.history g))
        /\ (ok = true ->
            Game.current_player_index g'
            = ((Game.current_player_index g + 1) mod Game.num_players g)%nat)
        /\ (ok = false ->
            Game.current_player_index g' = Game.current_player_index g
            /\ Game.board g' = Game.board g
            /\ Game.players g' = Game.players g)).
Proof.
  intros Hready. pose proof Hready as [[p Hp] _].
  unfold Game.play_round. destruct (Game.game_over g).
  { exists false, g. by repeat split. }
  destruct (valid_actions_nonempty g p Hp) as (a0 & rest & ->).
  destruct (random_choice _ _) as [a|] eqn:Hchoice.
  2:{ by apply random_choice_None in Hchoice. }
  destruct (execute_action_Some (tl rnd) g a Hready) as [[ok1 g1] Hexec].
  rewrite Hexec.
  destruct (execute_action_turn _ _ _ _ _ Hexec)
    as (p1 & Hp1 & p' & b' & Hps & Hb & Hc & _ & Hh & _ & _ & Hfail & _).
  fields.
  assert (p1 = p) as -> by congruence.
  assert (Game.num_players g1 = Game.num_players g) as Hn.
  { unfold Game.num_players. by rewrite Hps, length_insert. }
  assert (Game.num_players g ≠ 0%nat) as Hpos.
  { unfold Game.num_players. apply lookup_lt_Some in Hp. lia. }
  destruct ok1.
  - destruct (Game.next_player g1) as [g2|] eqn:Hnext.
    2:{ unfold Game.next_player in Hnext. rewrite Hn in Hnext.
        by case_decide. }
    exists true, g2. split; [done|]. split; [done|]. intros _.
    apply next_player_history in Hnext as (Hh2 & _ & _ & Hc2).
    rewrite Hh2, Hh, length_app. cbn [length].
    split; [lia|]. split; [|done]. intros _. by rewrite Hc2, Hc, Hn.
  - exists false, g1. split; [done|]. split; [done|]. intros _.
    rewrite Hh, length_app. cbn [length]. split; [lia|]. split; [done|].
    intros _. destruct (Hfail eq_refl) as [-> ->].
    split; [done|]. split; [done|]. rewrite Hps.
    by apply list_insert_id.
Qed.

Lemma play_round_attempts_action_witness :
  exists g',
    Game.play_round [0%nat] sample_game = Some (true, g')
    /\ length (Game.history g') = 1%nat
    /\ Game.current_player_index g' = 1%nat.
Proof.
  assert (engine_ready sample_game) as Hready.
  { split; [by exists sample_player|done]. }
  destruct (play_round_attempts_action [0%nat] sample_game Hready)
    as (ok & g' & Hplay & _ & Hrun).
  assert (fst <$> Game.play_round [0%nat] sample_game = Some true) as Hok
    by (vm_compute; reflexivity).
  rewrite Hplay in Hok. injection Hok as ->.
  exists g'. split; [done|].
  destruct (Hrun eq_refl) as (Hh & Hseat & _).
  split; [exact Hh|]. exact (Hseat eq_refl).
Defined.

(** ** The discard loop as callers see it *)

(** X11.  For a player whose holdings are not negative,
    [_check_and_discard_gems] leaves exactly [min(total, 10)] tokens in the
    hand, whatever [random.choice] picks: no colour goes up or below zero,
    every token taken from the hand is added to the pool of its colour,
    and nothing else of the player or the board changes. *)
Theorem discard_down_to_ten (rnd : list nat) (p : Player.t) (b : Board.t) :
  (forall color, 0 <= Player.gems p color) ->
  exists p' b',
    Game._check_and_discard_gems rnd p b = (p', b')
    /\ Player.get_total_gems p' = Z.min (Player.get_total_gems p) 10
    /\ (forall color, 0 <= Player.gems p' color <= Player.gems p color)
    /\ (forall color,
          Board.gems b' color
          = Board.gems b color + (Player.gems p color - Player.gems p' color))
    /\ Player.cards p' = Player.cards p
    /\ Player.reserved_cards p' = Player.reserved_cards p
    /\ Player.nobles p' = Player.nobles p
    /\ Board.card_decks b' = Board.card_decks b
    /\ Board.displayed_cards b' = Board.displayed_cards b
    /\ Board.nobles b' = Board.nobles b.
Proof.
  intros Hg.
  destruct (check_and_discard_gems_spec rnd p b) as (pg & bg & -> & Hsum & Hok & Hle).
  destruct (Hok Hg) as [Hnn Htot].
  eexists _, _. split; [reflexivity|]. fields.
  split; [exact Htot|]. split.
  { intros color. split; [apply Hnn|apply Hle]. }
  split; [|done].
  intros color. specialize (Hsum color). lia.
Qed.

Lemma discard_down_to_ten_witness :
  Player.get_total_gems
    (Game._check_and_discard_gems [0; 0]%nat twelve_token_player
                                  (Game.board sample_game)).1 = 10.
Proof.
  destruct (discard_down_to_ten [0; 0]%nat twelve_token_player
                                (Game.board sample_game))
    as (p' & b' & Heq & Htot & _); [done|].
  rewrite Heq. exact Htot.
Defined.

(** ** Refilling the display ([Board.replenish_displayed_cards]) *)

(** X12.  [replenish_displayed_cards] moves, at every level, cards from the
    top (the end) of the deck to the end of the display, top card first:
    as many as the display lacks to four, or the whole deck when it is
    shorter.  Afterwards the display has at least four cards or the deck is
    empty; the cards already displayed keep their places; tokens and nobles
    are untouched; and a second call changes nothing. *)
Theorem replenish_displayed_cards_fills (b : Board.t) (level : Level) :
  exists drawn,
    Board.card_decks b level
    = Board.card_decks (Board.replenish_displayed_cards b) level ++ drawn
    /\ Board.displayed_cards (Board.replenish_displayed_cards b) level
       = Board.displayed_cards b level ++ reverse drawn
    /\ length drawn
       = ((4 - length (Board.displayed_cards b level))
          `min` length (Board.card_decks b level))%nat
    /\ ((4 <= length (Board.displayed_cards (Board.replenish_displayed_cards b)
                                            level))%nat
        \/ Board.card_decks (Board.replenish_displayed_cards b) level = [])
    /\ Board.gems (Board.replenish_displayed_cards b) = Board.gems b
    /\ Board.nobles (Board.replenish_displayed_cards b) = Board.nobles b
    /\ Board.displayed_cards
         (Board.replenish_displayed_cards (Board.replenish_displayed_cards b))
         level
       = Board.displayed_cards (Board.replenish_displayed_cards b) level
    /\ Board.card_decks
         (Board.replenish_displayed_cards (Board.replenish_displayed_cards b))
         level
       = Board.card_decks (Board.replenish_displayed_cards b) level.
Proof.
  destruct (replenish_displayed_cards_spec b) as (Hlev & Hgems & Hnobles).
  destruct (replenish_displayed_cards_spec (Board.replenish_displayed_cards b))
    as (Hlev2 & _ & _).
  destruct (Hlev level) as [Hd Hk]. destruct (Hlev2 level) as [Hd2 Hk2].
  set (displayed := Board.displayed_cards b level) in *.
  set (deck := Board.card_decks b level) in *.
  assert (refill_count displayed deck <= length deck)%nat as Hcount
    by (unfold refill_count; lia).
  assert ((4 <= length (refill_displayed displayed deck))%nat
          \/ refill_deck displayed deck = []) as Hexit.
  { unfold refill_displayed, refill_deck.
    rewrite length_app, length_reverse, length_drop.
    destruct (decide (4 - length displayed <= length deck)%nat) as [Hle|Hgt].
    - left. unfold refill_count in *. lia.
    - right. replace (length deck - refill_count displayed deck)%nat with 0%nat
        by (unfold refill_count; lia).
      done. }
  exists (drop (length deck - refill_count displayed deck) deck).
  split; [by rewrite Hk; unfold refill_deck; rewrite take_drop|].
  split; [by rewrite Hd|].
  split; [rewrite length_drop; unfold refill_count in *; lia|].
  split; [by rewrite Hd, Hk|].
  split; [done|]. split; [done|].
  rewrite Hd2, Hk2, Hd, Hk.
  destruct Hexit as [Hfull| ->].
  - by apply refill_full.
  - apply refill_empty.
Qed.

(** ** The pool ([Board.take_gems], [Board.return_gems]) *)

Lemma return_gems_spec b d :
  exists bg,
    Board.return_gems b d = Board.set_gems b bg
    /\ (forall color, bg color = Board.gems b color + dict_sum d color).
Proof.
  unfold Board.return_gems. revert b. induction d as [|[k v] d IH]; intros b.
  - exists (Board.gems b). split; [by rewrite Board_set_gems_id|].
    intros. unfold dict_sum. simpl. lia.
  - cbn [fold_left]. destruct (IH (Board.set_gems b
      (gems_set (Board.gems b) k (Board.gems b k + v)))) as (bg & -> & Hbg).
    exists bg. split; [done|]. intros color. rewrite Hbg, dict_sum_cons. simpl.
    unfold gems_set. destruct (decide (color = k)) as [->|?].
    + rewrite decide_True by done. lia.
    + rewrite decide_False by done. lia.
Qed.

Lemma take_gems_check b d :
  existsb (fun '(color, count) => Board.gems b color <? count) d = true
  <-> exists color count, (color, count) ∈ d /\ Board.gems b color < count.
Proof.
  rewrite existsb_exists. split.
  - intros ([color count] & Hin%list_elem_of_In & Hlt%Z.ltb_lt). by exists color, count.
  - intros (color & count & Hin & Hlt). exists (color, count).
    split; [by apply list_elem_of_In|by apply Z.ltb_lt].
Qed.

Lemma dict_sum_elem d color count :
  NoDup (dict_keys d) -> (color, count) ∈ d -> dict_sum d color = count.
Proof. intros Hnd Hin. rewrite dict_sum_get by done. by apply dict_get_elem. Qed.

(** X13.  [take_gems] is all or nothing.  If the pool has fewer tokens of
    some requested colour than requested, it returns [False] and the board
    is unchanged.  Otherwise it returns [True], every requested colour goes
    down by the amount requested and no other colour changes; a pool
    without negative counts stays so as long as nothing is requested in a
    negative amount; cards and nobles are untouched. *)
Theorem take_gems_all_or_nothing (b : Board.t) (d : Dict) :
  NoDup (dict_keys d) ->
  ((exists color count, (color, count) ∈ d /\ Board.gems b color < count) ->
   Board.take_gems b d = (false, b))
  /\ ((forall color count, (color, count) ∈ d -> count <= Board.gems b color) ->
      exists b',
        Board.take_gems b d = (true, b')
        /\ (forall color,
              Board.gems b' color = Board.gems b color - dict_get d color 0)
        /\ (forall color count, (color, count) ∈ d ->
              Board.gems b' color = Board.gems b color - count)
        /\ (forall color, color ∉ dict_keys d ->
              Board.gems b' color = Board.gems b color)
        /\ ((forall color, 0 <= Board.gems b color) ->
            forall color, 0 <= Board.gems b' color)
        /\ Board.card_decks b' = Board.card_decks b
        /\ Board.displayed_cards b' = Board.displayed_cards b
        /\ Board.nobles b' = Board.nobles b).
Proof.
  intros Hnd. split.
  - intros Hshort%take_gems_check. unfold Board.take_gems. by rewrite Hshort.
  - intros Hall.
    destruct (Board.take_gems b d) as [ok b'] eqn:Htake.
    assert (ok = true) as ->.
    { unfold Board.take_gems in Htake.
      destruct (existsb _ _) eqn:Hex; [|by injection Htake as <- _].
      apply take_gems_check in Hex as (color & count & Hin & Hlt).
      specialize (Hall _ _ Hin). lia. }
    destruct (take_gems_spec _ _ _ _ Htake) as (bg & -> & Hbg).
    eexists. split; [reflexivity|]. fields.
    assert (forall color, bg color = Board.gems b color - dict_get d color 0) as Hget.
    { intros color. by rewrite Hbg, dict_sum_get. }
    split; [exact Hget|]. split.
    { intros color count Hin. by rewrite Hbg, (dict_sum_elem _ _ count). }
    split.
    { intros color Hout. rewrite Hget.
      destruct (dict_get_cases d color) as [->|Hin]; [lia|].
      exfalso. apply Hout. apply list_elem_of_fmap. by eexists (_, _). }
    split; [|done].
    intros Hpool color. rewrite Hget.
    destruct (dict_get_cases d color) as [->|Hin].
    + specialize (Hpool color). lia.
    + specialize (Hall _ _ Hin). lia.
Qed.

Lemma take_gems_all_or_nothing_witness :
  Board.take_gems (Game.board sample_game) [(WHITE, 5)]
  = (false, Game.board sample_game)
  /\ exists b',
       Board.take_gems (Game.board sample_game) [(WHITE, 2)] = (true, b')
       /\ Board.gems b' WHITE = 2.
Proof.
  split.
  - apply (take_gems_all_or_nothing (Game.board sample_game) [(WHITE, 5)]).
    + apply NoDup_singleton.
    + exists WHITE, 5. split; [by left|reflexivity].
  - destruct (take_gems_all_or_nothing (Game.board sample_game) [(WHITE, 2)])
      as [_ Hok]; [apply NoDup_singleton|].
    destruct Hok as (b' & Htake & Hget & _).
    + intros color count [= -> ->]%list_elem_of_singleton.
      apply Z.leb_le. vm_compute. reflexivity.
    + exists b'. split; [exact Htake|]. by rewrite Hget.
Defined.

(** X14.  [return_gems] undoes [take_gems], and [take_gems] undoes
    [return_gems]: after a successful [take_gems], returning the same
    tokens restores every pool count; and on a pool without negative
    counts, taking back what was just returned succeeds and restores every
    pool count.  Neither touches cards or nobles. *)
Theorem take_return_round_trip (b : Board.t) (d : Dict) :
  NoDup (dict_keys d) ->
  (forall color, 0 <= Board.gems b color) ->
  (forall b', Board.take_gems b d = (true, b') ->
     forall color, Board.gems (Board.return_gems b' d) color = Board.gems b color)
  /\ (exists b',
        Board.take_gems (Board.return_gems b d) d = (true, b')
        /\ forall color, Board.gems b' color = Board.gems b color)
  /\ Board.card_decks (Board.return_gems b d) = Board.card_decks b
  /\ Board.displayed_cards (Board.return_gems b d) = Board.displayed_cards b
  /\ Board.nobles (Board.return_gems b d) = Board.nobles b.
Proof.
  intros Hnd Hpool.
  destruct (return_gems_spec b d) as (rg & Hret & Hrg).
  split; [|split].
  - intros b' Htake color.
    destruct (take_gems_spec _ _ _ _ Htake) as (bg & -> & Hbg).
    destruct (return_gems_spec (Board.set_gems b bg) d) as (rg' & -> & Hrg').
    fields. rewrite Hrg'. fields. rewrite Hbg. lia.
  - rewrite Hret.
    destruct (Board.take_gems (Board.set_gems b rg) d) as [ok b'] eqn:Htake.
    assert (ok = true) as ->.
    { unfold Board.take_gems in Htake.
      destruct (existsb _ _) eqn:Hex; [|by injection Htake as <- _].
      apply take_gems_check in Hex as (color & count & Hin & Hlt).
      revert Hlt. fields. rewrite Hrg, (dict_sum_elem _ _ count) by done.
      specialize (Hpool color). lia. }
    destruct (take_gems_spec _ _ _ _ Htake) as (bg & -> & Hbg).
    eexists. split; [reflexivity|]. intros color. fields.
    rewrite Hbg. fields. rewrite Hrg. lia.
  - by rewrite Hret.
Qed.

Lemma take_return_round_trip_witness :
  exists b',
    Board.take_gems
      (Board.return_gems (Game.board sample_game) [(RED, 3)]) [(RED, 3)]
    = (true, b')
    /\ Board.gems b' RED = 4.
Proof.
  destruct (take_return_round_trip (Game.board sample_game) [(RED, 3)])
    as (_ & (b' & Htake & Hgems) & _).
  - apply NoDup_singleton.
  - intros color. apply Z.leb_le. destruct color; vm_compute; reflexivity.
  - exists b'. split; [exact Htake|]. rewrite Hgems. vm_compute. reflexivity.
Defined.

(** ** Seats and rounds ([Game.next_player]) *)

Lemma next_player_times_spec k g :
  (Game.current_player_index g < Game.num_players g)%nat ->
  exists g',
    next_player_times k g = Some g'
    /\ Game.current_player_index g'
       = ((Game.current_player_index g + k) mod Game.num_players g)%nat
    /\ Game.round_number g'
       = Game.round_number g
         + Z.of_nat ((Game.current_player_index g + k) / Game.num_players g)
    /\ Game.players g' = Game.players g
    /\ Game.board g' = Game.board g
    /\ Game.game_over g' = Game.game_over g
    /\ Game.winner g' = Game.winner g
    /\ Game.last_round g' = Game.last_round g
    /\ Game.last_player_index g' = Game.last_player_index g
    /\ Game.history g' = Game.history g.
Proof.
  revert g. induction k as [|k IH]; intros g Hseat.
  - exists g. split; [done|].
    rewrite Nat.add_0_r, Nat.mod_small, Nat.div_small by done.
    repeat split; lia.
  - cbn [next_player_times]. unfold Game.next_player.
    set (n := Game.num_players g) in *. set (i := Game.current_player_index g) in *.
    destruct (decide (n = 0%nat)) as [|Hn]; [lia|]. cbn [mbind option_bind].
    set (i1 := ((i + 1) mod n)%nat).
    assert (i1 < n)%nat as Hi1 by (by apply Nat.mod_upper_bound).
    assert (((i1 + k) mod n = (i + S k) mod n)%nat) as Hmod.
    { unfold i1. rewrite Nat.Div0.add_mod_idemp_l. f_equal. lia. }
    destruct (decide (i1 = 0%nat)) as [Hzero|Hpos].
    + match goal with |- context [next_player_times k ?g1] =>
        destruct (IH g1) as (g' & -> & Hidx & Hround & Hrest) end.
      { unfold Game.num_players. fields. fold (Game.num_players g). fold n. lia. }
      exists g'. split; [done|]. revert Hidx Hround Hrest.
      unfold Game.num_players. fields. fold (Game.num_players g). fold n i i1.
      intros -> -> Hrest. split; [done|]. split; [|done].
      assert (i + 1 = n)%nat as Hlast.
      { destruct (decide (i + 1 < n)%nat) as [Hlt|]; [|lia].
        unfold i1 in Hzero. rewrite Nat.mod_small in Hzero by done. lia. }
      rewrite Hzero. replace (i + S k)%nat with (1 * n + k)%nat by lia.
      rewrite Nat.div_add_l by done. rewrite Nat.add_0_l. lia.
    + match goal with |- context [next_player_times k ?g1] =>
        destruct (IH g1) as (g' & -> & Hidx & Hround & Hrest) end.
      { unfold Game.num_players. fields. fold (Game.num_players g). fold n. lia. }
      exists g'. split; [done|]. revert Hidx Hround Hrest.
      unfold Game.num_players. fields. fold (Game.num_players g). fold n i i1.
      intros -> -> Hrest. split; [done|]. split; [|done].
      assert (i1 = i + 1)%nat as ->.
      { unfold i1 in *. destruct (decide (i + 1 < n)%nat) as [Hlt|].
        - by rewrite Nat.mod_small.
        - exfalso. apply Hpos. replace (i + 1)%nat with n by lia.
          apply Nat.Div0.mod_same. }
      by replace (i + 1 + k)%nat with (i + S k)%nat by lia.
Qed.

(** X15.  Seats go round: from a seat within the player list, as many
    calls of [next_player] as there are players come back to the same seat
    with the round number increased by exactly one, and change nothing
    else; fewer calls (at least one) never come back to it. *)
Theorem next_player_full_cycle (g : Game.t) :
  (Game.current_player_index g < Game.num_players g)%nat ->
  (exists g',
     next_player_times (Game.num_players g) g = Some g'
     /\ Game.current_player_index g' = Game.current_player_index g
     /\ Game.round_number g' = Game.round_number g + 1
     /\ Game.players g' = Game.players g
     /\ Game.board g' = Game.board g
     /\ Game.game_over g' = Game.game_over g
     /\ Game.winner g' = Game.winner g
     /\ Game.last_round g' = Game.last_round g
     /\ Game.last_player_index g' = Game.last_player_index g
     /\ Game.history g' = Game.history g)
  /\ (forall k, (0 < k < Game.num_players g)%nat ->
        exists g',
          next_player_times k g = Some g'
          /\ Game.current_player_index g' ≠ Game.current_player_index g).
Proof.
  intros Hseat. split.
  - destruct (next_player_times_spec (Game.num_players g) g Hseat)
      as (g' & Hrun & Hidx & Hround & Hrest).
    exists g'. split; [done|].
    set (n := Game.num_players g) in *. set (i := Game.current_player_index g) in *.
    assert (n ≠ 0)%nat as Hn by lia.
    replace (i + n)%nat with (i + 1 * n)%nat in Hidx by lia.
    replace (i + n)%nat with (1 * n + i)%nat in Hround by lia.
    rewrite Nat.Div0.mod_add, Nat.mod_small in Hidx by done.
    rewrite Nat.div_add_l, (Nat.div_small i n) in Hround by done.
    split; [done|]. split; [|done]. rewrite Hround. lia.
  - intros k Hk.
    destruct (next_player_times_spec k g Hseat) as (g' & Hrun & Hidx & _).
    exists g'. split; [done|]. rewrite Hidx.
    set (n := Game.num_players g) in *. set (i := Game.current_player_index g) in *.
    destruct (decide (i + k < n)%nat) as [Hlt|Hge].
    + rewrite Nat.mod_small by done. lia.
    + replace (i + k)%nat with (1 * n + (i + k - n))%nat by lia.
      rewrite Nat.add_comm, Nat.Div0.mod_add, Nat.mod_small by lia. lia.
Qed.

Lemma next_player_full_cycle_witness :
  exists g',
    next_player_times 2 sample_game = Some g'
    /\ Game.current_player_index g' = 0%nat
    /\ Game.round_number g' = 2.
Proof.
  destruct (next_player_full_cycle sample_game) as [(g' & Hrun & Hidx & Hround & _) _].
  - unfold sample_game, Game.init, Game.num_players. cbn [Game.current_player_index Game.players length]. lia.
  - exists g'. split; [exact Hrun|]. split; [exact Hidx|exact Hround].
Defined.

(** ** Discounts and prices ([Player.get_card_discounts],
    [Player.can_afford_card], [Player.get_actual_cost]) *)

Lemma card_discounts_fold cards (acc : Gems) color :
  fold_left
    (fun discounts card =>
       gems_set discounts (Card.gem_color card)
                (discounts (Card.gem_color card) + 1))
    cards acc color
  = acc color
    + Z.of_nat (length (filter (fun card => Card.gem_color card = color) cards)).
Proof.
  revert acc. induction cards as [|card cards IH]; intros acc.
  - cbn [fold_left filter length]. unfold filter, list_filter. simpl. lia.
  - cbn [fold_left]. rewrite IH, filter_cons.
    destruct (decide (Card.gem_color card = color)) as [<-|Hne].
    + rewrite gems_set_eq. cbn [length]. lia.
    + rewrite gems_set_ne by done. lia.
Qed.

Lemma sum_with_ones {A} (l : list A) : sum_with (fun _ => 1) l = Z.of_nat (length l).
Proof.
  induction l as [|x l IH]; [done|].
  rewrite sum_with_cons, IH. cbn [length]. lia.
Qed.

(** X16.  The two ways of asking for discounts agree: for every colour the
    table built by [get_card_discounts] holds what [get_card_discount]
    returns, which is the number of owned cards of that colour (reserved
    cards give no discount), and so is never negative. *)
Theorem card_discounts_agree (p : Player.t) (color : GemColor) :
  Player.get_card_discounts p color = Player.get_card_discount p color
  /\ Player.get_card_discount p color
     = Z.of_nat (length (filter (fun card => Card.gem_color card = color)
                                (Player.cards p)))
  /\ 0 <= Player.get_card_discounts p color <= Z.of_nat (length (Player.cards p)).
Proof.
  unfold Player.get_card_discounts, Player.get_card_discount.
  rewrite card_discounts_fold, sum_with_ones.
  split; [lia|]. split; [done|].
  pose proof (length_filter (fun card => Card.gem_color card = color) (Player.cards p)).
  lia.
Qed.

Lemma shortfall_antitone p q item :
  Player.gems p item.1 <= Player.gems q item.1 ->
  Player.get_card_discounts p item.1 <= Player.get_card_discounts q item.1 ->
  shortfall q item <= shortfall p item.
Proof. destruct item as [color cost]. unfold shortfall. simpl. lia. Qed.

(** X17.  Being richer never hurts: a card that a player can afford can
    also be afforded by any player who has at least as many tokens of
    every colour and at least as large a discount for every colour. *)
Theorem can_afford_card_monotone (p q : Player.t) (card : Card.t) :
  (forall color, Player.gems p color <= Player.gems q color) ->
  (forall color,
      Player.get_card_discounts p color <= Player.get_card_discounts q color) ->
  Player.can_afford_card p card = true ->
  Player.can_afford_card q card = true.
Proof.
  intros Hgems Hdisc Hp%can_afford_card_spec. apply can_afford_card_spec.
  etrans; [|apply Hgems]. etrans; [|exact Hp].
  apply sum_with_le. intros item _. by apply shortfall_antitone.
Qed.

Lemma can_afford_card_monotone_witness :
  Player.can_afford_card three_blue_one_gold_player one_blue_card = true.
Proof.
  apply (can_afford_card_monotone one_gold_player).
  - intros color. apply Z.leb_le. by destruct color.
  - intros color. apply Z.leb_le. by destruct color.
  - reflexivity.
Defined.

Lemma cost_step_skip p acc color cost :
  cost - Player.get_card_discounts p color <= 0 ->
  Player.cost_step p (Player.get_card_discounts p) acc (color, cost) = acc.
Proof.
  intros Hle. unfold Player.cost_step.
  destruct (Z.ltb_spec 0 (Z.max 0 (cost - Player.get_card_discounts p color)));
    [lia|done].
Qed.

Lemma cost_fold_skip p items acc color cost :
  NoDup (dict_keys items) -> color ≠ GOLD ->
  (color, cost) ∈ items -> cost - Player.get_card_discounts p color <= 0 ->
  dict_get (fold_left (Player.cost_step p (Player.get_card_discounts p)) items acc)
           color 0
  = dict_get acc color 0.
Proof.
  intros Hnd Hgold Hin Hle. revert acc Hnd Hin.
  induction items as [|[k v] items IH]; intros acc Hnd Hin.
  - by apply elem_of_nil in Hin.
  - unfold dict_keys in Hnd. cbn [map fst] in Hnd.
    apply NoDup_cons in Hnd as [Hk Hnd]. cbn [fold_left].
    apply elem_of_cons in Hin as [[= <- <-]|Hin].
    + rewrite cost_fold_other by done. by rewrite cost_step_skip.
    + rewrite IH by done. apply cost_step_other; [|done].
      intros <-. apply Hk. apply list_elem_of_fmap. by exists (color, cost).
Qed.

(** X18.  A player who can afford a card pays exactly its discounted
    price, never more: the payment map of [get_actual_cost] holds, for
    every colour of the cost, as many tokens of that colour as the player
    can give towards the price less the discount; the Gold entry is the
    [gold_needed] that [can_afford_card] computed, which makes up the
    difference colour by colour; and colours that the card does not cost
    are not paid. *)
Theorem get_actual_cost_exact (p : Player.t) (card : Card.t) :
  (forall color, 0 <= Player.gems p color) ->
  Card.cost_wf card ->
  Player.can_afford_card p card = true ->
  (forall color cost, (color, cost) ∈ Card.cost card ->
     dict_get (Player.get_actual_cost p card) color 0
     = Z.min (Z.max 0 (cost - Player.get_card_discounts p color))
             (Player.gems p color)
     /\ dict_get (Player.get_actual_cost p card) color 0
        + Player.gold_applied p (color, cost)
        = Z.max 0 (cost - Player.get_card_discounts p color))
  /\ dict_get (Player.get_actual_cost p card) GOLD 0
     = sum_with (Player.gold_applied p) (Card.cost card)
  /\ dict_get (Player.get_actual_cost p card) GOLD 0
     = sum_with (shortfall p) (Card.cost card)
  /\ (forall color, color ≠ GOLD -> color ∉ dict_keys (Card.cost card) ->
        dict_get (Player.get_actual_cost p card) color 0 = 0).
Proof.
  intros Hg [Hnd Hgold] Haff%can_afford_card_spec.
  assert (forall item, item ∈ Card.cost card ->
            Player.gold_applied p item = shortfall p item) as Happlied.
  { intros item Hin. apply gold_applied_shortfall; [apply Hg|].
    etrans; [|exact Haff].
    apply (sum_with_elem (shortfall p)); [apply shortfall_nonneg|done]. }
  assert (forall color cost, (color, cost) ∈ Card.cost card ->
            dict_get (Player.get_actual_cost p card) color 0
            = Z.min (Z.max 0 (cost - Player.get_card_discounts p color))
                    (Player.gems p color)) as Hown.
  { intros color cost Hin.
    assert (color ≠ GOLD) as Hne.
    { intros ->. apply Hgold. apply list_elem_of_fmap. by exists (GOLD, cost). }
    unfold Player.get_actual_cost.
    destruct (Z_lt_le_dec 0 (cost - Player.get_card_discounts p color)) as [Hpos|Hle].
    - rewrite (cost_fold_own _ _ _ _ cost) by done. lia.
    - rewrite (cost_fold_skip _ _ _ _ cost) by done. simpl.
      specialize (Hg color). lia. }
  split; [|split; [|split]].
  - intros color cost Hin. split; [by apply Hown|].
    rewrite (Hown _ _ Hin), (Happlied _ Hin).
    unfold shortfall. specialize (Hg color). lia.
  - unfold Player.get_actual_cost. by rewrite cost_fold_gold.
  - unfold Player.get_actual_cost. rewrite cost_fold_gold by done.
    cbn [dict_get]. rewrite Z.add_0_l.
    clear -Happlied. induction (Card.cost card) as [|item items IH]; [done|].
    rewrite !sum_with_cons, Happlied by (by left).
    rewrite IH; [done|]. intros ? ?. apply Happlied. by right.
  - intros color Hne Hout. unfold Player.get_actual_cost.
    by rewrite cost_fold_other.
Qed.

Lemma get_actual_cost_exact_witness :
  dict_get (Player.get_actual_cost three_blue_one_gold_player card_L1_W4) BLUE 0 = 3
  /\ dict_get (Player.get_actual_cost three_blue_one_gold_player card_L1_W4) GOLD 0 = 1.
Proof.
  destruct (get_actual_cost_exact three_blue_one_gold_player card_L1_W4)
    as (Hown & Hgold & _).
  - intros color. apply Z.leb_le. by destruct color.
  - split; [apply NoDup_singleton|].
    intros [= ]%list_elem_of_singleton.
  - reflexivity.
  - split.
    + destruct (Hown BLUE 4) as [-> _]; [by left|reflexivity].
    + rewrite Hgold. reflexivity.
Defined.

(** ** Nobles ([Game._check_nobles_visit], [Board.remove_noble]) *)

Lemma filter_head {A} (P : A -> Prop) `{!forall x, Decision (P x)} (l : list A) x rest :
  filter P l = x :: rest ->
  exists before after,
    l = before ++ x :: after /\ Forall (fun y => ~ P y) before /\ P x.
Proof.
  induction l as [|y l IH]; [done|].
  rewrite filter_cons. destruct (decide (P y)) as [Hy|Hy].
  - intros [= -> _]. by exists [], l.
  - intros (before & after & -> & Hb & Hx)%IH.
    exists (y :: before), after. split; [done|]. split; [by constructor|done].
Qed.

Lemma list_find_middle {A} (P : A -> Prop) `{!forall x, Decision (P x)}
    (before after : list A) x :
  Forall (fun y => ~ P y) before -> P x ->
  list_find P (before ++ x :: after) = Some (length before, x).
Proof.
  intros Hb Hx. induction Hb as [|y before Hy _ IH]; cbn [app list_find length].
  - by rewrite decide_True.
  - rewrite decide_False by done. by rewrite IH.
Qed.

(** X19.  When the nobles on the board have distinct ids,
    [_check_nobles_visit] grants at most one noble per call: the first
    noble on the board whose requirements the player's discounts meet.  It
    leaves the board and joins the end of the player's nobles, the
    player's score rises by its points, and the other nobles keep their
    order.  When no noble's requirements are met, nothing changes. *)
Theorem check_nobles_visit_grants_first (p : Player.t) (b : Board.t) :
  NoDup (map Noble.noble_id (Board.nobles b)) ->
  (Forall (fun noble => Player.can_be_visited_by_noble p noble ≠ true)
          (Board.nobles b)
   /\ Game._check_nobles_visit p b = (p, b))
  \/ exists before noble after,
       Board.nobles b = before ++ noble :: after
       /\ Forall (fun n => Player.can_be_visited_by_noble p n ≠ true) before
       /\ Player.can_be_visited_by_noble p noble = true
       /\ Game._check_nobles_visit p b
          = (Player.set_nobles p (Player.nobles p ++ [noble]),
             Board.set_nobles b (before ++ after))
       /\ Player.get_score (Game._check_nobles_visit p b).1
          = Player.get_score p + Noble.points noble.
Proof.
  intros Hnd. unfold Game._check_nobles_visit.
  destruct (filter _ _) as [|noble rest] eqn:Hvisit.
  - left. split; [|done].
    apply Forall_forall. intros n Hn Hv.
    assert (n ∈ filter (fun noble => Player.can_be_visited_by_noble p noble = true)
                       (Board.nobles b)) as Hin
      by (by apply list_elem_of_filter).
    rewrite Hvisit in Hin. by apply elem_of_nil in Hin.
  - right.
    apply filter_head in Hvisit as (before & after & Hb & Hnot & Hyes).
    exists before, noble, after. split; [done|]. split; [done|]. split; [done|].
    assert (Board.remove_noble b (Noble.noble_id noble)
            = (Some noble, Board.set_nobles b (before ++ after))) as Hrem.
    { unfold Board.remove_noble. rewrite Hb.
      rewrite (list_find_middle _ before after noble).
      - by rewrite delete_middle.
      - rewrite Hb, fmap_app, fmap_cons in Hnd.
        apply NoDup_app in Hnd as (_ & Hdisj & _).
        apply Forall_forall. intros n Hn Hid.
        apply (Hdisj (Noble.noble_id n)).
        + apply list_elem_of_fmap. by exists n.
        + rewrite Hid. by left.
      - done. }
    rewrite Hrem. split; [done|]. cbn [fst snd].
    unfold Player.get_score. fields.
    rewrite sum_with_app, sum_with_cons.
    change (sum_with Noble.points []) with 0. lia.
Qed.

Lemma check_nobles_visit_grants_first_witness :
  map Noble.noble_id
      (Player.nobles
         (Game._check_nobles_visit noble_ready_player (Game.board sample_game)).1)
  = ["N3"]
  /\ map Noble.noble_id
         (Board.nobles
            (Game._check_nobles_visit noble_ready_player (Game.board sample_game)).2)
     = ["N1"; "N2"].
Proof.
  destruct (check_nobles_visit_grants_first noble_ready_player
              (Game.board sample_game)) as [[Hnone _]|Hone].
  - vm_compute. repeat constructor; intros Hin;
      repeat (apply elem_of_cons in Hin as [Hin|Hin]; [discriminate Hin|]);
      by apply elem_of_nil in Hin.
  - exfalso. apply Forall_forall with (x := Noble.mk 3 [(BLUE, 4); (GREEN, 4)] "N3")
      in Hnone; [by apply Hnone|].
    vm_compute. do 2 right. by left.
  - destruct Hone as (before & noble & after & Hb & _ & Hyes & -> & _).
    cbn [fst snd]. fields.
    assert (map Noble.noble_id (Board.nobles (Game.board sample_game))
            = ["N1"; "N2"; "N3"]) as Hids by (vm_compute; reflexivity).
    assert (map (Player.can_be_visited_by_noble noble_ready_player)
                (Board.nobles (Game.board sample_game)) = [false; false; true])
      as Hvis by (vm_compute; reflexivity).
    revert Hids Hvis. rewrite Hb. clear Hb.
    destruct before as [|n1 [|n2 [|n3 before]]]; cbn [app map]; intros Hids Hvis.
    + injection Hvis as Hv _. congruence.
    + injection Hvis as _ Hv _. congruence.
    + destruct after as [|n4 after]; [|discriminate Hids].
      injection Hids as H1 H2 H3. simpl. by rewrite H1, H2, H3.
    + destruct before; discriminate Hids.
Defined.

(** ** The end of the game ([Game._check_game_end]) *)

Lemma trigger_scan_done ps g :
  Game.last_round g = true -> Game.trigger_scan ps g = g.
Proof.
  intros Hlr. induction ps as [|p ps IH]; [done|].
  cbn [Game.trigger_scan]. by rewrite Hlr, andb_false_r.
Qed.

Lemma trigger_scan_fresh ps g :
  Game.last_round g = false ->
  (Exists (fun p => 15 <= Player.get_score p) ps
   /\ Game.trigger_scan ps g
      = Game.set_last_round g true (Some (Game.current_player_index g)))
  \/ (Forall (fun p => Player.get_score p < 15) ps /\ Game.trigger_scan ps g = g).
Proof.
  intros Hlr. induction ps as [|p ps IH]; [by right|].
  cbn [Game.trigger_scan]. rewrite Hlr, andb_true_r.
  destruct (Z.leb_spec 15 (Player.get_score p)) as [Hp|Hp].
  - left. split; [by left|done].
  - destruct IH as [[Hex ->]|[Hall ->]].
    + left. split; [by right|done].
    + right. split; [by constructor|done].
Qed.

(** X20.  [_check_game_end], which runs after every purchase, returns
    whenever the seat is within the player list.  It sets [last_round] the
    first time some player has 15 points or more, recording the buyer's
    seat as [last_player_index], and never clears or moves it afterwards.
    It sets [game_over], and computes the winners from the current
    players, exactly when [last_round] is set and the seat after the
    buyer's is [last_player_index]; so with two or more players the
    purchase that triggers the last round never ends the game itself.
    Players, board, seat, round number and history are untouched. *)
Theorem check_game_end_outcome (g : Game.t) :
  (Game.current_player_index g < Game.num_players g)%nat ->
  (Game.last_round g = true -> is_Some (Game.last_player_index g)) ->
  exists g',
    Game._check_game_end g = Some g'
    /\ Game.players g' = Game.players g
    /\ Game.board g' = Game.board g
    /\ Game.current_player_index g' = Game.current_player_index g
    /\ Game.round_number g' = Game.round_number g
    /\ Game.history g' = Game.history g
    /\ (Game.last_round g' = true <->
        Game.last_round g = true
        \/ Exists (fun p => 15 <= Player.get_score p) (Game.players g))
    /\ (Game.last_round g = true ->
        Game.last_player_index g' = Game.last_player_index g)
    /\ (Game.last_round g = false -> Game.last_round g' = true ->
        Game.last_player_index g' = Some (Game.current_player_index g))
    /\ (Game.last_round g' = true
        /\ Game.last_player_index g'
           = Some ((Game.current_player_index g + 1) mod Game.num_players g)%nat ->
        Game.game_over g' = true
        /\ Game.winner g' = Some (Game.final_winners (Game.players g)))
    /\ (~ (Game.last_round g' = true
           /\ Game.last_player_index g'
              = Some ((Game.current_player_index g + 1) mod Game.num_players g)%nat) ->
        Game.game_over g' = Game.game_over g /\ Game.winner g' = Game.winner g)
    /\ (Game.last_round g = false -> (2 <= Game.num_players g)%nat ->
        Game.game_over g' = Game.game_over g /\ Game.winner g' = Game.winner g).
Proof.
  intros Hseat Hlast.
  set (n := Game.num_players g) in *. set (i := Game.current_player_index g) in *.
  assert (n ≠ 0)%nat as Hn by lia.
  assert ((2 <= n)%nat -> ((i + 1) mod n)%nat ≠ i) as Hnext.
  { intros Hn2. destruct (decide (i + 1 < n)%nat) as [Hlt|Hge].
    - rewrite Nat.mod_small by done. lia.
    - replace (i + 1)%nat with n by lia. rewrite Nat.Div0.mod_same. lia. }
  unfold Game._check_game_end.
  destruct (Game.last_round g) eqn:Hlr.
  - (* the last round was triggered before *)
    rewrite trigger_scan_done by done. rewrite Hlr.
    fold n i. rewrite decide_False by done.
    destruct (Hlast eq_refl) as [last Hlpi]. rewrite Hlpi.
    destruct (decide (((i + 1) mod n)%nat = last)) as [Heq|Hne].
    + eexists. split; [reflexivity|]. fields. rewrite Hlr, Hlpi.
      do 5 (split; [done|]). split; [by split; [left|]|].
      split; [done|]. split; [done|]. split; [done|].
      split; [|done]. intros Hnot. exfalso. apply Hnot. by rewrite Heq.
    + exists g. split; [done|]. rewrite Hlr, Hlpi.
      do 5 (split; [done|]). split; [by split; [left|]|].
      split; [done|]. split; [done|]. split; [|done].
      intros [_ [= Heq]]. by rewrite Heq in Hne.
  - (* no last round yet: the loop looks for 15 points *)
    destruct (trigger_scan_fresh (Game.players g) g Hlr) as [[Hex ->]|[Hall ->]].
    + fields. unfold Game.num_players. fields. fold (Game.num_players g). fold n i.
      rewrite decide_False by done.
      destruct (decide (((i + 1) mod n)%nat = i)) as [Heq|Hne].
      * eexists. split; [reflexivity|]. fields.
        do 5 (split; [done|]). split; [by split; [right|]|].
        split; [done|]. split; [done|]. split; [done|].
        split; [intros Hnot; exfalso; apply Hnot; by rewrite Heq|].
        intros _ Hn2. by apply Hnext in Hn2.
      * eexists. split; [reflexivity|]. fields.
        do 5 (split; [done|]). split; [by split; [right|]|].
        split; [done|]. split; [done|].
        split; [intros [_ [= Heq]]; congruence|done].
    + rewrite Hlr. exists g. split; [done|]. rewrite Hlr.
      do 5 (split; [done|]). split.
      { split; [done|]. intros [?|Hex]; [done|].
        apply Exists_exists in Hex as (p & Hp & Hscore).
        rewrite Forall_forall in Hall. specialize (Hall p Hp). lia. }
      split; [done|]. split; [done|]. split; [by intros [? _]|done].
Qed.

Lemma check_game_end_outcome_witness :
  exists g',
    Game._check_game_end fifteen_point_game = Some g'
    /\ Game.last_round g' = true
    /\ Game.last_player_index g' = Some 0%nat
    /\ Game.game_over g' = false.
Proof.
  destruct (check_game_end_outcome fifteen_point_game)
    as (g' & Hend & _ & _ & _ & _ & _ & Hlr & _ & Hlpi & _ & _ & Hgo).
  - unfold fifteen_point_game, Game.num_players. cbn [Game.set_players Game.players length Game.current_player_index sample_game Game.init]. lia.
  - discriminate.
  - exists g'. split; [exact Hend|].
    assert (Game.last_round g' = true) as Hlast.
    { apply Hlr. right. left. apply Z.leb_le. vm_compute. reflexivity. }
    split; [exact Hlast|]. split; [exact (Hlpi eq_refl Hlast)|].
    destruct Hgo as [-> _]; [reflexivity| |reflexivity].
    unfold fifteen_point_game, Game.num_players. cbn [Game.set_players Game.players length]. lia.
Defined.

(** ** The take-different-gems moves offered
    ([Game._get_different_gems_actions]) *)

Lemma combinations_spec {A} (l : list A) (k : nat) (cs : list A) :
  cs ∈ combinations l k <-> cs `sublist_of` l /\ length cs = k.
Proof.
  revert k cs. induction l as [|x l IH]; intros k cs.
  - destruct k as [|k]; cbn [combinations].
    + rewrite list_elem_of_singleton. split.
      * by intros ->.
      * by intros [->%sublist_nil_r _].
    + split; [by intros ?%elem_of_nil|].
      by intros [->%sublist_nil_r ?].
  - destruct k as [|k]; cbn [combinations].
    + rewrite list_elem_of_singleton. split.
      * intros ->. split; [apply sublist_nil_l|done].
      * intros [_ Hlen]. by destruct cs.
    + rewrite elem_of_app, list_elem_of_fmap, sublist_cons_r. split.
      * intros [(cs' & -> & [Hsub Hlen]%IH)|[Hsub Hlen]%IH].
        -- split; [right; by exists cs'|]. cbn [length]. by rewrite Hlen.
        -- split; [by left|done].
      * intros [[Hsub|(cs' & -> & Hsub)] Hlen].
        -- right. by apply IH.
        -- left. exists cs'. split; [done|]. apply IH. split; [done|].
           cbn [length] in Hlen. lia.
Qed.




(** ** Every move offered can be made ([Game.get_valid_actions] against
    [Game.execute_action]) *)

Lemma catalog_ids_NoDup : NoDup (map Card.card_id Card.create_standard_cards).
Proof. apply (bool_decide_unpack _). by vm_compute. Qed.

Lemma reachable_ids_NoDup g :
  reachable g -> NoDup (map Card.card_id (cards_in_game g)).
Proof.
  intros Hg%reachable_invariant.
  assert (map Card.card_id (cards_in_game g)
          ≡ₚ map Card.card_id Card.create_standard_cards) as ->.
  { apply Permutation_map. apply Hg. }
  apply catalog_ids_NoDup.
Qed.

Lemma sublist_ids_NoDup (l1 l2 : list Card.t) :
  l1 `sublist_of` l2 -> NoDup (map Card.card_id l2) -> NoDup (map Card.card_id l1).
Proof.
  intros Hsub Hnd. eapply sublist_NoDup; [exact Hnd|].
  by apply (fmap_sublist Card.card_id).
Qed.

Lemma displayed_sublist g level :
  Board.displayed_cards (Game.board g) level `sublist_of` cards_in_game g.
Proof.
  unfold cards_in_game. apply sublist_inserts_l. unfold table.
  destruct level.
  - apply sublist_inserts_r. unfold zone. by apply sublist_inserts_l.
  - apply sublist_inserts_l, sublist_inserts_r. unfold zone.
    by apply sublist_inserts_l.
  - do 2 apply sublist_inserts_l. unfold zone. by apply sublist_inserts_l.
Qed.

Lemma reserved_sublist g p :
  Game.get_current_player g = Some p ->
  Player.reserved_cards p `sublist_of` cards_in_game g.
Proof.
  unfold Game.get_current_player. intros Hp.
  unfold cards_in_game. apply sublist_inserts_r.
  rewrite <- (take_drop_middle _ _ _ Hp), map_app, concat_app.
  apply sublist_inserts_l. cbn [map concat]. apply sublist_inserts_r.
  unfold hand. by apply sublist_inserts_r.
Qed.

Lemma list_find_unique {A B} `{!EqDecision B} (f : A -> B) (l : list A) (x : A) :
  NoDup (map f l) -> x ∈ l ->
  exists i, list_find (fun y => f y = f x) l = Some (i, x).
Proof.
  induction l as [|y l IH]; intros Hnd Hin.
  - by apply elem_of_nil in Hin.
  - cbn [map] in Hnd. apply NoDup_cons in Hnd as [Hy Hnd]. cbn [list_find].
    apply elem_of_cons in Hin as [->|Hin].
    + exists 0%nat. by rewrite decide_True.
    + rewrite decide_False.
      * destruct (IH Hnd Hin) as [i ->]. by exists (S i).
      * intros Heq. apply Hy. rewrite Heq. apply list_elem_of_fmap. by exists x.
Qed.

Lemma level_of_Z_value level : level_of_Z (level_value level) = Some level.
Proof. by destruct level. Qed.

Lemma take_same_gems_succeeds rnd g p color :
  4 <= Board.gems (Game.board g) color ->
  (Game._execute_take_same_gems rnd g p (Action.take_same_gems color)).1 = true.
Proof.
  intros Hpool. unfold Game._execute_take_same_gems.
  cbn [Action.color Action.take_same_gems].
  destruct (Z.ltb_spec (Board.gems (Game.board g) color) 4); [lia|].
  unfold Board.take_gems. cbn [existsb].
  destruct (Z.ltb_spec (Board.gems (Game.board g) color) 2); [lia|].
  cbn [orb negb fold_left]. by destruct (Game._check_and_discard_gems _ _ _).
Qed.

Lemma reserve_card_succeeds rnd g p a card b :
  (length (Player.reserved_cards p) < 3)%nat ->
  Game.reserve_source (Game.board g) a = (Some card, b) ->
  (Game._execute_reserve_card rnd g p a).1 = true.
Proof.
  intros Hres Hsrc. unfold Game._execute_reserve_card.
  rewrite bool_decide_eq_false_2 by lia. rewrite Hsrc.
  destruct (0 <? _); [|done].
  by destruct (Game._check_and_discard_gems _ _ _).
Qed.

Lemma reserve_source_displayed b level card :
  card ∈ Board.displayed_cards b level ->
  exists card' b',
    Game.reserve_source b (Action.reserve_card (level_value level) (Card.card_id card))
    = (Some card', b').
Proof.
  intros Hin. unfold Game.reserve_source.
  cbn [Action.level Action.from_deck Action.card_id Action.reserve_card
       mbind option_bind default].
  rewrite level_of_Z_value. cbn [option_bind].
  destruct (list_find _ _) as [[i card']|] eqn:Hfind; [by eexists _, _|].
  apply list_find_None in Hfind. rewrite Forall_forall in Hfind.
  by destruct (Hfind card Hin).
Qed.

Lemma reserve_source_deck b level :
  Board.card_decks b level ≠ [] ->
  exists card' b',
    Game.reserve_source b (Action.reserve_from_deck (level_value level))
    = (Some card', b').
Proof.
  intros Hdeck. unfold Game.reserve_source.
  cbn [Action.level Action.from_deck Action.card_id Action.reserve_from_deck
       mbind option_bind default].
  rewrite level_of_Z_value. cbn [option_bind].
  destruct (list_pop _) as [[deck card']|] eqn:Hpop; [by eexists _, _|].
  by apply list_pop_None in Hpop.
Qed.

Lemma buy_card_succeeds g p level card :
  Game.players g ≠ [] ->
  (Game.last_round g = true -> is_Some (Game.last_player_index g)) ->
  NoDup (map Card.card_id (Board.displayed_cards (Game.board g) level)) ->
  card ∈ Board.displayed_cards (Game.board g) level ->
  Player.can_afford_card p card = true ->
  exists g',
    Game._execute_buy_card g p (Action.buy_card (level_value level) (Card.card_id card))
    = Some (true, g').
Proof.
  intros Hps Hlast Hnd Hin Haff. unfold Game._execute_buy_card.
  cbn [Action.level Action.card_id Action.buy_card mbind option_bind].
  rewrite level_of_Z_value. cbn [option_bind].
  destruct (list_find_unique Card.card_id _ card Hnd Hin) as [i ->].
  rewrite Haff. cbn [negb].
  destruct (Game.pay _ _ _) as [p1 b1].
  destruct (Game._check_nobles_visit _ _) as [p2 b2].
  destruct (check_game_end_Some (Game.store g p2 b2)) as [g' ->]; [| |by eexists].
  - fields. intros Hnil. apply (f_equal length) in Hnil.
    rewrite length_insert in Hnil. by destruct (Game.players g).
  - done.
Qed.

Lemma buy_reserved_card_succeeds g p card :
  Game.players g ≠ [] ->
  (Game.last_round g = true -> is_Some (Game.last_player_index g)) ->
  NoDup (map Card.card_id (Player.reserved_cards p)) ->
  card ∈ Player.reserved_cards p ->
  Player.can_afford_card p card = true ->
  exists g',
    Game._execute_buy_reserved_card g p (Action.buy_reserved_card (Card.card_id card))
    = Some (true, g').
Proof.
  intros Hps Hlast Hnd Hin Haff. unfold Game._execute_buy_reserved_card.
  cbn [Action.card_id Action.buy_reserved_card].
  destruct (list_find_unique Card.card_id _ card Hnd Hin) as [i ->].
  rewrite Haff. cbn [negb].
  destruct (Game.pay _ _ _) as [p1 b1].
  destruct (Game._check_nobles_visit _ _) as [p2 b2].
  destruct (check_game_end_Some (Game.store g p2 b2)) as [g' ->]; [| |by eexists].
  - fields. intros Hnil. apply (f_equal length) in Hnil.
    rewrite length_insert in Hnil. by destruct (Game.players g).
  - done.
Qed.

(** X22.  In every reachable state, every action that [get_valid_actions]
    lists can be made: [execute_action] returns [True] for it, whatever
    the discard loop draws.  The one exception is the take-different-gems
    action with an empty colour list, which is listed when the pool has
    no non-Gold token left. *)
Theorem valid_actions_succeed (rnd : list nat) (g : Game.t)
    (actions : list Action.t) (a : Action.t) :
  reachable g ->
  Game.get_valid_actions g = Some actions ->
  a ∈ actions ->
  a ≠ Action.take_different_gems [] ->
  exists g', Game.execute_action rnd g a = Some (true, g').
Proof.
  intros Hreach Hvalid Hin Hne.
  pose proof (reachable_invariant _ Hreach) as Hinv.
  pose proof (reachable_ids_NoDup _ Hreach) as Hids.
  unfold Game.get_valid_actions in Hvalid.
  destruct (Game.get_current_player g) as [p|] eqn:Hp; [|done].
  injection Hvalid as <-.
  assert (Game.players g ≠ []) as Hps.
  { unfold Game.get_current_player in Hp. intros Hnil. by rewrite Hnil in Hp. }
  set (h := Game.history g
            ++ [Game.mkRecord (Game.round_number g) (Player.player_id p)
                              (Action.str a) (Action.to_dict a)]).
  assert (Game.execute_action rnd g a
          = match Action.action_type a with
            | Action.TAKE_DIFFERENT_GEMS =>
                Some (Game._execute_take_different_gems rnd (Game.set_history g h) p a)
            | Action.TAKE_SAME_GEMS =>
                Some (Game._execute_take_same_gems rnd (Game.set_history g h) p a)
            | Action.RESERVE_CARD =>
                Some (Game._execute_reserve_card rnd (Game.set_history g h) p a)
            | Action.BUY_CARD => Game._execute_buy_card (Game.set_history g h) p a
            | Action.BUY_RESERVED_CARD =>
                Game._execute_buy_reserved_card (Game.set_history g h) p a
            end) as Hexec.
  { unfold Game.execute_action. by rewrite Hp. }
  assert (forall r : bool * Game.t, r.1 = true -> exists g', Some r = Some (true, g'))
    as Hfst.
  { intros [ok g'] Hok. simpl in Hok. subst ok. by exists g'. }
  apply elem_of_app in Hin as [Hin|Hin];
    [|apply elem_of_app in Hin as [Hin|Hin];
      [|apply elem_of_app in Hin as [Hin|Hin];
        [|apply elem_of_app in Hin as [Hin|Hin]]]].
  - (* three different gems *)
    assert (exists cs, a = Action.take_different_gems cs /\ cs ≠ []
                       /\ (length cs <= 3)%nat
                       /\ forall c, c ∈ cs -> 0 < Board.gems (Game.board g) c)
      as (cs & -> & Hcs & Hlen & Hpos).
    { revert Hin. unfold Game._get_different_gems_actions.
      set (available := filter _ basic_colors).
      assert (forall c, c ∈ available -> 0 < Board.gems (Game.board g) c) as Havail.
      { by intros c [? _]%list_elem_of_filter. }
      case_bool_decide as Hlen.
      - intros ->%list_elem_of_singleton. exists available.
        split; [done|]. split; [by intros Hnil; rewrite Hnil in Hne|]. by split.
      - intros (cs & -> & [Hsub Hcs]%combinations_spec)%list_elem_of_fmap.
        exists cs. split; [done|]. split; [by destruct cs|]. split; [lia|].
        intros c Hc. apply Havail. by eapply elem_of_sublist. }
    clear h Hexec.
    assert (is_Some (Game.execute_action rnd g (Action.take_different_gems cs)))
      as [[ok g'] Hrun].
    { unfold Game.execute_action. rewrite Hp. by eexists. }
    destruct (execute_take_different_gems_result
                rnd g (Action.take_different_gems cs) p ok g' Hp eq_refl Hrun)
      as [Hfalse _].
    destruct ok; [by exists g'|].
    destruct Hfalse as [Hfalse _].
    cbn [Action.colors Action.take_different_gems default from_option] in Hfalse.
    unfold id in Hfalse.
    destruct (Hfalse eq_refl) as [?|[?|(c & Hc & Hle)]]; [done|lia|].
    specialize (Hpos c Hc). lia.
  - (* two of the same colour *)
    apply list_elem_of_fmap in Hin as (color & -> & [Hpool _]%list_elem_of_filter).
    rewrite Hexec. cbn [Action.action_type Action.take_same_gems].
    apply Hfst. by apply take_same_gems_succeeds.
  - (* reserving *)
    unfold Game._get_reserve_card_actions in Hin.
    case_bool_decide as Hres; [by apply elem_of_nil in Hin|].
    assert (exists card b,
               Action.action_type a = Action.RESERVE_CARD
               /\ Game.reserve_source (Game.board g) a = (Some card, b))
      as (card & b & Hty & Hsrc).
    { apply elem_of_app in Hin as [Hin|Hin];
        apply list_elem_of_In, in_flat_map in Hin as (level & _ & Hin);
        cbv beta in Hin; apply list_elem_of_In in Hin.
      - apply list_elem_of_fmap in Hin as (card & -> & Hcard).
        destruct (reserve_source_displayed _ _ _ Hcard) as (card' & b' & Hsrc).
        by exists card', b'.
      - destruct (Board.card_decks (Game.board g) level) as [|c deck] eqn:Hdeck;
          [by apply elem_of_nil in Hin|].
        apply list_elem_of_singleton in Hin as ->.
        destruct (reserve_source_deck (Game.board g) level) as (card' & b' & Hsrc);
          [by rewrite Hdeck|].
        by exists card', b'. }
    rewrite Hexec, Hty. apply Hfst.
    apply (reserve_card_succeeds _ _ _ _ card b); [lia|done].
  - (* buying from the display *)
    apply list_elem_of_In, in_flat_map in Hin as (level & _ & Hin).
    cbv beta in Hin.
    apply in_flat_map in Hin as (card & Hcard%list_elem_of_In & Hin).
    cbv beta in Hin.
    destruct (Player.can_afford_card p card) eqn:Haff; [|done].
    destruct Hin as [<-|[]].
    rewrite Hexec. cbn [Action.action_type Action.buy_card].
    apply buy_card_succeeds; [done|apply Hinv| |done|done].
    eapply sublist_ids_NoDup; [|exact Hids].
    apply (displayed_sublist g level).
  - (* buying a reserved card *)
    apply list_elem_of_In, in_flat_map in Hin as (card & Hcard%list_elem_of_In & Hin).
    cbv beta in Hin.
    destruct (Player.can_afford_card p card) eqn:Haff; [|done].
    destruct Hin as [<-|[]].
    rewrite Hexec. cbn [Action.action_type Action.buy_reserved_card].
    apply buy_reserved_card_succeeds; [done|apply Hinv| |done|done].
    eapply sublist_ids_NoDup; [|exact Hids].
    by apply reserved_sublist.
Qed.

Lemma valid_actions_succeed_witness :
  exists g',
    Game.execute_action [] sample_game (Action.reserve_from_deck 2) = Some (true, g').
Proof.
  apply (valid_actions_succeed [] sample_game
           (default [] (Game.get_valid_actions sample_game))).
  - apply sample_game_reachable.
  - vm_compute. reflexivity.
  - apply (list_elem_of_lookup_2 _ 28%nat). vm_compute. reflexivity.
  - discriminate.
Defined.

(** ** Taking two gems of one colour ([Game._execute_take_same_gems]) *)

Lemma store_current_player g p p' b :
  Game.get_current_player g = Some p ->
  Game.get_current_player (Game.store g p' b) = Some p'.
Proof.
  unfold Game.get_current_player. intros Hp. fields.
  apply list_lookup_insert_eq. by eapply lookup_lt_Some.
Qed.

(** X23.  [execute_action] on a take-same-gems action returns, and returns
    [True] exactly when a colour is given and the pool holds at least four
    tokens of it; the colour itself is not checked, so Gold can be taken
    this way.  On success the player ends the turn with
    [min(total + 2, 10)] tokens (a player with nine ends with exactly
    ten), every token is in the hand or in the pool as before, and a
    player who had at most eight has exactly two more of the colour, the
    pool two fewer, and no other count changed.  Cards and nobles are
    untouched. *)
Theorem take_same_gems_outcome (rnd : list nat) (g : Game.t) (a : Action.t)
    (p : Player.t) :
  Game.get_current_player g = Some p ->
  Action.action_type a = Action.TAKE_SAME_GEMS ->
  (forall color, 0 <= Player.gems p color) ->
  exists ok g',
    Game.execute_action rnd g a = Some (ok, g')
    /\ (ok = true <->
        exists color,
          Action.color a = Some color /\ 4 <= Board.gems (Game.board g) color)
    /\ (ok = true ->
        exists color p',
          Action.color a = Some color
          /\ Game.get_current_player g' = Some p'
          /\ Player.get_total_gems p' = Z.min (Player.get_total_gems p + 2) 10
          /\ (forall c,
                Player.gems p' c + Board.gems (Game.board g') c
                = Player.gems p c + Board.gems (Game.board g) c)
          /\ (Player.get_total_gems p <= 8 ->
              forall c,
                Player.gems p' c
                = Player.gems p c + (if decide (c = color) then 2 else 0)
                /\ Board.gems (Game.board g') c
                   = Board.gems (Game.board g) c
                     - (if decide (c = color) then 2 else 0))
          /\ Player.cards p' = Player.cards p
          /\ Player.reserved_cards p' = Player.reserved_cards p
          /\ Player.nobles p' = Player.nobles p
          /\ Board.displayed_cards (Game.board g')
             = Board.displayed_cards (Game.board g)
          /\ Board.card_decks (Game.board g') = Board.card_decks (Game.board g)
          /\ Board.nobles (Game.board g') = Board.nobles (Game.board g)).
Proof.
  intros Hp Hty Hnn. unfold Game.execute_action. rewrite Hp, Hty.
  unfold Game._execute_take_same_gems. fields.
  destruct (Action.color a) as [color|].
  2:{ eexists _, _. split; [reflexivity|]. split; [|done].
      split; [done|]. by intros (? & ? & _). }
  destruct (Z.ltb_spec (Board.gems (Game.board g) color) 4) as [Hlt|Hge].
  { eexists _, _. split; [reflexivity|]. split; [|done].
    split; [done|]. intros (? & [= <-] & ?). lia. }
  unfold Board.take_gems. cbn [existsb orb].
  destruct (Z.ltb_spec (Board.gems (Game.board g) color) 2) as [?|_]; [lia|].
  cbn [orb fold_left negb]. cbv beta iota zeta. fields.
  set (p1 := Player.set_gems p _). set (b1 := Board.set_gems _ _).
  assert (Player.get_total_gems p1 = Player.get_total_gems p + 2) as Htot1.
  { unfold Player.get_total_gems, p1. fields. rewrite gems_total_set. lia. }
  assert (forall c, 0 <= Player.gems p1 c) as Hnn1.
  { intros c. unfold p1. fields. unfold gems_set.
    pose proof (Hnn c). pose proof (Hnn color). case_decide; subst; lia. }
  destruct (check_and_discard_gems_spec rnd p1 b1)
    as (pg & bg & Hdis & Hsum & Hok & Hle).
  destruct (Hok Hnn1) as [_ Htot].
  pose proof (check_and_discard_gems_noop rnd p1 b1) as Hnoop.
  rewrite Hdis in *. cbv beta iota zeta.
  eexists _, _. split; [reflexivity|]. split.
  { split; [|done]. intros _. by exists color. }
  intros _. exists color. eexists. split; [done|].
  split; [by apply (store_current_player _ p)|]. fields.
  split; [by rewrite <- Htot1|]. split.
  { intros c. rewrite Hsum. unfold p1, b1. fields. unfold gems_set.
    case_decide; subst; lia. }
  split; [|done].
  intros Hsmall c.
  assert (Player.set_gems p1 pg = p1 /\ Board.set_gems b1 bg = b1) as [Hp1 Hb1].
  { apply pair_equal_spec. apply Hnoop. lia. }
  apply (f_equal Player.gems) in Hp1. apply (f_equal Board.gems) in Hb1.
  fields. rewrite Hp1, Hb1. unfold p1, b1. fields. unfold gems_set.
  case_decide; subst; split; lia.
Qed.

Lemma take_same_gems_outcome_witness :
  exists g' p',
    Game.execute_action [] sample_game (Action.take_same_gems GOLD) = Some (true, g')
    /\ Game.get_current_player g' = Some p'
    /\ Player.gems p' GOLD = 2
    /\ Board.gems (Game.board g') GOLD = 3.
Proof.
  destruct (take_same_gems_outcome [] sample_game (Action.take_same_gems GOLD)
              sample_player) as (ok & g' & Hexec & Hok & Hgain); [done|done|done|].
  assert (ok = true) as ->.
  { apply Hok. exists GOLD. split; [done|]. apply Z.leb_le. by vm_compute. }
  destruct (Hgain eq_refl) as (color & p' & [= <-] & Hp' & _ & _ & Hsmall & _).
  exists g', p'. split; [exact Hexec|]. split; [exact Hp'|].
  destruct (Hsmall ltac:(by vm_compute) GOLD) as [-> ->].
  split; by vm_compute.
Defined.

(** ** Reserving a card ([Game._execute_reserve_card]) *)

Lemma reserve_source_target b a :
  (Game.reserve_source b a).1 = reserve_target b a.
Proof.
  unfold Game.reserve_source, reserve_target.
  destruct (Action.level a ≫= level_of_Z) as [level|]; [|done].
  destruct (default false (Action.from_deck a)).
  - destruct (list_pop _) as [[deck card]|] eqn:Hpop.
    + apply list_pop_Some in Hpop as ->. by rewrite last_snoc.
    + by apply list_pop_None in Hpop as ->.
  - by destruct (list_find _ _) as [[i card]|].
Qed.

Lemma replenish_exit b level :
  (4 <= length (Board.displayed_cards (Board.replenish_displayed_cards b) level))%nat
  \/ Board.card_decks (Board.replenish_displayed_cards b) level = [].
Proof.
  destruct (replenish_displayed_cards_spec b) as (Hlev & _).
  destruct (Hlev level) as [-> ->].
  unfold refill_displayed, refill_deck, refill_count.
  rewrite length_app, length_reverse, length_drop.
  set (n := length (Board.displayed_cards b level)).
  set (d := length (Board.card_decks b level)).
  destruct (decide (4 - n <= d)%nat) as [Hle|Hgt].
  - left. lia.
  - right. by replace (d - (4 - n) `min` d)%nat with 0%nat by lia.
Qed.

Lemma table_set_gems b bg : table (Board.set_gems b bg) = table b.
Proof. reflexivity. Qed.

Lemma replenish_table b : table (Board.replenish_displayed_cards b) ≡ₚ table b.
Proof.
  destruct (moves_replenish (Player.new "" "") b) as (_ & Hperm & _).
  by apply Permutation_app_inv_l in Hperm.
Qed.

(** X24.  [execute_action] on a reserve action returns, and returns [True]
    exactly when the player has fewer than three reserved cards and the
    card asked for exists: the top of the deck of the level when
    [from_deck] is set, else the first displayed card of the level with
    the given id.  On success that card leaves the board and joins the end
    of the reserved cards, and the display is refilled (four cards at
    every level, or an empty deck).  If the pool has Gold the player gets
    one Gold token and then discards down to ten: a player with at most
    nine tokens has exactly one Gold more and the pool one fewer.  If the
    pool has no Gold, no token moves.  Owned cards and nobles are
    untouched. *)
Theorem reserve_card_outcome (rnd : list nat) (g : Game.t) (a : Action.t)
    (p : Player.t) :
  Game.get_current_player g = Some p ->
  Action.action_type a = Action.RESERVE_CARD ->
  (forall color, 0 <= Player.gems p color) ->
  exists ok g',
    Game.execute_action rnd g a = Some (ok, g')
    /\ (ok = true <->
        (length (Player.reserved_cards p) < 3)%nat
        /\ is_Some (reserve_target (Game.board g) a))
    /\ (ok = true ->
        exists card p',
          reserve_target (Game.board g) a = Some card
          /\ Game.get_current_player g' = Some p'
          /\ Player.reserved_cards p' = Player.reserved_cards p ++ [card]
          /\ table (Game.board g) ≡ₚ card :: table (Game.board g')
          /\ (forall level,
                (4 <= length (Board.displayed_cards (Game.board g') level))%nat
                \/ Board.card_decks (Game.board g') level = [])
          /\ (forall c,
                Player.gems p' c + Board.gems (Game.board g') c
                = Player.gems p c + Board.gems (Game.board g) c)
          /\ (0 < Board.gems (Game.board g) GOLD ->
              Player.get_total_gems p'
              = Z.min (Player.get_total_gems p + 1) 10
              /\ (Player.get_total_gems p <= 9 ->
                  forall c,
                    Player.gems p' c
                    = Player.gems p c + (if decide (c = GOLD) then 1 else 0)))
          /\ (Board.gems (Game.board g) GOLD <= 0 ->
              forall c, Player.gems p' c = Player.gems p c)
          /\ Player.cards p' = Player.cards p
          /\ Player.nobles p' = Player.nobles p
          /\ Board.nobles (Game.board g') = Board.nobles (Game.board g)).
Proof.
  intros Hp Hty Hnn. unfold Game.execute_action. rewrite Hp, Hty.
  unfold Game._execute_reserve_card. fields.
  pose proof (reserve_source_target (Game.board g) a) as Htarget.
  pose proof (reserve_source_nobles (Game.board g) a) as Hnob.
  case_bool_decide as Hfull.
  { eexists _, _. split; [reflexivity|]. split; [|done].
    split; [done|]. intros [? _]. lia. }
  destruct (Game.reserve_source _ _) as [[card|] b1] eqn:Hsrc;
    cbn [fst snd] in Htarget, Hnob.
  2:{ eexists _, _. split; [reflexivity|]. split; [|done].
      split; [done|]. intros [_ [? Hsome]]. congruence. }
  apply reserve_source_Some in Hsrc as (Hg1 & level & Hz & Hother).
  destruct (zone_remove _ _ _ _ Hz Hother) as [Htable _].
  destruct (replenish_displayed_cards_spec b1) as (_ & Hg2 & Hn2).
  pose proof (replenish_exit b1) as Hexit.
  pose proof (replenish_table b1) as Htable2.
  set (p1 := Player.set_reserved_cards p (Player.reserved_cards p ++ [card])).
  set (b2 := Board.replenish_displayed_cards b1) in *.
  clearbody b2.
  assert (true = true <->
          (length (Player.reserved_cards p) < 3)%nat
          /\ is_Some (reserve_target (Game.board g) a)) as Hiff.
  { split; [|done]. intros _. split; [lia|]. rewrite <- Htarget. by eexists. }
  destruct (Z.ltb_spec 0 (Board.gems b2 GOLD)) as [Hgold|Hgold].
  - set (p2 := Player.set_gems p1 _). set (b3 := Board.set_gems b2 _).
    assert (Player.get_total_gems p2 = Player.get_total_gems p + 1) as Htot2.
    { unfold Player.get_total_gems, p2, p1. fields. rewrite gems_total_set. lia. }
    assert (forall c, 0 <= Player.gems p2 c) as Hnn2.
    { intros c. unfold p2, p1. fields. unfold gems_set.
      pose proof (Hnn c). pose proof (Hnn GOLD). case_decide; subst; lia. }
    destruct (check_and_discard_gems_spec rnd p2 b3)
      as (pg & bg & Hdis & Hsum & Hok & Hle).
    destruct (Hok Hnn2) as [_ Htot].
    pose proof (check_and_discard_gems_noop rnd p2 b3) as Hnoop.
    rewrite Hdis in *. cbv beta iota zeta.
    eexists _, _. split; [reflexivity|]. split; [exact Hiff|].
    intros _. exists card. eexists. split; [by rewrite <- Htarget|].
    split.
    { unfold Game.get_current_player. fields.
      apply list_lookup_insert_eq. by eapply lookup_lt_Some. } fields.
    split; [done|].
    split; [unfold b3; rewrite !table_set_gems; by rewrite Htable, Htable2|].
    split; [exact Hexit|]. split.
    { intros c. rewrite Hsum. unfold p2, b3, p1. fields. unfold gems_set.
      rewrite Hg2, Hg1. case_decide; subst; lia. }
    split.
    { intros _. split; [by rewrite <- Htot2|].
      intros Hsmall c.
      assert (Player.set_gems p2 pg = p2) as Hp2.
      { assert ((Player.set_gems p2 pg, Board.set_gems b3 bg) = (p2, b3)) as Heq
          by (apply Hnoop; lia).
        by apply pair_equal_spec in Heq as [? _]. }
      apply (f_equal Player.gems) in Hp2. fields. rewrite Hp2.
      unfold p2, p1. fields. unfold gems_set. case_decide; subst; lia. }
    split; [|unfold p2, b3, p1; fields; by rewrite Hn2, Hnob].
    intros Hnone. rewrite Hg2, Hg1 in Hgold. lia.
  - eexists _, _. split; [reflexivity|]. split; [exact Hiff|].
    intros _. exists card. eexists. split; [by rewrite <- Htarget|].
    split.
    { unfold Game.get_current_player. fields.
      apply list_lookup_insert_eq. by eapply lookup_lt_Some. } unfold p1. fields.
    split; [done|].
    split; [by rewrite Htable, Htable2|].
    split; [exact Hexit|]. split; [intros c; by rewrite Hg2, Hg1|].
    split; [|by rewrite Hn2, Hnob].
    intros Hsome. rewrite Hg2, Hg1 in Hgold. lia.
Qed.

Lemma reserve_card_outcome_witness :
  exists g' p',
    Game.execute_action [] sample_game (Action.reserve_from_deck 3) = Some (true, g')
    /\ Game.get_current_player g' = Some p'
    /\ map Card.card_id (Player.reserved_cards p') = ["L3_G2"]
    /\ Player.gems p' GOLD = 1.
Proof.
  destruct (reserve_card_outcome [] sample_game (Action.reserve_from_deck 3)
              sample_player) as (ok & g' & Hexec & Hok & Hgain); [done|done|done|].
  assert (ok = true) as ->.
  { apply Hok. split; [cbn; lia|]. vm_compute. by eexists. }
  destruct (Hgain eq_refl)
    as (card & p' & Hcard & Hp' & Hres & _ & _ & _ & Hgold & _).
  exists g', p'. split; [exact Hexec|]. split; [exact Hp'|].
  split.
  - rewrite Hres. vm_compute in Hcard. injection Hcard as <-. reflexivity.
  - destruct Hgold as [_ Hone]; [by vm_compute|].
    rewrite Hone; [reflexivity|by vm_compute].
Defined.
